(** * wisdom-store: the project indexer and the symbol / route checks

    A shallow embedding of [src/mcp-server/lib/indexer.js] (scanProject,
    walkDir, the extractors, addSymbol, checkSymbols, findFuzzyMatch,
    levenshtein) and of the API-route validation of [symbol-check.mjs]
    (embedded in the post-edit hook), followed by the properties of the
    specification that were checked against them.

    Conventions of the embedding.
    - A JavaScript string is a [string]; its code units are [ascii]
      characters, and the text is taken to be ASCII: [toLowerCase] and
      [toUpperCase] move the 26 letters only, and the regular expression
      classes [\w], [\d], [\s] are the ASCII ones.
    - Line numbers, lengths, indices and occurrence counts are [nat].
    - A plain JavaScript object used as a dictionary is an insertion
      ordered association list of its own properties (the order in which
      [Object.keys] and [Object.entries] enumerate them) read through the
      prototype chain of [Object.prototype].
    - A [Set] is the list of its elements in insertion order. *)

From Stdlib Require Import List String Ascii Arith Bool Lia ZArith.
Import ListNotations.
Open Scope string_scope.
Open Scope list_scope.
Open Scope nat_scope.

(* ================================================================== *)
(** * Part I. The embedding                                            *)
(* ================================================================== *)

(** ** JavaScript strings *)

Module JsString.

Definition chars (s : string) : list ascii := list_ascii_of_string s.
Definition ofChars (l : list ascii) : string := string_of_list_ascii l.

Definition isUpper (c : ascii) : bool :=
  let n := nat_of_ascii c in (65 <=? n) && (n <=? 90).
Definition isLower (c : ascii) : bool :=
  let n := nat_of_ascii c in (97 <=? n) && (n <=? 122).
Definition isDigit (c : ascii) : bool :=
  let n := nat_of_ascii c in (48 <=? n) && (n <=? 57).

Definition lowerChar (c : ascii) : ascii :=
  if isUpper c then ascii_of_nat (nat_of_ascii c + 32) else c.
Definition upperChar (c : ascii) : ascii :=
  if isLower c then ascii_of_nat (nat_of_ascii c - 32) else c.

Fixpoint mapChars (f : ascii -> ascii) (s : string) : string :=
  match s with
  | EmptyString => EmptyString
  | String c t => String (f c) (mapChars f t)
  end.

(** [s.toLowerCase()], [s.toUpperCase()] *)
Definition toLowerCase (s : string) : string := mapChars lowerChar s.
Definition toUpperCase (s : string) : string := mapChars upperChar s.

(** [s.startsWith(p)] *)
Fixpoint startsWith (s p : string) {struct p} : bool :=
  match p with
  | EmptyString => true
  | String b p' =>
      match s with
      | EmptyString => false
      | String a s' => Ascii.eqb a b && startsWith s' p'
      end
  end.

(** [Math.abs(x - y)] on lengths *)
Definition absDiff (x y : nat) : nat := (x - y) + (y - x).

(** [s.split(sep)] for a one-character separator: never the empty list. *)
Fixpoint splitOn (sep : ascii) (s : string) : list string :=
  match s with
  | EmptyString => [EmptyString]
  | String c t =>
      if Ascii.eqb c sep then EmptyString :: splitOn sep t
      else match splitOn sep t with
           | [] => [String c EmptyString]
           | w :: ws => String c w :: ws
           end
  end.

(** [parts.join(sep)] *)
Fixpoint join (sep : string) (parts : list string) : string :=
  match parts with
  | [] => EmptyString
  | [p] => p
  | p :: ps => (p ++ sep ++ join sep ps)%string
  end.

(** The white space of [\s] and of [trim()], on ASCII text:
    tab, line feed, vertical tab, form feed, carriage return, space. *)
Definition isSpace (c : ascii) : bool :=
  let n := nat_of_ascii c in ((9 <=? n) && (n <=? 13)) || (n =? 32).

(** The word characters of [\w]: letters, digits and the underscore. *)
Definition isWord (c : ascii) : bool :=
  isUpper c || isLower c || isDigit c || Ascii.eqb c "_"%char.

Fixpoint dropSpaces (l : list ascii) : list ascii :=
  match l with
  | c :: t => if isSpace c then dropSpaces t else l
  | [] => []
  end.

(** [s.trim()] *)
Definition trim (s : string) : string :=
  ofChars (rev (dropSpaces (rev (dropSpaces (chars s))))).

(** A string is truthy when it is not empty. *)
Definition nonEmpty (s : string) : bool :=
  match s with EmptyString => false | _ => true end.

(** Membership in a list of strings ([Set.prototype.has], [includes]). *)
Definition mem (x : string) (l : list string) : bool :=
  existsb (String.eqb x) l.

(** [set.add(x)]: a [Set] keeps the first insertion of each element. *)
Definition setAdd (l : list string) (x : string) : list string :=
  if mem x l then l else l ++ [x].

End JsString.
Import JsString.

(** ** Plain objects used as dictionaries *)

Module JsObject.

(** The properties every object literal inherits from
    [Object.prototype]. Each of them holds a function (or, for
    [__proto__], the prototype object), so reading one of these names from
    an object that has no own property of that name gives a truthy value. *)
Definition objectPrototypeKeys : list string :=
  [ "constructor"; "hasOwnProperty"; "isPrototypeOf"; "propertyIsEnumerable";
    "toLocaleString"; "toString"; "valueOf"; "__proto__";
    "__defineGetter__"; "__defineSetter__"; "__lookupGetter__";
    "__lookupSetter__" ].

Definition inherited (k : string) : bool := mem k objectPrototypeKeys.

(** Own properties, in insertion order. *)
Definition obj (V : Type) : Type := list (string * V).

Fixpoint own {V} (o : obj V) (k : string) : option V :=
  match o with
  | [] => None
  | (k', v) :: t => if String.eqb k k' then Some v else own t k
  end.

(** What [o[k]] evaluates to. *)
Inductive slot (V : Type) : Type :=
| Own (v : V)        (* an own property *)
| Inherited          (* a member of Object.prototype *)
| Absent.            (* undefined *)
Arguments Own {V} v.
Arguments Inherited {V}.
Arguments Absent {V}.

Definition read {V} (o : obj V) (k : string) : slot V :=
  match own o k with
  | Some v => Own v
  | None => if inherited k then Inherited else Absent
  end.

(** Truthiness of [o[k]] when the own values are objects. *)
Definition truthy {V} (s : slot V) : bool :=
  match s with Absent => false | _ => true end.

Fixpoint overwrite {V} (o : obj V) (k : string) (v : V) : obj V :=
  match o with
  | [] => []
  | (k', v') :: t =>
      if String.eqb k k' then (k', v) :: t else (k', v') :: overwrite t k v
  end.

(** [o[k] = v]: an existing own property keeps its place, a new one goes
    last. Assigning to [__proto__] runs the inherited setter and creates
    no own property. *)
Definition assign {V} (o : obj V) (k : string) (v : V) : obj V :=
  match own o k with
  | Some _ => overwrite o k v
  | None => if String.eqb k "__proto__" then o else o ++ [(k, v)]
  end.

(** [Object.keys(o)] *)
Definition keys {V} (o : obj V) : list string := map fst o.

End JsObject.
Import JsObject.

(** ** The symbol registry and addSymbol *)

Record SymbolEntry : Type := mkEntry {
  file : string;
  line : nat;
  usages : nat
}.

Definition category : Type := obj SymbolEntry.

(** [{ file: filePath, line, usages: 1 }] *)
Definition firstSight (filePath : string) (ln : nat) : SymbolEntry :=
  {| file := filePath; line := ln; usages := 1 |}.

(** [entry.usages++] *)
Definition bump (e : SymbolEntry) : SymbolEntry :=
  {| file := file e; line := line e; usages := S (usages e) |}.

(** [addSymbol(category, name, filePath, line)].
    The test [!category[name]] reads through the prototype chain: for a
    name that [Object.prototype] defines, the else branch runs on the first
    call already, and [usages++] lands on the inherited function, not on
    the category. *)
Definition addSymbol (c : category) (name filePath : string) (ln : nat)
  : category :=
  match read c name with
  | Absent => assign c name (firstSight filePath ln)
  | Own e => overwrite c name (bump e)
  | Inherited => c
  end.

(** One call of a scan, and a sequence of calls on one category. *)
Record Call : Type := mkCall {
  c_name : string;
  c_file : string;
  c_line : nat
}.

Definition addCall (c : category) (k : Call) : category :=
  addSymbol c (c_name k) (c_file k) (c_line k).

Definition addCalls (c : category) (ks : list Call) : category :=
  fold_left addCall ks c.

(** The first call for [name] in a sequence, and how many there are. *)
Definition callsFor (name : string) (ks : list Call) : list Call :=
  filter (fun k => String.eqb name (c_name k)) ks.

(** ** levenshtein and findFuzzyMatch *)

(** [Math.min(x, y, z)] *)
Definition min3 (x y z : nat) : nat := Nat.min (Nat.min x y) z.

(** The inner loop of [levenshtein] for one row [i >= 1]: [bc] is
    [b[i - 1]], [prev] is what is left of row [i - 1] from column [j - 1]
    on, [left] is [matrix[i][j - 1]]; the result is row [i] from column
    [j] on. *)
Fixpoint fillRow (bc : ascii) (a : list ascii) (prev : list nat) (left : nat)
  : list nat :=
  match a, prev with
  | ac :: a', diag :: ((up :: _) as prev') =>
      let v := if Ascii.eqb bc ac then diag
               else min3 (diag + 1) (left + 1) (up + 1) in
      v :: fillRow bc a' prev' v
  | _, _ => []
  end.

(** The outer loop: [b] is what is left of the second string, [i] the
    index of the row [prev] just completed. Returns the last row. *)
Fixpoint fillRows (a b : list ascii) (i : nat) (prev : list nat) : list nat :=
  match b with
  | [] => prev
  | bc :: b' => fillRows a b' (S i) (S i :: fillRow bc a prev (S i))
  end.

(** [levenshtein(a, b)]: row 0 is [0, 1, ..., a.length], column 0 of row
    [i] is [i], and the result is [matrix[b.length][a.length]]. *)
Definition levenshtein (a b : string) : nat :=
  if String.length a =? 0 then String.length b
  else if String.length b =? 0 then String.length a
  else last (fillRows (chars a) (chars b) 0 (seq 0 (S (String.length a)))) 0.

(** [Math.max(2, Math.floor(query.length * 0.3))]. The double nearest to
    0.3 lies below it by about 1.1e-17; for a length n below 2^50 the
    product rounds to 3n/10 exactly when 10 divides n and stays away from
    the next integer otherwise, so the floor is that of 3n/10. *)
Definition maxDistanceOf (query : string) : nat :=
  Nat.max 2 (3 * String.length query / 10).

Record FuzzyMatch : Type := mkFuzzy {
  m_name : string;
  m_distance : nat
}.

(** The loop state: [bestMatch] (initially null) and [bestDistance]
    (initially [Infinity], here [None]). *)
Definition fuzzyState : Type := (option string * option nat)%type.

(** [dist < bestDistance] *)
Definition belowBest (dist : nat) (best : option nat) : bool :=
  match best with
  | None => true
  | Some d => dist <? d
  end.

Definition fuzzyStep (query : string) (maxDistance : nat)
  (st : fuzzyState) (name : string) : fuzzyState :=
  if maxDistance <? absDiff (String.length name) (String.length query)
  then st
  else
    let dist := levenshtein (toLowerCase query) (toLowerCase name) in
    if (dist <=? maxDistance) && belowBest dist (snd st)
    then (Some name, Some dist)
    else st.

(** [findFuzzyMatch(query, names)]; the final test [bestMatch ? .. : null]
    is also false for the empty string. *)
Definition findFuzzyMatch (query : string) (names : list string)
  : option FuzzyMatch :=
  let maxDistance := maxDistanceOf query in
  match fold_left (fuzzyStep query maxDistance) names (None, None) with
  | (Some best, Some dist) =>
      if nonEmpty best then Some {| m_name := best; m_distance := dist |}
      else None
  | _ => None
  end.

(** The candidates the length gate lets through. *)
Definition withinGate (query name : string) : bool :=
  absDiff (String.length name) (String.length query) <=? maxDistanceOf query.

(** ** Regular expressions

    The extractors and the route check are written with JavaScript regular
    expressions. Each one is transcribed below as a term of [regex] and run
    by a backtracking matcher that follows the continuation semantics of
    the language definition: alternatives left to right, greedy and lazy
    repetition, an iteration of a repetition that consumes nothing is
    rejected, captures are the text of the last successful pass.

    Where a comment quotes a pattern of the source, a blank is put between
    a star and a closing parenthesis that follows it (the source has
    none), and QUOTE stands for the class of the three quote characters:
    single quote, double quote, backtick. *)

Module Regex.

Inductive cclass : Type :=
| One (c : ascii)            (* a literal character *)
| Range (lo hi : ascii)      (* lo-hi *)
| Word                       (* \w *)
| Digit                      (* \d *)
| Space                      (* \s *)
| NonSpace.                  (* \S *)

(** The double quote character. *)
Definition dquote : ascii := ascii_of_nat 34.

(** QUOTE: the three quote characters. *)
Definition quote : list cclass := [One "'"%char; One dquote; One "`"%char].

Inductive regex : Type :=
| Eps                                  (* the empty pattern *)
| Chr (c : ascii)                      (* a literal character *)
| Cls (items : list cclass)            (* [...] *)
| NotCls (items : list cclass)         (* [^...] *)
| Seq (r1 r2 : regex)
| Alt (r1 r2 : regex)                  (* r1|r2 *)
| Star (r : regex)                     (* r*  *)
| LazyStar (r : regex)                 (* r*? *)
| Cap (n : nat) (r : regex)            (* the n-th capturing group *)
| Bol                                  (* ^ *)
| Eol                                  (* $ *)
| WordB                                (* \b *)
| NotAhead (r : regex).                (* (?!r) *)

(** [r+], [r?], a literal word, a list of alternatives, a sequence. *)
Definition Plus (r : regex) : regex := Seq r (Star r).
Definition Opt (r : regex) : regex := Alt r Eps.

Fixpoint litChars (l : list ascii) : regex :=
  match l with
  | [] => Eps
  | [c] => Chr c
  | c :: t => Seq (Chr c) (litChars t)
  end.
Definition Lit (s : string) : regex := litChars (chars s).

Fixpoint Alts (rs : list regex) : regex :=
  match rs with
  | [] => Eps
  | [r] => r
  | r :: t => Alt r (Alts t)
  end.

Fixpoint Seqs (rs : list regex) : regex :=
  match rs with
  | [] => Eps
  | [r] => r
  | r :: t => Seq r (Seqs t)
  end.

Definition between (lo hi c : ascii) : bool :=
  (nat_of_ascii lo <=? nat_of_ascii c) && (nat_of_ascii c <=? nat_of_ascii hi).

Definition inItem (c : ascii) (i : cclass) : bool :=
  match i with
  | One d => Ascii.eqb c d
  | Range lo hi => between lo hi c
  | Word => isWord c
  | Digit => isDigit c
  | Space => isSpace c
  | NonSpace => negb (isSpace c)
  end.

(** Under the [i] flag a character matches a class item when some
    character with the same canonical (upper case) form belongs to it. *)
Definition inItemCi (ci : bool) (c : ascii) (i : cclass) : bool :=
  if ci then inItem c i || inItem (upperChar c) i || inItem (lowerChar c) i
  else inItem c i.

Definition inClass (ci : bool) (items : list cclass) (c : ascii) : bool :=
  existsb (inItemCi ci c) items.

Definition sameChar (ci : bool) (c d : ascii) : bool :=
  if ci then Ascii.eqb (upperChar c) (upperChar d) else Ascii.eqb c d.

(** A position in the subject: the character before it (none at index 0),
    the text from it on, its index. *)
Record cursor : Type := mkCursor {
  before : option ascii;
  after : list ascii;
  index : nat
}.

(** Captured groups, the most recent first. *)
Definition captures : Type := list (nat * list ascii).

Definition outcome : Type := option (cursor * captures).

Definition step (x : cursor) : option (ascii * cursor) :=
  match after x with
  | [] => None
  | c :: t => Some (c, {| before := Some c; after := t; index := S (index x) |})
  end.

Definition wordBefore (x : cursor) : bool :=
  match before x with Some c => isWord c | None => false end.
Definition wordAfter (x : cursor) : bool :=
  match after x with c :: _ => isWord c | [] => false end.

Definition orElse (a : outcome) (b : unit -> outcome) : outcome :=
  match a with
  | Some v => Some v
  | None => b tt
  end.

(** Repetition of a body: one more pass that consumes something, then
    the loop again, or else the continuation ([greedyLoop]); the
    continuation first, one more pass if it fails ([lazyLoop]). Each pass
    moves forward, so the length of the text left bounds their number. *)
Definition matcher : Type :=
  cursor -> captures -> (cursor -> captures -> outcome) -> outcome.

Fixpoint greedyLoop (body : matcher) (k : cursor -> captures -> outcome)
  (fuel : nat) (x : cursor) (cs : captures) : outcome :=
  match fuel with
  | 0 => k x cs
  | S fuel' =>
      orElse
        (body x cs (fun y cs' =>
           if index x <? index y then greedyLoop body k fuel' y cs' else None))
        (fun _ => k x cs)
  end.

Fixpoint lazyLoop (body : matcher) (k : cursor -> captures -> outcome)
  (fuel : nat) (x : cursor) (cs : captures) : outcome :=
  match fuel with
  | 0 => k x cs
  | S fuel' =>
      orElse (k x cs)
        (fun _ => body x cs (fun y cs' =>
           if index x <? index y then lazyLoop body k fuel' y cs' else None))
  end.

(** The matcher: [run ci r x cs k] matches [r] at [x] and hands the
    position reached to the continuation [k]; when [k] fails the next
    choice is tried. *)
Fixpoint run (ci : bool) (r : regex) (x : cursor) (cs : captures)
  (k : cursor -> captures -> outcome) {struct r} : outcome :=
  match r with
  | Eps => k x cs
  | Chr c =>
      match step x with
      | Some (d, y) => if sameChar ci d c then k y cs else None
      | None => None
      end
  | Cls items =>
      match step x with
      | Some (d, y) => if inClass ci items d then k y cs else None
      | None => None
      end
  | NotCls items =>
      match step x with
      | Some (d, y) => if inClass ci items d then None else k y cs
      | None => None
      end
  | Seq r1 r2 => run ci r1 x cs (fun y cs' => run ci r2 y cs' k)
  | Alt r1 r2 => orElse (run ci r1 x cs k) (fun _ => run ci r2 x cs k)
  | Star r1 => greedyLoop (run ci r1) k (S (List.length (after x))) x cs
  | LazyStar r1 => lazyLoop (run ci r1) k (S (List.length (after x))) x cs
  | Cap n r1 =>
      run ci r1 x cs (fun y cs' =>
        k y ((n, firstn (index y - index x) (after x)) :: cs'))
  | Bol => if index x =? 0 then k x cs else None
  | Eol => match after x with [] => k x cs | _ => None end
  | WordB => if xorb (wordBefore x) (wordAfter x) then k x cs else None
  | NotAhead r1 =>
      match run ci r1 x cs (fun y cs' => Some (y, cs')) with
      | Some _ => None
      | None => k x cs
      end
  end.

(** A match: where it starts, where it ends, what was captured. *)
Record found : Type := mkFound {
  f_index : nat;
  f_text : list ascii;
  f_end : cursor;
  f_caps : captures
}.

(** The leftmost match at or after a position. *)
Fixpoint search (ci : bool) (r : regex) (bef : option ascii)
  (aft : list ascii) (idx : nat) : option found :=
  let x := {| before := bef; after := aft; index := idx |} in
  match run ci r x [] (fun y cs => Some (y, cs)) with
  | Some (y, cs) =>
      Some {| f_index := idx; f_text := firstn (index y - idx) aft;
              f_end := y; f_caps := cs |}
  | None =>
      match aft with
      | [] => None
      | c :: t => search ci r (Some c) t (S idx)
      end
  end.

(** [s.match(re)] and [re.exec(s)] for a pattern without the [g] flag. *)
Definition exec (ci : bool) (r : regex) (s : string) : option found :=
  search ci r None (chars s) 0.

(** [re.test(s)] *)
Definition test (ci : bool) (r : regex) (s : string) : bool :=
  match exec ci r s with Some _ => true | None => false end.

(** [m[n]] for a group that took part in the match. *)
Fixpoint lookupCap (cs : captures) (n : nat) : option (list ascii) :=
  match cs with
  | [] => None
  | (m, t) :: rest => if m =? n then Some t else lookupCap rest n
  end.

Definition group (m : found) (n : nat) : string :=
  match lookupCap (f_caps m) n with
  | Some t => ofChars t
  | None => EmptyString
  end.

(** Every match, left to right, for a pattern with the [g] flag: the
    successive results of [re.exec(s)] in a loop, of [s.matchAll(re)] or
    of the scan of [s.replace(re, ..)]. After a match the search resumes
    where it ended (one character further after an empty match). *)
Fixpoint execAllFrom (fuel : nat) (ci : bool) (r : regex)
  (bef : option ascii) (aft : list ascii) (idx : nat) : list found :=
  match fuel with
  | 0 => []
  | S fuel' =>
      match search ci r bef aft idx with
      | None => []
      | Some m =>
          let y := f_end m in
          if f_index m <? index y
          then m :: execAllFrom fuel' ci r (before y) (after y) (index y)
          else match after y with
               | [] => [m]
               | c :: t => m :: execAllFrom fuel' ci r (Some c) t (S (index y))
               end
      end
  end.

Definition execAll (ci : bool) (r : regex) (s : string) : list found :=
  execAllFrom (S (String.length s)) ci r None (chars s) 0.

(** [s.replace(re, repl)] with the [g] flag and a replacement text without
    [$] patterns. [pos] is the index up to which the subject was copied. *)
Fixpoint spliceAll (subject : list ascii) (pos : nat) (ms : list found)
  (repl : list ascii) : list ascii :=
  match ms with
  | [] => skipn pos subject
  | m :: rest =>
      firstn (f_index m - pos) (skipn pos subject) ++ repl ++
      spliceAll subject (index (f_end m)) rest repl
  end.

Definition replaceAll (ci : bool) (r : regex) (s repl : string) : string :=
  ofChars (spliceAll (chars s) 0 (execAll ci r s) (chars repl)).

(** [s.replace(re, repl)] without the [g] flag: the first match only. *)
Definition replaceFirst (ci : bool) (r : regex) (s repl : string) : string :=
  match exec ci r s with
  | None => s
  | Some m => ofChars (spliceAll (chars s) 0 [m] (chars repl))
  end.

(** [s.substring(0, n).split('\n').length]: the 1-based line of index n. *)
Definition lineOfIndex (s : string) (n : nat) : nat :=
  List.length (splitOn "010"%char (ofChars (firstn n (chars s)))).

End Regex.
Import Regex.

(** ** The route table and the symbols record *)

(** [{ file, line, method, path }]; [method] is an upper-cased verb or
    ["MOUNT"]. An entry read back from the persisted registry may lack a
    path, here the empty string (falsy as well). *)
Record RouteEntry : Type := mkRoute {
  r_file : string;
  r_line : nat;
  r_method : string;
  r_path : string
}.

(** [{ file, title, scripts }] *)
Record PageEntry : Type := mkPage {
  p_file : string;
  p_title : string;
  p_scripts : list string
}.

(** The [symbols] object of a scan. *)
Record Symbols : Type := mkSymbols {
  functions : category;
  classes : category;
  variables : category;
  exports : category;
  apiRoutes : obj RouteEntry;
  htmlPages : obj PageEntry
}.

Definition emptySymbols : Symbols :=
  {| functions := []; classes := []; variables := []; exports := [];
     apiRoutes := []; htmlPages := [] |}.

(** The four categories [addSymbol] is applied to. *)
Inductive Cat : Type := Functions | Classes | Variables | Exports.

Definition getCat (c : Cat) (s : Symbols) : category :=
  match c with
  | Functions => functions s
  | Classes => classes s
  | Variables => variables s
  | Exports => exports s
  end.

Definition setCat (c : Cat) (s : Symbols) (v : category) : Symbols :=
  match c with
  | Functions =>
      {| functions := v; classes := classes s; variables := variables s;
         exports := exports s; apiRoutes := apiRoutes s;
         htmlPages := htmlPages s |}
  | Classes =>
      {| functions := functions s; classes := v; variables := variables s;
         exports := exports s; apiRoutes := apiRoutes s;
         htmlPages := htmlPages s |}
  | Variables =>
      {| functions := functions s; classes := classes s; variables := v;
         exports := exports s; apiRoutes := apiRoutes s;
         htmlPages := htmlPages s |}
  | Exports =>
      {| functions := functions s; classes := classes s;
         variables := variables s; exports := v; apiRoutes := apiRoutes s;
         htmlPages := htmlPages s |}
  end.

(** [addSymbol(symbols.<c>, name, filePath, line)] *)
Definition addTo (c : Cat) (s : Symbols) (name filePath : string) (ln : nat)
  : Symbols :=
  setCat c s (addSymbol (getCat c s) name filePath ln).

Definition setRoutes (s : Symbols) (v : obj RouteEntry) : Symbols :=
  {| functions := functions s; classes := classes s;
     variables := variables s; exports := exports s; apiRoutes := v;
     htmlPages := htmlPages s |}.

Definition setPages (s : Symbols) (v : obj PageEntry) : Symbols :=
  {| functions := functions s; classes := classes s;
     variables := variables s; exports := exports s;
     apiRoutes := apiRoutes s; htmlPages := v |}.

(** [if (!symbols.apiRoutes[key]) symbols.apiRoutes[key] = entry] *)
Definition addRoute (s : Symbols) (key : string) (e : RouteEntry) : Symbols :=
  if truthy (read (apiRoutes s) key) then s
  else setRoutes s (assign (apiRoutes s) key e).

(** [for (let i = 0; i < lines.length; i++)] with the body [f] applied to
    the symbols, the index and the line. *)
Fixpoint forLines (f : Symbols -> nat -> string -> Symbols)
  (i : nat) (lines : list string) (s : Symbols) : Symbols :=
  match lines with
  | [] => s
  | l :: rest => forLines f (S i) rest (f s i l)
  end.

(** ** checkSymbols *)

(** A value of a category of the persisted registry: a symbol entry, a
    route entry or a page entry. *)
Inductive RegistryEntry : Type :=
| SymbolOf (e : SymbolEntry)
| RouteOf (e : RouteEntry)
| PageOf (e : PageEntry).

(** The registry handed to [checkSymbols]: category name to category, in
    the order of [Object.entries]. *)
Definition registry : Type := obj (obj RegistryEntry).

Definition asCategory {V} (wrap : V -> RegistryEntry) (o : obj V)
  : obj RegistryEntry :=
  map (fun kv => (fst kv, wrap (snd kv))) o.

(** The categories of a scan as the tools persist and reload them (the
    [_meta] block is stripped before [checkSymbols] is called). *)
Definition registryOf (s : Symbols) : registry :=
  [ ("functions", asCategory SymbolOf (functions s));
    ("classes", asCategory SymbolOf (classes s));
    ("variables", asCategory SymbolOf (variables s));
    ("exports", asCategory SymbolOf (exports s));
    ("apiRoutes", asCategory RouteOf (apiRoutes s));
    ("htmlPages", asCategory PageOf (htmlPages s)) ].

(** [allNames]: every key of every category, as a [Set]. *)
Definition allNames (reg : registry) : list string :=
  fold_left (fun acc cat => fold_left setAdd (keys (snd cat)) acc) reg [].

(** The first category, in [Object.entries] order, where [cat[name]] is
    truthy, with what the spread [...cat[name]] copies: the fields of the
    entry for an own property, nothing for an inherited function. *)
Fixpoint firstCategoryWith (reg : registry) (name : string)
  : option (string * option RegistryEntry) :=
  match reg with
  | [] => None
  | (catName, cat) :: rest =>
      match read cat name with
      | Own e => Some (catName, Some e)
      | Inherited => Some (catName, None)
      | Absent => firstCategoryWith rest name
      end
  end.

Record KnownItem : Type := mkKnown {
  k_name : string;
  k_category : string;
  k_entry : option RegistryEntry
}.

Record FuzzyItem : Type := mkFuzzyItem {
  queried : string;
  suggestion : string;
  distance : nat;
  f_category : string;
  f_entry : option RegistryEntry
}.

Record CheckResult : Type := mkCheck {
  known : list KnownItem;
  fuzzy : list FuzzyItem;
  unknown : list string
}.

(** The body of the loop over [symbolNames]. *)
Definition checkOne (reg : registry) (names : list string)
  (r : CheckResult) (name : string) : CheckResult :=
  if mem name names then
    match firstCategoryWith reg name with
    | Some (catName, e) =>
        {| known := known r ++ [mkKnown name catName e];
           fuzzy := fuzzy r; unknown := unknown r |}
    | None => r
    end
  else
    match findFuzzyMatch name names with
    | Some m =>
        match firstCategoryWith reg (m_name m) with
        | Some (catName, e) =>
            {| known := known r;
               fuzzy := fuzzy r ++
                 [mkFuzzyItem name (m_name m) (m_distance m) catName e];
               unknown := unknown r |}
        | None => r
        end
    | None =>
        {| known := known r; fuzzy := fuzzy r;
           unknown := unknown r ++ [name] |}
    end.

(** [checkSymbols(symbolNames, registry)] *)
Definition checkSymbols (symbolNames : list string) (reg : registry)
  : CheckResult :=
  fold_left (checkOne reg (allNames reg)) symbolNames
    {| known := []; fuzzy := []; unknown := [] |}.

(** ** Heuristic extractors *)

Module Heuristic.

Definition sp : regex := Cls [Space].
Definition w : regex := Cls [Word].
(** Pattern [[a-zA-Z_$]\w*] *)
Definition jsIdent : regex :=
  Seq (Cls [Range "a" "z"; Range "A" "Z"; One "_"; One "$"]) (Star w).

(** Pattern [/(?:async\s+)?function\s+([a-zA-Z_$]\w* )\s*\(/] *)
Definition jsFuncDecl : regex :=
  Seqs [Opt (Seq (Lit "async") (Plus sp)); Lit "function"; Plus sp;
        Cap 1 jsIdent; Star sp; Chr "("].

(** Pattern [/(?:const|let|var)\s+([a-zA-Z_$]\w* )\s*=\s*(?:async\s+)?(?:\([^)]*\)|[a-zA-Z_$]\w* )\s*=>/] *)
Definition jsArrowFunc : regex :=
  Seqs [Alts [Lit "const"; Lit "let"; Lit "var"]; Plus sp; Cap 1 jsIdent;
        Star sp; Chr "="; Star sp; Opt (Seq (Lit "async") (Plus sp));
        Alt (Seqs [Chr "("; Star (NotCls [One ")"]); Chr ")"]) jsIdent;
        Star sp; Lit "=>"].

(** Pattern [/class\s+([A-Z]\w* )/] *)
Definition jsClassDecl : regex :=
  Seqs [Lit "class"; Plus sp; Cap 1 (Seq (Cls [Range "A" "Z"]) (Star w))].

Definition jsRegexLine (filePath : string) (lineOffset : nat)
  (s : Symbols) (i : nat) (ln : string) : Symbols :=
  let lineNum := i + 1 + lineOffset in
  match exec false jsFuncDecl ln with
  | Some m => addTo Functions s (group m 1) filePath lineNum
  | None =>
  match exec false jsArrowFunc ln with
  | Some m => addTo Functions s (group m 1) filePath lineNum
  | None =>
  match exec false jsClassDecl ln with
  | Some m => addTo Classes s (group m 1) filePath lineNum
  | None => s
  end end end.

Definition extractJsRegex (filePath : string) (lines : list string)
  (s : Symbols) (lineOffset : nat) : Symbols :=
  forLines (jsRegexLine filePath lineOffset) 0 lines s.

(** Pattern [/^(?:async\s+)?def\s+(\w+)\s*\(/] *)
Definition pyFuncDef : regex :=
  Seqs [Bol; Opt (Seq (Lit "async") (Plus sp)); Lit "def"; Plus sp;
        Cap 1 (Plus w); Star sp; Chr "("].

(** Pattern [/^class\s+(\w+)[\s(:]/] *)
Definition pyClassDef : regex :=
  Seqs [Bol; Lit "class"; Plus sp; Cap 1 (Plus w);
        Cls [Space; One "("; One ":"]].

(** Pattern [/^\s+(?:async\s+)?def\s+(\w+)\s*\(/] *)
Definition pyMethodDef : regex :=
  Seqs [Bol; Plus sp; Opt (Seq (Lit "async") (Plus sp)); Lit "def"; Plus sp;
        Cap 1 (Plus w); Star sp; Chr "("].

(** Pattern [/^(\w+)\s*(?::\s*\w+\s* )?=/] *)
Definition pyVarAssign : regex :=
  Seqs [Bol; Cap 1 (Plus w); Star sp;
        Opt (Seqs [Chr ":"; Star sp; Plus w; Star sp]); Chr "="].

(** The last test of the loop body: an assignment in the first column
    whose target equals its own upper-casing. *)
Definition pythonAssign (filePath : string)
  (s : Symbols) (lineNum : nat) (ln : string) : Symbols :=
  match exec false pyVarAssign ln with
  | Some v =>
      if String.eqb (group v 1) (toUpperCase (group v 1))
      then addTo Variables s (group v 1) filePath lineNum
      else s
  | None => s
  end.

(** The body of the loop of [extractPython]; a method whose name begins
    with an underscore falls through to the assignment test. *)
Definition pythonLine (filePath : string)
  (s : Symbols) (i : nat) (ln : string) : Symbols :=
  let lineNum := i + 1 in
  match exec false pyFuncDef ln with
  | Some m => addTo Functions s (group m 1) filePath lineNum
  | None =>
  match exec false pyClassDef ln with
  | Some m => addTo Classes s (group m 1) filePath lineNum
  | None =>
  match exec false pyMethodDef ln with
  | Some m =>
      if negb (startsWith (group m 1) "_")
      then addTo Functions s (group m 1) filePath lineNum
      else pythonAssign filePath s lineNum ln
  | None => pythonAssign filePath s lineNum ln
  end end end.

Definition extractPython (filePath : string) (lines : list string)
  (s : Symbols) : Symbols :=
  forLines (pythonLine filePath) 0 lines s.

(** Pattern [/^func\s+(?:\(\w+\s+\*?\w+\)\s+)?(\w+)\s*\(/] *)
Definition goFuncDecl : regex :=
  Seqs [Bol; Lit "func"; Plus sp;
        Opt (Seqs [Chr "("; Plus w; Plus sp; Opt (Chr "*"); Plus w; Chr ")";
                   Plus sp]);
        Cap 1 (Plus w); Star sp; Chr "("].

(** Pattern [/^type\s+(\w+)\s+(?:struct|interface)\s*\{/] *)
Definition goTypeDecl : regex :=
  Seqs [Bol; Lit "type"; Plus sp; Cap 1 (Plus w); Plus sp;
        Alt (Lit "struct") (Lit "interface"); Star sp; Chr "{"].

(** Pattern [/^(?:const|var)\s+(\w+)\s/] *)
Definition goConstDecl : regex :=
  Seqs [Bol; Alt (Lit "const") (Lit "var"); Plus sp; Cap 1 (Plus w); sp].

Definition goLine (filePath : string)
  (s : Symbols) (i : nat) (ln : string) : Symbols :=
  let lineNum := i + 1 in
  match exec false goFuncDecl ln with
  | Some m => addTo Functions s (group m 1) filePath lineNum
  | None =>
  match exec false goTypeDecl ln with
  | Some m => addTo Classes s (group m 1) filePath lineNum
  | None =>
  match exec false goConstDecl ln with
  | Some m => addTo Variables s (group m 1) filePath lineNum
  | None => s
  end end end.

Definition extractGo (filePath : string) (lines : list string)
  (s : Symbols) : Symbols :=
  forLines (goLine filePath) 0 lines s.

Definition pub : regex := Opt (Seq (Lit "pub") (Plus sp)).

(** Pattern [/^(?:pub\s+)?(?:async\s+)?fn\s+(\w+)/] *)
Definition rustFnDecl : regex :=
  Seqs [Bol; pub; Opt (Seq (Lit "async") (Plus sp)); Lit "fn"; Plus sp;
        Cap 1 (Plus w)].

(** Pattern [/^(?:pub\s+)?<keyword>\s+(\w+)/] for struct, enum and trait *)
Definition rustItemDecl (keyword : string) : regex :=
  Seqs [Bol; pub; Lit keyword; Plus sp; Cap 1 (Plus w)].

(** Pattern [/^(?:pub\s+)?(?:const|static)\s+(\w+)/] *)
Definition rustConstDecl : regex :=
  Seqs [Bol; pub; Alt (Lit "const") (Lit "static"); Plus sp; Cap 1 (Plus w)].

Definition rustLine (filePath : string)
  (s : Symbols) (i : nat) (ln : string) : Symbols :=
  let lineNum := i + 1 in
  match exec false rustFnDecl ln with
  | Some m => addTo Functions s (group m 1) filePath lineNum
  | None =>
  match exec false (rustItemDecl "struct") ln with
  | Some m => addTo Classes s (group m 1) filePath lineNum
  | None =>
  match exec false (rustItemDecl "enum") ln with
  | Some m => addTo Classes s (group m 1) filePath lineNum
  | None =>
  match exec false (rustItemDecl "trait") ln with
  | Some m => addTo Classes s (group m 1) filePath lineNum
  | None =>
  match exec false rustConstDecl ln with
  | Some m => addTo Variables s (group m 1) filePath lineNum
  | None => s
  end end end end end.

Definition extractRust (filePath : string) (lines : list string)
  (s : Symbols) : Symbols :=
  forLines (rustLine filePath) 0 lines s.

(** [extractWithRegex(filePath, lines, lang, symbols, lineOffset = 0)]:
    the offset reaches the JavaScript patterns only. *)
Definition extractWithRegex (filePath : string) (lines : list string)
  (lang : string) (s : Symbols) (lineOffset : nat) : Symbols :=
  if (lang =? "javascript")%string || (lang =? "typescript")%string
  then extractJsRegex filePath lines s lineOffset
  else if (lang =? "python")%string then extractPython filePath lines s
  else if (lang =? "go")%string then extractGo filePath lines s
  else if (lang =? "rust")%string then extractRust filePath lines s
  else s.

End Heuristic.
Import Heuristic.

(** ** The syntax-tree service

    [@ast-grep/napi] is outside the repository: the indexer only uses the
    query interface below. [parse] answers [None] where
    [parse(lang, content)] throws; the queries on a tree are total. *)

Inductive Lang : Type := JavaScript | TypeScript | Tsx.

Class AstService : Type := {
  SgNode : Type;
  (** [parse(lang, content).root()] *)
  parse : Lang -> string -> option SgNode;
  (** [node.findAll({ rule: { kind } })] *)
  findAll : SgNode -> string -> list SgNode;
  (** [node.field(name)] *)
  field : SgNode -> string -> option SgNode;
  (** [node.kind()] *)
  kind : SgNode -> string;
  (** [node.text()] *)
  text : SgNode -> string;
  (** [node.range().start.line], counted from 0 *)
  startLine : SgNode -> nat
}.

(** How a call ends: normally, or by an exception that leaves the caller's
    [catch] with the symbols as mutated so far. *)
Inductive completion : Type :=
| Returned (s : Symbols)
| Thrown (s : Symbols).

Module Indexer.

Section WithAst.
Context {ast : AstService}.

(** [name.range().start.line + 1 + lineOffset] *)
Definition lineOf (n : SgNode) (lineOffset : nat) : nat :=
  startLine n + 1 + lineOffset.

(** [const name = node.field('name'); if (name) addSymbol(symbols.<c>, ...)] *)
Definition addNameField (c : Cat) (filePath : string) (lineOffset : nat)
  (s : Symbols) (node : SgNode) : Symbols :=
  match field node "name" with
  | Some name => addTo c s (text name) filePath (lineOf name lineOffset)
  | None => s
  end.

Definition isFunctionValue (valueKind : string) : bool :=
  (valueKind =? "arrow_function")%string ||
  (valueKind =? "function_expression")%string.

(** The body of the loop over the declarators of a [lexical_declaration]. *)
Definition lexicalDeclarator (filePath : string) (lineOffset : nat)
  (s : Symbols) (decl : SgNode) : Symbols :=
  match field decl "name", field decl "value" with
  | Some nameNode, Some valueNode =>
      if isFunctionValue (kind valueNode)
      then addTo Functions s (text nameNode) filePath (lineOf nameNode lineOffset)
      else addTo Variables s (text nameNode) filePath (lineOf nameNode lineOffset)
  | _, _ => s
  end.

(** The body of the loop over the declarators of a [variable_declaration]:
    a declarator without a value is a plain variable. *)
Definition varDeclarator (filePath : string) (lineOffset : nat)
  (s : Symbols) (decl : SgNode) : Symbols :=
  match field decl "name" with
  | None => s
  | Some nameNode =>
      let isFn := match field decl "value" with
                  | Some valueNode => isFunctionValue (kind valueNode)
                  | None => false
                  end in
      if isFn
      then addTo Functions s (text nameNode) filePath (lineOf nameNode lineOffset)
      else addTo Variables s (text nameNode) filePath (lineOf nameNode lineOffset)
  end.

Definition methodDefinition (filePath : string) (lineOffset : nat)
  (s : Symbols) (node : SgNode) : Symbols :=
  match field node "name" with
  | Some name =>
      if negb (text name =? "constructor")%string
      then addTo Functions s (text name) filePath (lineOf name lineOffset)
      else s
  | None => s
  end.

(** The body of the loop over the [export_statement] nodes. *)
Definition exportStatement (filePath : string) (lineOffset : nat)
  (s : Symbols) (node : SgNode) : Symbols :=
  let s1 :=
    match field node "declaration" with
    | Some declaration =>
        match field declaration "name" with
        | Some nameNode =>
            addTo Exports s (text nameNode) filePath (lineOf nameNode lineOffset)
        | None =>
            if (kind declaration =? "lexical_declaration")%string ||
               (kind declaration =? "variable_declaration")%string
            then fold_left (addNameField Exports filePath lineOffset)
                   (findAll declaration "variable_declarator") s
            else s
        end
    | None => s
    end in
  let s2 := fold_left (addNameField Exports filePath lineOffset)
              (findAll node "export_specifier") s1 in
  match field node "value" with
  | Some value =>
      if (kind value =? "identifier")%string
      then addTo Exports s2 (text value) filePath (lineOf value lineOffset)
      else s2
  | None => s2
  end.

(** Pattern [/^(?:module\.)?exports\.(\w+)\s*=/] *)
Definition memberExport : regex :=
  Seqs [Bol; Opt (Lit "module."); Lit "exports."; Cap 1 (Plus w); Star sp;
        Chr "="].

(** Pattern [/^module\.exports\s*=\s*\{([^}]+)\}/] *)
Definition bulkExport : regex :=
  Seqs [Bol; Lit "module.exports"; Star sp; Chr "="; Star sp; Chr "{";
        Cap 1 (Plus (NotCls [One "}"])); Chr "}"].

(** Pattern [/(?:router|app)\.(get|post|put|delete|patch)\s*\(\s*QUOTE([^QUOTE]+)QUOTE/] *)
Definition routeMatch : regex :=
  Seqs [Alt (Lit "router") (Lit "app"); Chr ".";
        Cap 1 (Alts [Lit "get"; Lit "post"; Lit "put"; Lit "delete";
                     Lit "patch"]);
        Star sp; Chr "("; Star sp; Cls quote; Cap 2 (Plus (NotCls quote));
        Cls quote].

(** Pattern [/app\.use\s*\(\s*QUOTE([^QUOTE]+)QUOTE/] *)
Definition mountMatch : regex :=
  Seqs [Lit "app.use"; Star sp; Chr "("; Star sp; Cls quote;
        Cap 1 (Plus (NotCls quote)); Cls quote].

(** Pattern [/^\w+$/] *)
Definition wordOnly : regex := Seqs [Bol; Plus w; Eol].

(** [s.split(/[:\s]/)[0]]: the text before the first colon or space. *)
Fixpoint untilColonOrSpace (l : list ascii) : list ascii :=
  match l with
  | [] => []
  | c :: t => if Ascii.eqb c ":" || isSpace c then []
              else c :: untilColonOrSpace t
  end.

(** [bulkExport[1].split(',').map(s => s.trim().split(/[:\s]/)[0].trim())] *)
Definition bulkNames (inner : string) : list string :=
  map (fun piece => trim (ofChars (untilColonOrSpace (chars (trim piece)))))
      (splitOn "," inner).

(** The body of the loop over [root.text().split('\n')]. The line recorded
    is [i + 1]: the [lineOffset] of the caller is not used here. *)
Definition sourceLine (filePath : string)
  (s : Symbols) (i : nat) (ln : string) : Symbols :=
  match exec false memberExport ln with
  | Some m => addTo Exports s (group m 1) filePath (i + 1)
  | None =>
      let s1 :=
        match exec false bulkExport ln with
        | Some m =>
            fold_left (fun acc name =>
                         if nonEmpty name && test false wordOnly name
                         then addTo Exports acc name filePath (i + 1)
                         else acc)
                      (bulkNames (group m 1)) s
        | None => s
        end in
      match exec false routeMatch ln with
      | Some m =>
          let method := toUpperCase (group m 1) in
          let routePath := group m 2 in
          addRoute s1 (method ++ " " ++ routePath)
            {| r_file := filePath; r_line := i + 1; r_method := method;
               r_path := routePath |}
      | None =>
          match exec false mountMatch ln with
          | Some m =>
              if startsWith (group m 1) "/api"
              then addRoute s1 ("MOUNT " ++ group m 1)
                     {| r_file := filePath; r_line := i + 1;
                        r_method := "MOUNT"; r_path := group m 1 |}
              else s1
          | None => s1
          end
      end
  end.

Definition isTS (lang : Lang) : bool :=
  match lang with
  | TypeScript | Tsx => true
  | JavaScript => false
  end.

(** [extractAstSymbols(root, filePath, lang, symbols, lineOffset = 0)] *)
Definition extractAstSymbols (root : SgNode) (filePath : string) (lang : Lang)
  (s : Symbols) (lineOffset : nat) : Symbols :=
  let named c kd acc :=
    fold_left (addNameField c filePath lineOffset) (findAll root kd) acc in
  let s := named Functions "function_declaration" s in
  let s := fold_left (fun acc node =>
                        fold_left (lexicalDeclarator filePath lineOffset)
                                  (findAll node "variable_declarator") acc)
                     (findAll root "lexical_declaration") s in
  let s := fold_left (fun acc node =>
                        fold_left (varDeclarator filePath lineOffset)
                                  (findAll node "variable_declarator") acc)
                     (findAll root "variable_declaration") s in
  let s := named Classes "class_declaration" s in
  let s := fold_left (methodDefinition filePath lineOffset)
                     (findAll root "method_definition") s in
  let s := if isTS lang
           then named Classes "enum_declaration"
                  (named Classes "type_alias_declaration"
                     (named Classes "interface_declaration" s))
           else s in
  let s := fold_left (exportStatement filePath lineOffset)
                     (findAll root "export_statement") s in
  forLines (sourceLine filePath) 0 (splitOn "010" (text root)) s.

(** [extractWithAst(filePath, content, lang, symbols, lineOffset = 0)]:
    a failure of the parser is caught here and the function returns; it
    never throws. *)
Definition extractWithAst (filePath content : string) (lang : Lang)
  (s : Symbols) (lineOffset : nat) : completion :=
  match parse lang content with
  | None => Returned s
  | Some root => Returned (extractAstSymbols root filePath lang s lineOffset)
  end.

(** [path.basename(p)] and [path.extname(name)] (POSIX; for a name that
    is not made of dots only). *)
Definition basename (p : string) : string :=
  last (splitOn "/" p) EmptyString.

Fixpoint lastDot (l : list ascii) (i : nat) (found : option nat) : option nat :=
  match l with
  | [] => found
  | c :: t => lastDot t (S i) (if Ascii.eqb c "." then Some i else found)
  end.

Definition extname (name : string) : string :=
  match lastDot (chars name) 0 None with
  | None | Some 0 => EmptyString
  | Some i => ofChars (skipn i (chars name))
  end.

(** Pattern [/<title[^>]*>([^<]+)<\/title>/i] *)
Definition titleRegex : regex :=
  Seqs [Lit "<title"; Star (NotCls [One ">"]); Chr ">";
        Cap 1 (Plus (NotCls [One "<"])); Lit "</title>"].

(** Pattern [/<script[^>]+src\s*=\s*QUOTE2([^QUOTE2]+)QUOTE2[^>]*>/gi],
    QUOTE2 being the class of the single and the double quote. *)
Definition quote2 : list cclass := [One dquote; One "'"].
Definition scriptRegex : regex :=
  Seqs [Lit "<script"; Plus (NotCls [One ">"]); Lit "src"; Star sp; Chr "=";
        Star sp; Cls quote2; Cap 1 (Plus (NotCls quote2)); Cls quote2;
        Star (NotCls [One ">"]); Chr ">"].

(** Pattern [/<script(?![^>]*\bsrc\b)[^>]*>([\s\S]*?)<\/script>/gi] *)
Definition inlineScriptRegex : regex :=
  Seqs [Lit "<script";
        NotAhead (Seqs [Star (NotCls [One ">"]); WordB; Lit "src"; WordB]);
        Star (NotCls [One ">"]); Chr ">";
        Cap 1 (LazyStar (Cls [Space; NonSpace])); Lit "</script>"].

(** The external script references that are kept. *)
Definition scriptSources (content : string) : list string :=
  filter (fun src => negb (startsWith src "http" || startsWith src "//"))
         (map (fun m => group m 1) (execAll true scriptRegex content)).

(** The body of the loop over the inline script blocks. The [catch] is
    written as in the source; [extractWithAst] gives it nothing to catch. *)
Definition inlineBlock (filePath content : string)
  (s : Symbols) (inlineMatch : found) : Symbols :=
  let scriptContent := group inlineMatch 1 in
  if negb (nonEmpty (trim scriptContent)) then s
  else
    let blockStart := lineOfIndex content (f_index inlineMatch) in
    match extractWithAst filePath scriptContent JavaScript s blockStart with
    | Returned s' => s'
    | Thrown s' =>
        extractWithRegex filePath (splitOn "010" scriptContent) "javascript"
          s' blockStart
    end.

(** The page entry of a markup file: [title || name]. *)
Definition pageOf (filePath content : string) : PageEntry :=
  let title := match exec true titleRegex content with
               | Some m => Some (trim (group m 1))
               | None => None
               end in
  let name := basename filePath in
  {| p_file := filePath;
     p_title := match title with
                | Some t => if nonEmpty t then t else name
                | None => name
                end;
     p_scripts := scriptSources content |}.

(** [extractHtml(filePath, content, symbols)] *)
Definition extractHtml (filePath content : string) (s : Symbols) : Symbols :=
  let s' := fold_left (inlineBlock filePath content)
                      (execAll true inlineScriptRegex content) s in
  setPages s' (assign (htmlPages s') (basename filePath)
                      (pageOf filePath content)).

End WithAst.
End Indexer.

(** ** The API route validation of symbol-check.mjs *)

Module RouteCheck.

(** Pattern [/\/:[a-zA-Z_]\w*/g] *)
Definition paramSegment : regex :=
  Seqs [Lit "/:"; Cls [Range "a" "z"; Range "A" "Z"; One "_"]; Star w].

(** Pattern [/^\d+$/] *)
Definition numeric : regex := Seqs [Bol; Plus (Cls [Digit]); Eol].

(** Pattern [/\/$/] *)
Definition trailingSlash : regex := Seq (Chr "/") Eol.

(** Pattern [/QUOTE(\/api\/[a-zA-Z0-9/_-]+)QUOTE/g] *)
Definition apiLiteral : regex :=
  Seqs [Cls quote;
        Cap 1 (Seq (Lit "/api/")
                 (Plus (Cls [Range "a" "z"; Range "A" "Z"; Range "0" "9";
                             One "/"; One "_"; One "-"])));
        Cls quote].

(** [info.path || key.split(' ').slice(1).join(' ')] *)
Definition routePathOf (key : string) (info : RouteEntry) : string :=
  if nonEmpty (r_path info) then r_path info
  else join " " (tl (splitOn " " key)).

(** [routePath.replace(/\/:[a-zA-Z_]\w*/g, '/*')] *)
Definition normalizeKnown (routePath : string) : string :=
  replaceAll false paramSegment routePath "/*".

(** The sets filled by the loop over [Object.entries(apiRoutes)]. *)
Record RouteSets : Type := mkSets {
  knownPaths : list string;
  knownNormalized : list string;
  mounts : list string
}.

Definition collectRoute (t : RouteSets) (kv : string * RouteEntry) : RouteSets :=
  let routePath := routePathOf (fst kv) (snd kv) in
  if (r_method (snd kv) =? "MOUNT")%string
  then {| knownPaths := knownPaths t; knownNormalized := knownNormalized t;
          mounts := setAdd (mounts t) routePath |}
  else {| knownPaths := setAdd (knownPaths t) routePath;
          knownNormalized :=
            setAdd (knownNormalized t) (normalizeKnown routePath);
          mounts := mounts t |}.

Definition routeSets (routes : obj RouteEntry) : RouteSets :=
  fold_left collectRoute routes
    {| knownPaths := []; knownNormalized := []; mounts := [] |}.

(** A leaf entry of the table: any entry that is not a mount. *)
Definition isLeaf (kv : string * RouteEntry) : bool :=
  negb (r_method (snd kv) =? "MOUNT")%string.

(** [kp.startsWith(mount + '/') || kp === mount] *)
Definition under (mount p : string) : bool :=
  startsWith p (mount ++ "/") || (p =? mount)%string.

(** The loop that fills [mountsWithSubRoutes]. *)
Definition mountsWithSubRoutes (t : RouteSets) : list string :=
  fold_left (fun acc mount =>
               if existsb (under mount) (knownPaths t)
               then setAdd acc mount else acc)
            (mounts t) [].

(** [segments.map(s => /^\d+$/.test(s) ? '*' : s).join('/')] *)
Definition wildcarded (apiPath : string) : string :=
  join "/" (map (fun seg => if test false numeric seg then "*" else seg)
                (splitOn "/" apiPath)).

(** [match[1].replace(/\/$/, '')] *)
Definition stripSlash (literal : string) : string :=
  replaceFirst false trailingSlash literal "".

(** The loop that sets [underOpaqueMount]. *)
Definition underOpaqueMount (t : RouteSets) (apiPath : string) : bool :=
  existsb (fun mount =>
             negb (mem mount (mountsWithSubRoutes t)) && under mount apiPath)
          (mounts t).

(** The body of the loop over the path literals: [true] when the literal
    reaches [badRoutes.push]. *)
Definition isBadRoute (t : RouteSets) (literal : string) : bool :=
  let apiPath := stripSlash literal in
  if mem apiPath (knownPaths t) then false
  else if mem (wildcarded apiPath) (knownNormalized t) then false
  else if existsb (fun kp => startsWith kp (apiPath ++ "/")) (knownPaths t)
  then false
  else if underOpaqueMount t apiPath then false
  else true.

(** The route check for a list of path literals: [badRoutes]. *)
Definition badRoutes (routes : obj RouteEntry) (literals : list string)
  : list string :=
  if 0 <? List.length (keys routes)
  then filter (isBadRoute (routeSets routes)) literals
  else [].

(** The literals of the scanned text: [match[1]] of every match. *)
Definition apiLiterals (scanContent : string) : list string :=
  map (fun m => group m 1) (execAll false apiLiteral scanContent).

Definition checkRoutes (routes : obj RouteEntry) (scanContent : string)
  : list string :=
  badRoutes routes (apiLiterals scanContent).

End RouteCheck.

(** ** The symbol check of symbol-check.mjs *)

Module SymbolCheck.

(** [.]: any character but a line terminator. *)
Definition dot : regex := NotCls [One "010"; One "013"].

(** [$] under the [m] flag: at the end of the text or before a line
    terminator, that is, not before a character [.] matches. *)
Definition eolM : regex := NotAhead dot.

(** Pattern [/\/\*[\s\S]*?\*\//g] *)
Definition blockComment : regex :=
  Seqs [Lit "/*"; LazyStar (Cls [Space; NonSpace]); Lit "*/"].

(** Pattern [/\/\/.*$/gm] *)
Definition lineComment : regex := Seqs [Lit "//"; Star dot; eolM].

(** Pattern [/Q(?:[^Q\\]|\\.)*Q/g] for a quote character Q: a template
    literal, a double-quoted or a single-quoted string. *)
Definition quoted (q : ascii) : regex :=
  Seqs [Chr q;
        Star (Alt (NotCls [One q; One "\"]) (Seq (Chr "\") dot));
        Chr q].

(** The replacement texts: two double quotes, two single quotes. *)
Definition twoDouble : string := String dquote (String dquote EmptyString).
Definition twoSingle : string := "''".

(** [stripCommentsAndStrings(code)] *)
Definition stripCommentsAndStrings (code : string) : string :=
  let code := replaceAll false blockComment code "" in
  let code := replaceAll false lineComment code "" in
  let code := replaceAll false (quoted "`") code twoDouble in
  let code := replaceAll false (quoted dquote) code twoDouble in
  replaceAll false (quoted "'") code twoSingle.

(** [known]: the keys of every category of the registry but [_meta]. *)
Definition knownSymbols (reg : registry) : list string :=
  allNames (filter (fun cat => negb (fst cat =? "_meta")%string) reg).

(** Pattern [/^[A-Z_]+$/] *)
Definition constantName : regex :=
  Seqs [Bol; Plus (Cls [Range "A" "Z"; One "_"]); Eol].

(** Pattern [(?:function|const|let|var|class)\s+NAME\b], built from the
    name. The names of [referenced] are identifiers (the patterns that
    collect them admit nothing else), so the name stands for itself in
    the pattern. *)
Definition localDef (name : string) : regex :=
  Seqs [Alts [Lit "function"; Lit "const"; Lit "let"; Lit "var"; Lit "class"];
        Plus sp; Lit name; WordB].

(** Pattern [(?:function\s+\w*|=>)\s*\([^)]*\bNAME\b[^)]*\)] *)
Definition paramInFunc (name : string) : regex :=
  Seqs [Alt (Seqs [Lit "function"; Plus sp; Star w]) (Lit "=>");
        Star sp; Chr "("; Star (NotCls [One ")"]); WordB; Lit name; WordB;
        Star (NotCls [One ")"]); Chr ")"].

Definition alnum : list cclass :=
  [Range "a" "z"; Range "A" "Z"; Range "0" "9"].

(** Pattern [/^[a-z][a-zA-Z0-9]+$/] *)
Definition camelCase : regex :=
  Seqs [Bol; Cls [Range "a" "z"]; Plus (Cls alnum); Eol].

(** Pattern [/^[A-Z][a-z][a-zA-Z0-9]+$/] *)
Definition pascalCase : regex :=
  Seqs [Bol; Cls [Range "A" "Z"]; Cls [Range "a" "z"]; Plus (Cls alnum); Eol].

(** The body of the loop over [referenced]: [true] when the name reaches
    [unknowns.push]. [content] is the text of the whole file. *)
Definition reported (content : string) (known : list string) (name : string)
  : bool :=
  if String.length name <=? 2 then false
  else if test false constantName name then false
  else if test false (localDef name) content then false
  else if test false (paramInFunc name) (stripCommentsAndStrings content)
  then false
  else negb (mem name known) &&
       (test false camelCase name || test false pascalCase name).

(** [unknowns], for the names of [referenced] in insertion order. *)
Definition unknowns (referenced : list string) (content : string)
  (known : list string) : list string :=
  filter (reported content known) referenced.

End SymbolCheck.

(** ** The directory walker and scanProject *)

(** [a.localeCompare(b)] depends on the locale of the host: its sign is a
    parameter of the walker. *)
Class Collation : Type := {
  localeCompare : string -> string -> Z
}.

Module Walker.
Import Indexer.

(** [fs.statSync(p)]: the size in bytes and the modification time in ISO
    format ([stat.mtime.toISOString()]). *)
Record Stat : Type := mkStat {
  st_size : N;
  st_mtime : string
}.

(** A directory entry with what the file system answers for it. [None]
    stands for a call that throws: [statSync] and [readFileSync] for a
    file, [readdirSync] for a directory. An entry that is not a directory
    (a link, a socket) is a file for [entry.isDirectory()]. *)
#[warnings="-register-all"]
Inductive Dirent : Type :=
| FileEnt (name : string) (stat : option Stat) (content : option string)
| DirEnt (name : string) (entries : option (list Dirent)).

Definition entryName (e : Dirent) : string :=
  match e with
  | FileEnt name _ _ => name
  | DirEnt name _ => name
  end.

Definition isDirectory (e : Dirent) : bool :=
  match e with
  | FileEnt _ _ _ => false
  | DirEnt _ _ => true
  end.

(** [{ path, lang, lines, size, modified }] *)
Record ScannedFile : Type := mkFile {
  sf_path : string;
  sf_lang : string;
  sf_lines : nat;
  sf_size : N;
  sf_modified : string
}.

(** The two accumulators threaded through the walk. *)
Record State : Type := mkState {
  files : list ScannedFile;
  symbols : Symbols
}.

Definition SKIP_DIRS : list string :=
  [ "node_modules"; ".git"; ".wisdom"; ".claude"; "dist"; "build";
    "coverage"; ".next"; "__pycache__"; ".tox"; ".venv"; "venv";
    "vendor"; "target"; ".cache"; ".turbo"; ".github";
    "archive"; "backups"; "backup"; "logs"; "tmp";
    "uploads"; "media"; "data"; "migrations";
    "content"; "Website"; "public"; "static"; "assets" ].

Record LangInfo : Type := mkLang {
  li_lang : option Lang;
  li_name : string
}.

(** [LANG_MAP[ext]] *)
Definition LANG_MAP (ext : string) : option LangInfo :=
  if (ext =? ".js")%string || (ext =? ".mjs")%string ||
     (ext =? ".cjs")%string || (ext =? ".jsx")%string
  then Some {| li_lang := Some JavaScript; li_name := "javascript" |}
  else if (ext =? ".ts")%string
  then Some {| li_lang := Some TypeScript; li_name := "typescript" |}
  else if (ext =? ".tsx")%string
  then Some {| li_lang := Some Tsx; li_name := "typescript" |}
  else if (ext =? ".py")%string
  then Some {| li_lang := None; li_name := "python" |}
  else if (ext =? ".go")%string
  then Some {| li_lang := None; li_name := "go" |}
  else if (ext =? ".rs")%string
  then Some {| li_lang := None; li_name := "rust" |}
  else if (ext =? ".html")%string
  then Some {| li_lang := None; li_name := "html" |}
  else None.

(** Pattern [/^([a-zA-Z0-9_-]+)\/?$/] *)
Definition dirPattern : regex :=
  Seqs [Bol;
        Cap 1 (Plus (Cls [Range "a" "z"; Range "A" "Z"; Range "0" "9";
                          One "_"; One "-"]));
        Opt (Chr "/"); Eol].

(** The body of the loop of [readGitignoreDirs]. *)
Definition gitignoreLine (dirs : list string) (ln : string) : list string :=
  let trimmed := trim ln in
  if negb (nonEmpty trimmed) || startsWith trimmed "#" then dirs
  else match exec false dirPattern trimmed with
       | Some m => setAdd dirs (group m 1)
       | None => dirs
       end.

Fixpoint findFile (name : string) (es : list Dirent) : option string :=
  match es with
  | [] => None
  | FileEnt n _ content :: rest =>
      if (n =? name)%string then content else findFile name rest
  | DirEnt n _ :: rest =>
      if (n =? name)%string then None else findFile name rest
  end.

(** [readGitignoreDirs(projectRoot)]: no directory names when the file is
    missing or unreadable. *)
Definition readGitignoreDirs (root : option (list Dirent)) : list string :=
  match root with
  | None => []
  | Some es =>
      match findFile ".gitignore" es with
      | Some content => fold_left gitignoreLine (splitOn "010" content) []
      | None => []
      end
  end.

(** [path.join(dir, name)] relative to the project root, whose own
    relative path is empty. *)
Definition joinPath (rel name : string) : string :=
  if nonEmpty rel then (rel ++ "/" ++ name)%string else name.

(** [5 * 1024 * 1024] for markup, [500 * 1024] otherwise. *)
Definition sizeLimit (li : LangInfo) : N :=
  if (li_name li =? "html")%string then 5242880%N else 512000%N.

(** [files.length >= maxFiles] *)
Definition full (st : State) (maxFiles : Z) : bool :=
  (maxFiles <=? Z.of_nat (List.length (files st)))%Z.

Section WithHost.
Context {ast : AstService} {coll : Collation}.

(** [entries.sort((a, b) => a.name.localeCompare(b.name))], as a stable
    insertion sort. *)
Fixpoint insertEntry (e : Dirent) (sorted : list Dirent) : list Dirent :=
  match sorted with
  | [] => [e]
  | x :: rest =>
      if (localeCompare (entryName e) (entryName x) <=? 0)%Z
      then e :: sorted
      else x :: insertEntry e rest
  end.

Definition sortEntries (es : list Dirent) : list Dirent :=
  fold_right insertEntry [] es.

(** The dispatch at the end of the [try] block of [walkDir]. *)
Definition extractFile (relPath : string) (li : LangInfo)
  (content : string) (lines : list string) (s : Symbols) : Symbols :=
  if (li_name li =? "html")%string
  then extractHtml relPath content s
  else match li_lang li with
       | Some lang =>
           match extractWithAst relPath content lang s 0 with
           | Returned s' => s'
           | Thrown s' => s'
           end
       | None => extractWithRegex relPath lines (li_name li) s 0
       end.

(** The [try] block of [walkDir] for one file; every exception in it is
    caught and the walk goes on. *)
Definition scanFile (relPath : string) (li : LangInfo)
  (stat : option Stat) (content : option string) (st : State) : State :=
  match stat with
  | None => st
  | Some sta =>
      if (sizeLimit li <? st_size sta)%N then st
      else
        match content with
        | None => st
        | Some text =>
            let lines := splitOn "010" text in
            let pushed :=
              files st ++
              [{| sf_path := relPath; sf_lang := li_name li;
                  sf_lines := List.length lines; sf_size := st_size sta;
                  sf_modified := hd EmptyString (splitOn "T" (st_mtime sta)) |}] in
            {| files := pushed;
               symbols := extractFile relPath li text lines (symbols st) |}
        end
  end.

(** The tests that make the loop of [walkDir] skip an entry. *)
Definition skipped (extraSkip : list string) (e : Dirent) : bool :=
  let name := entryName e in
  (startsWith name "." && negb (name =? ".env.example")%string)
  || mem name SKIP_DIRS
  || mem name extraSkip
  || (isDirectory e &&
      (existsb (Ascii.eqb " ") (chars name) || test true (Lit "backup") name)).

(** The loop of [walkDir] over the sorted entries of the directory at
    [rel]; [recurse] is the call of [walkDir] on a sub-directory. *)
Fixpoint walkEntries (recurse : string -> option (list Dirent) -> State -> State)
  (rel : string) (maxFiles : Z) (extraSkip : list string)
  (es : list Dirent) (st : State) {struct es} : State :=
  match es with
  | [] => st
  | e :: rest =>
      if full st maxFiles then st
      else if skipped extraSkip e
      then walkEntries recurse rel maxFiles extraSkip rest st
      else
        match e with
        | DirEnt name sub =>
            walkEntries recurse rel maxFiles extraSkip rest
              (recurse (joinPath rel name) sub st)
        | FileEnt name stat content =>
            match LANG_MAP (extname name) with
            | None => walkEntries recurse rel maxFiles extraSkip rest st
            | Some li =>
                walkEntries recurse rel maxFiles extraSkip rest
                  (scanFile (joinPath rel name) li stat content st)
            end
        end
  end.

(** [walkDir(dir, projectRoot, files, symbols, depth, maxDepth, maxFiles,
    extraSkip)]. [rel] is the path of [dir] relative to the project root
    and [entries] what [readdirSync] answers for it. The recursion follows
    the directory tree; [fuel] bounds its nesting. *)
Fixpoint walkDir (fuel : nat) (rel : string) (entries : option (list Dirent))
  (st : State) (depth maxDepth maxFiles : Z) (extraSkip : list string)
  {struct fuel} : State :=
  match fuel with
  | 0 => st
  | S fuel' =>
      if (maxDepth <? depth)%Z || full st maxFiles then st
      else
        match entries with
        | None => st
        | Some es =>
            walkEntries
              (fun rel' sub st' =>
                 walkDir fuel' rel' sub st' (depth + 1) maxDepth maxFiles
                   extraSkip)
              rel maxFiles extraSkip (sortEntries es) st
        end
  end.

(** The nesting of directories below an entry. *)
Fixpoint nesting (e : Dirent) : nat :=
  match e with
  | FileEnt _ _ _ => 0
  | DirEnt _ None => 1
  | DirEnt _ (Some es) => S (list_max (map nesting es))
  end.

(** [{ maxDepth, maxFiles }]; the numbers are taken to be integers. *)
Record Options : Type := mkOptions {
  opt_maxDepth : option Z;
  opt_maxFiles : option Z
}.

(** [value || fallback]: an absent option and the number 0 are falsy. *)
Definition orDefault (value : option Z) (fallback : Z) : Z :=
  match value with
  | Some z => if (z =? 0)%Z then fallback else z
  | None => fallback
  end.

(** [scanProject(projectRoot, options = {})]; [root] is the listing of
    the project root. *)
Definition scanProject (root : option (list Dirent)) (options : Options)
  : State :=
  let maxDepth := orDefault (opt_maxDepth options) 8 in
  let maxFiles := orDefault (opt_maxFiles options) 2000 in
  let extraSkip := readGitignoreDirs root in
  walkDir (nesting (DirEnt EmptyString root)) EmptyString root
    {| files := []; symbols := emptySymbols |} 0 maxDepth maxFiles extraSkip.

End WithHost.

(** The tree without what lies in directories nested deeper than
    [maxDepth]: such a directory is replaced by an empty one. [depth] is
    the depth of the directory the entry is in, the project root being at
    depth 0. *)
Fixpoint pruneEnt (maxDepth depth : Z) (e : Dirent) : Dirent :=
  match e with
  | FileEnt _ _ _ => e
  | DirEnt name sub =>
      DirEnt name
        (if (maxDepth <? depth + 1)%Z then Some []
         else match sub with
              | Some es => Some (map (pruneEnt maxDepth (depth + 1)) es)
              | None => None
              end)
  end.

(** The same for the listing of a directory at [depth]. *)
Definition pruneListing (maxDepth depth : Z) (entries : option (list Dirent))
  : option (list Dirent) :=
  if (maxDepth <? depth)%Z then Some []
  else match entries with
       | Some es => Some (map (pruneEnt maxDepth depth) es)
       | None => None
       end.

End Walker.

(** ** The language breakdown of reindex_project *)

(** A value of the [langCounts] object of [handleReindexProject]: a
    number, or the text that the sum [value + 1] gives when the value
    read is no number (a member of [Object.prototype], or such a text). *)
Inductive Tally : Type :=
| Number (n : nat)
| Garbled.

(** [(langCounts[lang] || 0) + 1] *)
Definition tallyNext (s : slot Tally) : Tally :=
  match s with
  | Own (Number n) => Number (n + 1)
  | Own Garbled => Garbled
  | Inherited => Garbled
  | Absent => Number 1
  end.

(** The body of the loop: [langCounts[f.lang] = (langCounts[f.lang] || 0) + 1] *)
Definition countLang (langCounts : obj Tally) (f : Walker.ScannedFile)
  : obj Tally :=
  assign langCounts (Walker.sf_lang f)
         (tallyNext (read langCounts (Walker.sf_lang f))).

(** The loop over [result.files], from the empty object. *)
Definition langCounts (files : list Walker.ScannedFile) : obj Tally :=
  fold_left countLang files [].

(** ** A small host, for the examples

    A syntax-tree service that knows one construct, a function declaration
    at the start of a line. It accepts every text, and the text of its
    root starts at the first token of the content, the lines of its nodes
    being counted in the content. And the ordering of strings by code
    unit. *)

Module Toy.

#[warnings="-register-all"]
Inductive node : Type :=
| Node (nkind ntext : string) (nline : nat)
       (kids : list (option string * node)).

Definition nkindOf (n : node) : string :=
  match n with Node k _ _ _ => k end.
Definition ntextOf (n : node) : string :=
  match n with Node _ t _ _ => t end.
Definition nlineOf (n : node) : nat :=
  match n with Node _ _ l _ => l end.
Definition kidsOf (n : node) : list (option string * node) :=
  match n with Node _ _ _ ks => ks end.

(** The node and its descendants of a kind, in document order. *)
Fixpoint descend (k : string) (n : node) : list node :=
  match n with
  | Node nk _ _ ks =>
      (if (nk =? k)%string then [n] else []) ++
      flat_map (fun kid => descend k (snd kid)) ks
  end.

Fixpoint firstField (name : string) (ks : list (option string * node))
  : option node :=
  match ks with
  | [] => None
  | (Some f, n) :: rest =>
      if (f =? name)%string then Some n else firstField name rest
  | (None, _) :: rest => firstField name rest
  end.

(** Pattern [/^function\s+([a-zA-Z_$]\w* )/] *)
Definition functionLine : regex :=
  Seqs [Bol; Lit "function"; Plus sp; Cap 1 jsIdent].

Fixpoint declarations (i : nat) (lines : list string)
  : list (option string * node) :=
  match lines with
  | [] => []
  | l :: rest =>
      match exec false functionLine l with
      | Some m =>
          (None, Node "function_declaration" l i
                   [(Some "name", Node "identifier" (group m 1) i [])])
          :: declarations (S i) rest
      | None => declarations (S i) rest
      end
  end.

(** The content from its first token on. *)
Definition fromFirstToken (content : string) : string :=
  ofChars (dropSpaces (chars content)).

Definition parseText (lang : Lang) (content : string) : option node :=
  Some (Node "program" (fromFirstToken content) 0
          (declarations 0 (splitOn "010" content))).

#[export] Instance service : AstService := {
  SgNode := node;
  parse := parseText;
  findAll := fun n k => descend k n;
  field := fun n name => firstField name (kidsOf n);
  kind := nkindOf;
  text := ntextOf;
  startLine := nlineOf
}.

#[export] Instance byCodeUnit : Collation := {
  localeCompare := fun a b =>
    match String.compare a b with
    | Lt => (-1)%Z
    | Eq => 0%Z
    | Gt => 1%Z
    end
}.

End Toy.

(** ** Notions used by the statements *)

(** The entry [e] after [n] further sightings. *)
Definition seenAgain (n : nat) (e : SymbolEntry) : SymbolEntry :=
  {| file := file e; line := line e; usages := usages e + n |}.

(** The Levenshtein distance by its defining recurrence, written from its
    textbook statement and not from the code: [levAt a b i j] is the
    distance between the first [i] characters of [b] and the first [j]
    characters of [a]. *)
Fixpoint levAt (a b : list ascii) (i : nat) {struct i} : nat -> nat :=
  match i with
  | 0 => fun j => j
  | S i' =>
      fix row (j : nat) {struct j} : nat :=
        match j with
        | 0 => S i'
        | S j' =>
            if Ascii.eqb (nth i' b zero) (nth j' a zero)
            then levAt a b i' j'
            else 1 + min3 (levAt a b i' j') (row j') (levAt a b i' (S j'))
        end
  end.

Definition editDistance (a b : string) : nat :=
  levAt (chars a) (chars b) (String.length b) (String.length a).

(** What the loop state of [findFuzzyMatch] says about the candidates
    seen so far, [all] being the names the candidates come from. *)
Definition fuzzyInv (query : string) (all : list string) (st : fuzzyState)
  : Prop :=
  match st with
  | (None, None) => True
  | (Some n, Some d) =>
      In n all /\ withinGate query n = true /\
      d = levenshtein (toLowerCase query) (toLowerCase n) /\
      d <= maxDistanceOf query
  | _ => False
  end.

(** A text without its final slash, if it has one; and whether a text
    ends with a slash. *)
Fixpoint dropFinalSlash (s : string) : string :=
  match s with
  | EmptyString => EmptyString
  | String c EmptyString =>
      if Ascii.eqb c "/" then EmptyString else s
  | String c t => String c (dropFinalSlash t)
  end.

Fixpoint endsWithSlash (s : string) : bool :=
  match s with
  | EmptyString => false
  | String c EmptyString => Ascii.eqb c "/"
  | String _ t => endsWithSlash t
  end.

(** A scanned file as [walkDir] hands it to the extractors, and the
    extraction of a sequence of files in scan order. *)
Record Source : Type := mkSource {
  src_path : string;
  src_info : Walker.LangInfo;
  src_text : string
}.

Definition isMarkup (f : Source) : bool :=
  (Walker.li_name (src_info f) =? "html")%string.

(** The language information is the one [LANG_MAP] gives for the
    extension of the file's base name. *)
Definition dispatched (f : Source) : Prop :=
  Walker.LANG_MAP (Indexer.extname (Indexer.basename (src_path f)))
  = Some (src_info f).

Definition extractSource {ast : AstService} (s : Symbols) (f : Source)
  : Symbols :=
  Walker.extractFile (src_path f) (src_info f) (src_text f)
    (splitOn "010" (src_text f)) s.

Definition extractAll {ast : AstService} (sources : list Source)
  (s : Symbols) : Symbols :=
  fold_left extractSource sources s.

(** The state of a walk respects the file limit. *)
Definition withinLimit (maxFiles : Z) (st : Walker.State) : Prop :=
  List.length (Walker.files st) <= Z.to_nat maxFiles.

(** A pattern without capturing groups. *)
Fixpoint capFree (r : Regex.regex) : bool :=
  match r with
  | Regex.Seq r1 r2 | Regex.Alt r1 r2 => capFree r1 && capFree r2
  | Regex.Star r1 | Regex.LazyStar r1 | Regex.NotAhead r1 => capFree r1
  | Regex.Cap _ _ => false
  | _ => true
  end.

(** A successful match hands over to its continuation [k]: at a position
    not before [x], and with the captures [cs] it was given when [free]. *)
Definition handsOver (free : bool) (x : Regex.cursor) (cs : Regex.captures)
  (k : Regex.cursor -> Regex.captures -> Regex.outcome)
  (res : Regex.cursor * Regex.captures) : Prop :=
  exists y cs', k y cs' = Some res /\ Regex.index x <= Regex.index y /\
                (free = true -> cs' = cs).

(** The name is present in a category. *)
Definition present (c : Cat) (s : Symbols) (name : string) : Prop :=
  exists e, own (getCat c s) name = Some e.

(** The distance [findFuzzyMatch] computes for a candidate. *)
Definition fuzzyDistance (query name : string) : nat :=
  levenshtein (toLowerCase query) (toLowerCase name).

(** What the loop state of [findFuzzyMatch] says once the names [seen]
    have been visited: without a best match every name seen is farther
    than the limit; with one, the names seen before it are farther than
    it and those seen after it are not closer. *)
Definition fuzzyBest (query : string) (seen : list string) (st : fuzzyState)
  : Prop :=
  match st with
  | (None, None) =>
      forall n, In n seen -> maxDistanceOf query < fuzzyDistance query n
  | (Some b, Some d) =>
      d = fuzzyDistance query b /\ d <= maxDistanceOf query /\
      exists pre post, seen = pre ++ b :: post /\
        (forall n, In n pre -> d < fuzzyDistance query n) /\
        (forall n, In n post -> d <= fuzzyDistance query n)
  | _ => False
  end.

(** The three cases of the loop body of [checkSymbols]. *)
Definition inRegistry (reg : registry) (name : string) : bool :=
  mem name (allNames reg).

Definition hasSuggestion (reg : registry) (name : string) : bool :=
  negb (inRegistry reg name) &&
  match findFuzzyMatch name (allNames reg) with
  | Some _ => true
  | None => false
  end.

Definition hasNoSuggestion (reg : registry) (name : string) : bool :=
  negb (inRegistry reg name) &&
  match findFuzzyMatch name (allNames reg) with
  | Some _ => false
  | None => true
  end.

(** What a successful match consumed. [Matches ci r x cs y cs']: the pattern [r] can match the text between
    the positions [x] and [y], taking the captures from [cs] to [cs']. *)
Inductive Matches (ci : bool)
  : regex -> cursor -> captures -> cursor -> captures -> Prop :=
| M_Eps x cs : Matches ci Eps x cs x cs
| M_Chr c x cs d y :
    step x = Some (d, y) -> sameChar ci d c = true ->
    Matches ci (Chr c) x cs y cs
| M_Cls items x cs d y :
    step x = Some (d, y) -> inClass ci items d = true ->
    Matches ci (Cls items) x cs y cs
| M_NotCls items x cs d y :
    step x = Some (d, y) -> inClass ci items d = false ->
    Matches ci (NotCls items) x cs y cs
| M_Seq r1 r2 x cs y cs1 z cs2 :
    Matches ci r1 x cs y cs1 -> Matches ci r2 y cs1 z cs2 ->
    Matches ci (Seq r1 r2) x cs z cs2
| M_AltL r1 r2 x cs y cs1 :
    Matches ci r1 x cs y cs1 -> Matches ci (Alt r1 r2) x cs y cs1
| M_AltR r1 r2 x cs y cs1 :
    Matches ci r2 x cs y cs1 -> Matches ci (Alt r1 r2) x cs y cs1
| M_StarNil r x cs : Matches ci (Star r) x cs x cs
| M_StarCons r x cs y cs1 z cs2 :
    Matches ci r x cs y cs1 -> index x < index y ->
    Matches ci (Star r) y cs1 z cs2 ->
    Matches ci (Star r) x cs z cs2
| M_LazyNil r x cs : Matches ci (LazyStar r) x cs x cs
| M_LazyCons r x cs y cs1 z cs2 :
    Matches ci r x cs y cs1 -> index x < index y ->
    Matches ci (LazyStar r) y cs1 z cs2 ->
    Matches ci (LazyStar r) x cs z cs2
| M_Cap n r x cs y cs1 :
    Matches ci r x cs y cs1 ->
    Matches ci (Cap n r) x cs y
      ((n, firstn (index y - index x) (after x)) :: cs1)
| M_Bol x cs : index x = 0 -> Matches ci Bol x cs x cs
| M_Eol x cs : after x = [] -> Matches ci Eol x cs x cs
| M_WordB x cs :
    xorb (wordBefore x) (wordAfter x) = true -> Matches ci WordB x cs x cs
| M_NotAhead r x cs :
    run ci r x cs (fun y cs' => Some (y, cs')) = None ->
    Matches ci (NotAhead r) x cs x cs.

(** The text between the two ends of a match. *)
Definition spans (x y : cursor) (l : list ascii) : Prop :=
  after x = l ++ after y /\ index y = index x + List.length l.

(** The verbs of the route pattern, upper-cased. *)
Definition verbs : list string := ["GET"; "POST"; "PUT"; "DELETE"; "PATCH"].

(** The shape of an entry written to [apiRoutes] for the file
    [filePath]. *)
Definition routeShape (filePath key : string) (e : RouteEntry) : Prop :=
  r_file e = filePath /\ 1 <= r_line e /\
  key = (r_method e ++ " " ++ r_path e)%string /\
  nonEmpty (r_path e) = true /\
  (In (r_method e) verbs \/
   (r_method e = "MOUNT" /\ startsWith (r_path e) "/api" = true)).

(** Entries already recorded keep their location and only gain usages;
    routes already recorded stay as they are. *)
Definition keepsFirst (s s' : Symbols) : Prop :=
  (forall c name e, own (getCat c s) name = Some e ->
     exists n, own (getCat c s') name = Some (seenAgain n e)) /\
  (forall key r, own (apiRoutes s) key = Some r ->
     own (apiRoutes s') key = Some r).

(** What the extraction of the file [filePath] may add: every entry of
    [s'] was in [s] with the same location, or is located in [filePath]. *)
Definition addsOnlyFor (filePath : string) (s s' : Symbols) : Prop :=
  (forall c name e, own (getCat c s') name = Some e ->
     (exists e0, own (getCat c s) name = Some e0 /\
                 file e0 = file e /\ line e0 = line e) \/
     (file e = filePath /\ 1 <= line e)) /\
  (forall key r, own (apiRoutes s') key = Some r ->
     own (apiRoutes s) key = Some r \/ routeShape filePath key r) /\
  (forall name p, own (htmlPages s') name = Some p ->
     own (htmlPages s) name = Some p \/
     (p_file p = filePath /\ name = Indexer.basename filePath)).

(** A later state of a walk: the files list was extended at its end and
    the symbols kept their first locations. *)
Definition laterState (st st' : Walker.State) : Prop :=
  (exists more, Walker.files st' = Walker.files st ++ more) /\
  keepsFirst (Walker.symbols st) (Walker.symbols st').

(** The path is that of a file of the files list. *)
Definition scanned (st : Walker.State) (p : string) : Prop :=
  exists f, In f (Walker.files st) /\ Walker.sf_path f = p.

(** Every entry of the registry is located in a file of the files list. *)
Definition pointsToScanned (st : Walker.State) : Prop :=
  (forall c name e, own (getCat c (Walker.symbols st)) name = Some e ->
     scanned st (file e) /\ 1 <= line e) /\
  (forall key r, own (apiRoutes (Walker.symbols st)) key = Some r ->
     scanned st (r_file r) /\ routeShape (r_file r) key r) /\
  (forall name p, own (htmlPages (Walker.symbols st)) name = Some p ->
     scanned st (p_file p) /\ name = Indexer.basename (p_file p)).

(** The record [walkDir] pushes for a file. *)
Definition fileRecord (relPath : string) (li : Walker.LangInfo)
  (sta : Walker.Stat) (text : string) : Walker.ScannedFile :=
  {| Walker.sf_path := relPath;
     Walker.sf_lang := Walker.li_name li;
     Walker.sf_lines := List.length (splitOn "010" text);
     Walker.sf_size := Walker.st_size sta;
     Walker.sf_modified := hd EmptyString (splitOn "T" (Walker.st_mtime sta)) |}.

(** [listed extraSkip rel es f]: the record [f] is that of a file found
    in the listing [es] of the directory at [rel] or below it, through
    directories that can be read and entries that are not skipped; the
    file has a known extension, its size is known and within the limit of
    its language, and its text can be read. *)
Inductive listed (extraSkip : list string)
  : string -> list Walker.Dirent -> Walker.ScannedFile -> Prop :=
| listed_here rel es name sta text li :
    In (Walker.FileEnt name (Some sta) (Some text)) es ->
    Walker.skipped extraSkip (Walker.FileEnt name (Some sta) (Some text))
      = false ->
    Walker.LANG_MAP (Indexer.extname name) = Some li ->
    (Walker.st_size sta <= Walker.sizeLimit li)%N ->
    listed extraSkip rel es
      (fileRecord (Walker.joinPath rel name) li sta text)
| listed_below rel es name sub f :
    In (Walker.DirEnt name (Some sub)) es ->
    Walker.skipped extraSkip (Walker.DirEnt name (Some sub)) = false ->
    listed extraSkip (Walker.joinPath rel name) sub f ->
    listed extraSkip rel es f.

(** What the loop of [walkDir] does with an entry it does not skip. *)
Definition visit {ast : AstService}
  (recurse : string -> option (list Walker.Dirent) -> Walker.State ->
             Walker.State)
  (rel : string) (e : Walker.Dirent) (st : Walker.State) : Walker.State :=
  match e with
  | Walker.DirEnt name sub => recurse (Walker.joinPath rel name) sub st
  | Walker.FileEnt name stat content =>
      match Walker.LANG_MAP (Indexer.extname name) with
      | Some li =>
          Walker.scanFile (Walker.joinPath rel name) li stat content st
      | None => st
      end
  end.

(** The characters of a path literal after [/api/]. *)
Definition pathChar : list cclass :=
  [Range "a" "z"; Range "A" "Z"; Range "0" "9"; One "/"; One "_"; One "-"].

(** The characters of a directory entry of [.gitignore] that is taken
    into account. *)
Definition dirChar : list cclass :=
  [Range "a" "z"; Range "A" "Z"; Range "0" "9"; One "_"; One "-"].

(** A name made of such characters, at least one. *)
Definition isDirName (d : string) : bool :=
  nonEmpty d && forallb (inClass false dirChar) (chars d).

(** The position reached from [x] once the characters [l] are read. *)
Fixpoint walkOver (x : cursor) (l : list ascii) : cursor :=
  match l with
  | [] => x
  | c :: t =>
      walkOver {| before := Some c; after := tl (after x);
                  index := S (index x) |} t
  end.

(** The names of the languages of [LANG_MAP]. *)
Definition languages : list string :=
  ["javascript"; "typescript"; "python"; "go"; "rust"; "html"].

(** How many files of the list have the language [lang]. *)
Definition filesIn (lang : string) (files : list Walker.ScannedFile) : nat :=
  List.length (filter (fun f => String.eqb (Walker.sf_lang f) lang) files).

(** The sum of the numbers of a tally object. *)
Definition tallyTotal (o : obj Tally) : nat :=
  fold_right (fun kv acc => match snd kv with
                            | Number n => n + acc
                            | Garbled => acc
                            end) 0 o.

(** An object whose values are all numbers. *)
Definition allNumbers (o : obj Tally) : Prop :=
  forall k v, In (k, v) o -> exists n, v = Number n.

(** The first character of what is left of the text is not in the
    class, or nothing is left. *)
Definition stopsAt (ci : bool) (items : list cclass) (rest : list ascii)
  : Prop :=
  match rest with
  | [] => True
  | c :: _ => inClass ci items c = false
  end.

(** The continuation [k], started with the captures [cs] at a position
    where [rest] is left of the text, succeeds with the captures
    [caps]. *)
Definition leads (k : cursor -> captures -> outcome) (rest : list ascii)
  (cs caps : captures) : Prop :=
  forall y, after y = rest -> exists z, k y cs = Some (z, caps).

(** A text of white space, possibly empty ([\s*]); one that is not empty
    ([\s+]); a word ([\w+]). *)
Definition isSpaces (s : string) : bool := forallb isSpace (chars s).
Definition isGap (s : string) : bool := nonEmpty s && isSpaces s.
Definition isWordText (s : string) : bool :=
  nonEmpty s && forallb isWord (chars s).

(** A text that does not go on with a word character. *)
Definition endsWord (rest : string) : bool :=
  match chars rest with
  | [] => true
  | c :: _ => negb (isWord c)
  end.

(** An optional keyword with the white space after it: [(?:kw\s+)?]. *)
Definition optionalKeyword (kw part : string) : Prop :=
  part = "" \/ exists gap, isGap gap = true /\ part = (kw ++ gap)%string.

(** The optional receiver of a Go declaration with the white space
    after it: [(?:\(\w+\s+\*?\w+\)\s+)?]. *)
Definition optionalReceiver (part : string) : Prop :=
  part = "" \/
  exists recv gap star typ tail,
    isWordText recv = true /\ isGap gap = true /\
    (star = "" \/ star = "*") /\ isWordText typ = true /\
    isGap tail = true /\
    part = ("(" ++ recv ++ gap ++ star ++ typ ++ ")" ++ tail)%string.

(** The part of the pattern of [extractGo] for the receiver of a
    method. *)
Definition receiverPattern : regex :=
  Seqs [Chr "("; Plus w; Plus sp; Opt (Chr "*"); Plus w; Chr ")"; Plus sp].

(** The kinds of node [extractAstSymbols] asks the root for. *)
Definition queriedKinds : list string :=
  ["function_declaration"; "lexical_declaration"; "variable_declaration";
   "class_declaration"; "method_definition"; "interface_declaration";
   "type_alias_declaration"; "enum_declaration"; "export_statement"].

(** ** Tables and texts used in the examples *)

(** A route table with the single leaf route [GET /api/users/:id]. *)
Definition usersTable : obj RouteEntry :=
  [("GET /api/users/:id",
    mkRoute "routes/users.js" 7 "GET" "/api/users/:id")].



(** The users route and the profile route below it. *)
Definition profileTable : obj RouteEntry :=
  usersTable ++
  [("GET /api/users/:id/profile",
    mkRoute "routes/users.js" 12 "GET" "/api/users/:id/profile")].

(** A registry with one known function. *)
Definition apiRegistry : registry :=
  [("functions", [("getUser", SymbolOf (mkEntry "src/api.js" 4 2))])].

(** The line feed, and a text made of lines. *)
Definition lf : string := String "010" EmptyString.
Definition textOf (lines : list string) : string := join lf lines.

(** A page with one inline script block that starts on line 3. *)
Definition adminPage : string :=
  textOf [ "<html>";
           "<body>";
           "<script>";
           "function hello() {}";
           "exports.greet = hello;";
           "app.get('/api/ping', hello);";
           "</script>";
           "</body></html>" ].

(** A page whose inline script holds server-side template syntax outside
    any string: its text is not a JavaScript program. *)
Definition templatePage : string :=
  textOf [ "<html>";
           "<script>";
           "window.render = function render(items) { return <%= items %>; };";
           "</script>";
           "</html>" ].

(** Two pages with the same base name in different directories. *)
Definition htmlInfo : Walker.LangInfo :=
  {| Walker.li_lang := None; Walker.li_name := "html" |}.
Definition adminIndex : Source :=
  mkSource "admin/index.html" htmlInfo
    "<html><title>Admin</title></html>".
Definition shopIndex : Source :=
  mkSource "shop/index.html" htmlInfo
    "<html><title>Shop</title></html>".

(** A project with one file at the root and one in a sub-directory. *)
Definition smallProject : list Walker.Dirent :=
  [ Walker.FileEnt "a.js"
      (Some (Walker.mkStat 16 "2026-01-02T10:00:00.000Z"))
      (Some "function a() {}");
    Walker.DirEnt "src"
      (Some [ Walker.FileEnt "b.js"
                (Some (Walker.mkStat 16 "2026-01-03T10:00:00.000Z"))
                (Some "function b() {}") ]) ].

(** A project whose only file registers a mount and a route. *)
Definition serverProject : list Walker.Dirent :=
  [ Walker.FileEnt "server.js"
      (Some (Walker.mkStat 64 "2026-01-02T10:00:00.000Z"))
      (Some (textOf [ "app.use('/api/legacy', legacy);";
                      "app.get('/api/users/:id', show);" ])) ].

(** The options left out: both limits at their defaults. *)
Definition noOptions : Walker.Options :=
  {| Walker.opt_maxDepth := None; Walker.opt_maxFiles := None |}.

(* ================================================================== *)
(** * Part II. Properties                                              *)
(* ================================================================== *)

(** ** Own properties under assignment *)

Section ObjectLemmas.
Variable V : Type.
Implicit Types (o : obj V) (k : string) (v : V).

Lemma own_overwrite_same o k v e :
  own o k = Some e -> own (overwrite o k v) k = Some v.
Proof.
  induction o as [|[k' v'] t IH]; simpl; [discriminate|].
  destruct (String.eqb k k') eqn:E; simpl; rewrite E; auto.
Qed.

Lemma own_overwrite_other o k v k' :
  k' <> k -> own (overwrite o k v) k' = own o k'.
Proof.
  intros Hne. induction o as [|[k0 v0] t IH]; simpl; [reflexivity|].
  destruct (String.eqb k k0) eqn:E; simpl.
  - apply String.eqb_eq in E. subst k0.
    apply String.eqb_neq in Hne. now rewrite Hne.
  - rewrite IH. reflexivity.
Qed.

Lemma own_app o k v k' :
  own (o ++ [(k, v)]) k' =
  match own o k' with
  | Some x => Some x
  | None => if String.eqb k' k then Some v else None
  end.
Proof.
  induction o as [|[k0 v0] t IH]; simpl; [reflexivity|].
  destruct (String.eqb k' k0); auto.
Qed.

Lemma own_assign_same o k v :
  k <> "__proto__" -> own (assign o k v) k = Some v.
Proof.
  intros Hk. unfold assign. destruct (own o k) eqn:E.
  - eapply own_overwrite_same; eauto.
  - apply String.eqb_neq in Hk. rewrite Hk, own_app, E, String.eqb_refl.
    reflexivity.
Qed.

Lemma own_assign_other o k v k' :
  k' <> k -> own (assign o k v) k' = own o k'.
Proof.
  intros Hne. unfold assign. destruct (own o k) eqn:E.
  - apply own_overwrite_other; assumption.
  - destruct (String.eqb k "__proto__"); [reflexivity|].
    rewrite own_app. apply String.eqb_neq in Hne. rewrite Hne.
    destruct (own o k'); reflexivity.
Qed.

Lemma keys_overwrite o k v : keys (overwrite o k v) = keys o.
Proof.
  unfold keys. induction o as [|[k0 v0] t IH]; simpl; [reflexivity|].
  destruct (String.eqb k k0); simpl; [reflexivity|]. now rewrite IH.
Qed.

Lemma own_some_in_keys o k e : own o k = Some e -> In k (keys o).
Proof.
  unfold keys. induction o as [|[k0 v0] t IH]; simpl; [discriminate|].
  destruct (String.eqb k k0) eqn:E.
  - apply String.eqb_eq in E. auto.
  - auto.
Qed.

Lemma in_keys_own o k : In k (keys o) -> exists e, own o k = Some e.
Proof.
  unfold keys. induction o as [|[k0 v0] t IH]; simpl; [tauto|].
  intros [H|H]; destruct (String.eqb k k0) eqn:E; eauto.
  subst. rewrite String.eqb_refl in E. discriminate.
Qed.

End ObjectLemmas.

Lemma inherited_not_proto (name : string) :
  inherited name = false -> name <> "__proto__".
Proof. intros H ->. discriminate. Qed.

(** ** addSymbol *)

Lemma addSymbol_own_other c name filePath ln name' :
  name' <> name -> own (addSymbol c name filePath ln) name' = own c name'.
Proof.
  intros Hne. unfold addSymbol, read.
  destruct (own c name) eqn:E.
  - apply own_overwrite_other; assumption.
  - destruct (inherited name); [reflexivity|].
    apply own_assign_other; assumption.
Qed.

Lemma addSymbol_own_new c name filePath ln :
  inherited name = false -> own c name = None ->
  own (addSymbol c name filePath ln) name = Some (firstSight filePath ln).
Proof.
  intros Hi Hn. unfold addSymbol, read. rewrite Hn, Hi.
  apply own_assign_same, inherited_not_proto, Hi.
Qed.

Lemma addSymbol_own_seen c name filePath ln e :
  own c name = Some e ->
  own (addSymbol c name filePath ln) name = Some (bump e).
Proof.
  intros He. unfold addSymbol, read. rewrite He.
  eapply own_overwrite_same; eauto.
Qed.

Lemma addSymbol_inherited c name filePath ln :
  inherited name = true -> own c name = None ->
  addSymbol c name filePath ln = c.
Proof. intros Hi Hn. unfold addSymbol, read. now rewrite Hn, Hi. Qed.

Lemma addCalls_seen ks : forall c name e,
  own c name = Some e ->
  own (addCalls c ks) name =
  Some (seenAgain (List.length (callsFor name ks)) e).
Proof.
  induction ks as [|k ks IH]; intros c name e He; simpl.
  - rewrite He. unfold seenAgain. destruct e; simpl. now rewrite Nat.add_0_r.
  - destruct (String.eqb name (c_name k)) eqn:E.
    + apply String.eqb_eq in E. subst name.
      unfold addCalls in IH |- *. simpl.
      erewrite IH by (apply addSymbol_own_seen; eassumption).
      unfold seenAgain, bump; simpl. f_equal. f_equal. lia.
    + apply String.eqb_neq in E.
      unfold addCalls in IH |- *. simpl.
      apply IH. unfold addCall. now rewrite addSymbol_own_other.
Qed.

(** For a name that [Object.prototype] does not define, the entry after
    any sequence of calls on an empty category is the one the first call
    for the name created, with one usage for each call. *)
Lemma addCalls_first_wins ks : forall c name,
  inherited name = false -> own c name = None ->
  own (addCalls c ks) name =
  match callsFor name ks with
  | [] => None
  | k :: rest =>
      Some {| file := c_file k; line := c_line k;
              usages := List.length (k :: rest) |}
  end.
Proof.
  induction ks as [|k ks IH]; intros c name Hi Hn; simpl; [assumption|].
  destruct (String.eqb name (c_name k)) eqn:E.
  - apply String.eqb_eq in E. subst name.
    change (addCalls c (k :: ks)) with (addCalls (addCall c k) ks).
    erewrite addCalls_seen by (apply addSymbol_own_new; eassumption).
    unfold seenAgain, firstSight; simpl. reflexivity.
  - apply String.eqb_neq in E.
    change (addCalls c (k :: ks)) with (addCalls (addCall c k) ks).
    apply IH; [assumption|]. unfold addCall.
    now rewrite addSymbol_own_other.
Qed.

Lemma addCalls_inherited ks : forall c name,
  inherited name = true -> own c name = None ->
  own (addCalls c ks) name = None.
Proof.
  induction ks as [|k ks IH]; intros c name Hi Hn; simpl; [assumption|].
  change (addCalls c (k :: ks)) with (addCalls (addCall c k) ks).
  apply IH; [assumption|]. unfold addCall.
  destruct (String.eqb name (c_name k)) eqn:E.
  - apply String.eqb_eq in E. subst name. now rewrite addSymbol_inherited.
  - apply String.eqb_neq in E. now rewrite addSymbol_own_other.
Qed.

(** C1 (the code departs from the claim). The first call of [addSymbol]
    for the name [toString] on the empty category of a fresh scan creates
    no entry: the category is returned as it was, and no number of further
    calls ever records the name. The claim asks for an entry with that
    call's file and line and occurrence count 1. *)
Theorem addSymbol_prototype_name_unrecorded :
  addSymbol [] "toString" "src/user.js" 12 = [] /\
  forall ks : list Call, own (addCalls [] ks) "toString" = None.
Proof.
  split; [reflexivity|].
  intros ks. apply addCalls_inherited; reflexivity.
Qed.

(** ** Strings *)

Lemma mem_true_iff x l : mem x l = true <-> In x l.
Proof.
  unfold mem. rewrite existsb_exists. split.
  - intros [y [Hy E]]. apply String.eqb_eq in E. now subst.
  - intros H. exists x. split; [assumption|apply String.eqb_refl].
Qed.

Lemma mem_false_iff x l : mem x l = false <-> ~ In x l.
Proof.
  rewrite <- mem_true_iff. destruct (mem x l); split; congruence.
Qed.

Lemma in_setAdd x l y : In x (setAdd l y) <-> In x l \/ x = y.
Proof.
  unfold setAdd. destruct (mem y l) eqn:E.
  - apply mem_true_iff in E. split; [tauto|]. intros [H | ->]; assumption.
  - rewrite in_app_iff. simpl. intuition.
Qed.

Lemma in_fold_setAdd x ys : forall l,
  In x (fold_left setAdd ys l) <-> In x l \/ In x ys.
Proof.
  induction ys as [|y ys IH]; intros l; simpl; [tauto|].
  rewrite IH, in_setAdd. intuition.
Qed.

Lemma length_mapChars f s : String.length (mapChars f s) = String.length s.
Proof. induction s; simpl; congruence. Qed.

Lemma length_toLowerCase s : String.length (toLowerCase s) = String.length s.
Proof. apply length_mapChars. Qed.

Lemma length_chars s : List.length (chars s) = String.length s.
Proof. unfold chars. induction s; simpl; congruence. Qed.

Lemma length_zero_empty s : String.length s = 0 -> s = EmptyString.
Proof. destruct s; simpl; [reflexivity|discriminate]. Qed.

Lemma absDiff_same n : absDiff n n = 0.
Proof. unfold absDiff. lia. Qed.

(** ** levenshtein *)

Lemma fillRow_length bc : forall a prev left,
  List.length prev = S (List.length a) ->
  List.length (fillRow bc a prev left) = List.length a.
Proof.
  induction a as [|ac a IH]; intros prev left Hlen; simpl; [reflexivity|].
  destruct prev as [|diag [|up prev']]; simpl in Hlen; try discriminate.
  simpl. f_equal. apply IH. simpl. lia.
Qed.

(** Where the two characters agree the new cell copies the diagonal. *)
Lemma fillRow_diagonal bc : forall a prev left j,
  nth_error a j = Some bc ->
  S j < List.length prev ->
  nth_error (fillRow bc a prev left) j = nth_error prev j.
Proof.
  induction a as [|ac a IH]; intros prev left j Hj Hlen.
  - destruct j; discriminate.
  - destruct prev as [|diag [|up prev']]; simpl in Hlen; try lia.
    destruct j as [|j]; simpl in Hj |- *.
    + injection Hj as Hj. subst ac. now rewrite Ascii.eqb_refl.
    + apply IH; [assumption|simpl; lia].
Qed.

Lemma last_nth_error (l : list nat) n d :
  List.length l = S n -> nth_error l n = Some d -> last l 0 = d.
Proof.
  revert n. induction l as [|x l IH]; intros n Hlen Hn; [discriminate|].
  destruct l as [|y l].
  - destruct n; simpl in *; [congruence|discriminate].
  - destruct n as [|n]; [simpl in Hlen; discriminate|].
    change (last (x :: y :: l) 0) with (last (y :: l) 0).
    apply IH with n; [simpl in *; lia|exact Hn].
Qed.

Lemma fillRows_diagonal a : forall b pre i prev,
  a = pre ++ b -> List.length pre = i ->
  List.length prev = S (List.length a) ->
  nth_error prev i = Some 0 ->
  last (fillRows a b i prev) 0 = 0.
Proof.
  induction b as [|bc b IH]; intros pre i prev Ha Hi Hlen Hd; simpl.
  - rewrite app_nil_r in Ha. subst pre.
    apply last_nth_error with i; [rewrite Hlen; congruence|assumption].
  - apply IH with (pre ++ [bc]).
    + rewrite <- app_assoc. exact Ha.
    + rewrite length_app. simpl. lia.
    + simpl. f_equal. apply fillRow_length. assumption.
    + simpl. rewrite fillRow_diagonal; [assumption| |].
      * subst a. rewrite nth_error_app2 by lia.
        replace (i - List.length pre) with 0 by lia. reflexivity.
      * subst a. rewrite Hlen, length_app. simpl. lia.
Qed.

(** A string is at distance 0 from itself. *)
Lemma levenshtein_same s : levenshtein s s = 0.
Proof.
  unfold levenshtein. destruct (String.length s =? 0) eqn:E.
  - now apply Nat.eqb_eq in E.
  - apply fillRows_diagonal with (pre := []).
    + reflexivity.
    + reflexivity.
    + rewrite length_seq, length_chars. reflexivity.
    + reflexivity.
Qed.

Lemma levenshtein_empty_r s : levenshtein s EmptyString = String.length s.
Proof.
  unfold levenshtein. destruct (String.length s =? 0) eqn:E; simpl.
  - apply Nat.eqb_eq in E. congruence.
  - reflexivity.
Qed.

(** ** levenshtein computes the edit distance *)

Lemma levAt_step a b i j :
  levAt a b (S i) (S j) =
  if Ascii.eqb (nth i b zero) (nth j a zero)
  then levAt a b i j
  else 1 + min3 (levAt a b i j) (levAt a b (S i) j) (levAt a b i (S j)).
Proof. reflexivity. Qed.

Lemma levAt_left a b i : levAt a b i 0 = i.
Proof. destruct i; reflexivity. Qed.

Lemma min3_succ x y z : min3 (x + 1) (y + 1) (z + 1) = 1 + min3 x y z.
Proof. unfold min3. lia. Qed.

(** One row of the matrix, from column [j0 + 1] on. *)
Lemma fillRow_levAt a b i bc : forall rest pre j0 prev left,
  a = pre ++ rest -> List.length pre = j0 ->
  nth i b zero = bc ->
  prev = map (levAt a b i) (seq j0 (S (List.length rest))) ->
  left = levAt a b (S i) j0 ->
  fillRow bc rest prev left =
  map (levAt a b (S i)) (seq (S j0) (List.length rest)).
Proof.
  induction rest as [|ac rest IH]; intros pre j0 prev left Ha Hpre Hb Hprev Hl.
  - reflexivity.
  - subst prev. simpl.
    assert (Hac : nth j0 a zero = ac).
    { subst a. rewrite app_nth2 by lia.
      replace (j0 - List.length pre) with 0 by lia. reflexivity. }
    assert (Hv : (if Ascii.eqb bc ac then levAt a b i j0
                  else min3 (levAt a b i j0 + 1) (left + 1)
                            (levAt a b i (S j0) + 1))
                 = levAt a b (S i) (S j0)).
    { rewrite levAt_step, Hb, Hac, min3_succ, Hl. reflexivity. }
    rewrite Hv. f_equal.
    apply IH with (pre ++ [ac]).
    + rewrite <- app_assoc. exact Ha.
    + rewrite length_app. simpl. lia.
    + exact Hb.
    + reflexivity.
    + reflexivity.
Qed.

(** The rows of the matrix, from row [i + 1] on. *)
Lemma fillRows_levAt a b : forall rest pre i prev,
  b = pre ++ rest -> List.length pre = i ->
  prev = map (levAt a b i) (seq 0 (S (List.length a))) ->
  fillRows a rest i prev =
  map (levAt a b (List.length b)) (seq 0 (S (List.length a))).
Proof.
  induction rest as [|bc rest IH]; intros pre i prev Hb Hpre Hprev.
  - simpl. rewrite app_nil_r in Hb. subst. reflexivity.
  - simpl. apply IH with (pre ++ [bc]).
    + rewrite <- app_assoc. exact Hb.
    + rewrite length_app. simpl. lia.
    + change (seq 0 (S (List.length a))) with (0 :: seq 1 (List.length a)).
      change (map (levAt a b (S i)) (0 :: seq 1 (List.length a)))
        with (S i :: map (levAt a b (S i)) (seq 1 (List.length a))).
      f_equal. apply fillRow_levAt with (pre := []).
      * reflexivity.
      * reflexivity.
      * subst b. rewrite app_nth2 by lia.
        replace (i - List.length pre) with 0 by lia. reflexivity.
      * exact Hprev.
      * reflexivity.
Qed.

Lemma last_map_seq (f : nat -> nat) n :
  last (map f (seq 0 (S n))) 0 = f n.
Proof.
  apply last_nth_error with n.
  - now rewrite length_map, length_seq.
  - rewrite nth_error_map, nth_error_seq.
    destruct (Nat.ltb_spec n (S n)); [reflexivity|lia].
Qed.

(** The matrix computation of [levenshtein], early returns included,
    gives the distance defined by the recurrence. *)
Lemma levenshtein_editDistance a b : levenshtein a b = editDistance a b.
Proof.
  unfold levenshtein, editDistance.
  destruct (String.length a =? 0) eqn:Ea.
  - apply Nat.eqb_eq in Ea. rewrite Ea. now rewrite levAt_left.
  - destruct (String.length b =? 0) eqn:Eb.
    + apply Nat.eqb_eq in Eb. rewrite Eb. reflexivity.
    + rewrite (fillRows_levAt (chars a) (chars b) (chars b) [] 0).
      * rewrite !length_chars. apply last_map_seq.
      * reflexivity.
      * reflexivity.
      * rewrite length_chars.
        change (levAt (chars a) (chars b) 0) with (fun j : nat => j).
        now rewrite map_id.
Qed.

Lemma firstn_succ_nth (l : list ascii) : forall i,
  i < List.length l -> firstn (S i) l = firstn i l ++ [nth i l zero].
Proof.
  induction l as [|x l IH]; intros i Hi; simpl in Hi; [lia|].
  destruct i as [|i]; [reflexivity|].
  simpl. f_equal. apply IH. lia.
Qed.

(** Distance 0 is equality. *)
Lemma levAt_zero a b : forall i j,
  i <= List.length b -> j <= List.length a ->
  levAt a b i j = 0 -> i = j /\ firstn i b = firstn j a.
Proof.
  induction i as [|i IH]; intros j Hi Hj H.
  - simpl in H. subst j. split; reflexivity.
  - destruct j as [|j]; [rewrite levAt_left in H; discriminate|].
    rewrite levAt_step in H.
    destruct (Ascii.eqb (nth i b zero) (nth j a zero)) eqn:E;
      [|discriminate].
    apply Ascii.eqb_eq in E.
    destruct (IH j) as [Hij Hpre]; [lia|lia|assumption|].
    split; [now f_equal|].
    rewrite !firstn_succ_nth by lia. now rewrite Hpre, E.
Qed.

Lemma editDistance_zero a b : editDistance a b = 0 -> a = b.
Proof.
  unfold editDistance. intros H.
  apply levAt_zero in H; try (rewrite length_chars; lia).
  destruct H as [Hlen Hpre].
  rewrite <- (length_chars b) in Hpre at 1.
  rewrite <- (length_chars a) in Hpre.
  rewrite !firstn_all in Hpre.
  rewrite <- (string_of_list_ascii_of_string a),
          <- (string_of_list_ascii_of_string b).
  unfold chars in Hpre. now rewrite Hpre.
Qed.

(** ** findFuzzyMatch *)

Section FuzzyFold.
Variable query : string.
Variable all : list string.

Lemma fuzzyStep_inv st name :
  In name all -> fuzzyInv query all st ->
  fuzzyInv query all (fuzzyStep query (maxDistanceOf query) st name).
Proof.
  intros Hin Hst. unfold fuzzyStep.
  destruct (maxDistanceOf query <?
            absDiff (String.length name) (String.length query)) eqn:G;
    [assumption|].
  destruct (levenshtein (toLowerCase query) (toLowerCase name)
            <=? maxDistanceOf query) eqn:D; simpl; [|assumption].
  destruct (belowBest _ (snd st)); [|assumption].
  simpl. repeat split; try assumption.
  - unfold withinGate. apply Nat.leb_le. apply Nat.ltb_ge in G. exact G.
  - apply Nat.leb_le in D. exact D.
Qed.

Lemma fuzzyFold_inv names : forall st,
  (forall n, In n names -> In n all) -> fuzzyInv query all st ->
  fuzzyInv query all (fold_left (fuzzyStep query (maxDistanceOf query)) names st).
Proof.
  induction names as [|n names IH]; intros st Hsub Hst; simpl; [assumption|].
  apply IH.
  - intros m Hm. apply Hsub. now right.
  - apply fuzzyStep_inv; [apply Hsub; now left|assumption].
Qed.

Lemma fuzzyFold_filter names : forall st,
  fold_left (fuzzyStep query (maxDistanceOf query)) names st =
  fold_left (fuzzyStep query (maxDistanceOf query))
            (filter (withinGate query) names) st.
Proof.
  induction names as [|n names IH]; intros st; simpl; [reflexivity|].
  destruct (withinGate query n) eqn:G; simpl.
  - apply IH.
  - rewrite <- IH. f_equal. unfold fuzzyStep.
    unfold withinGate in G. apply Nat.leb_gt in G.
    apply Nat.ltb_lt in G. now rewrite G.
Qed.

(** Once the best distance is 0 the state no longer moves. *)
Lemma fuzzyStep_zero n st name :
  st = (Some n, Some 0) ->
  fuzzyStep query (maxDistanceOf query) st name = st.
Proof.
  intros ->. unfold fuzzyStep.
  destruct (_ <? _); [reflexivity|].
  simpl. rewrite andb_false_r. reflexivity.
Qed.

Lemma fuzzyFold_zero names : forall n,
  fold_left (fuzzyStep query (maxDistanceOf query)) names (Some n, Some 0) =
  (Some n, Some 0).
Proof.
  induction names as [|m names IH]; intros n; simpl; [reflexivity|].
  rewrite (fuzzyStep_zero n) by reflexivity. apply IH.
Qed.

(** A candidate whose lower-cased form is that of the query brings the
    best distance to 0, if it was not there already. *)
Lemma fuzzyStep_case_variant st name :
  toLowerCase name = toLowerCase query ->
  fuzzyInv query all st ->
  exists n, fuzzyStep query (maxDistanceOf query) st name = (Some n, Some 0).
Proof.
  intros Hlow Hst. unfold fuzzyStep.
  assert (Hlen : String.length name = String.length query).
  { rewrite <- (length_toLowerCase name), Hlow. apply length_toLowerCase. }
  rewrite Hlen, absDiff_same, Hlow, levenshtein_same.
  replace (maxDistanceOf query <? 0) with false
    by (symmetry; apply Nat.ltb_ge; lia).
  simpl. destruct st as [[n|] [d|]]; simpl in *; try tauto.
  - destruct d as [|d]; simpl; eauto.
  - eauto.
Qed.

Lemma fuzzyFold_case_variant names : forall st name,
  (forall n, In n names -> In n all) ->
  In name names ->
  toLowerCase name = toLowerCase query ->
  fuzzyInv query all st ->
  exists n,
    fold_left (fuzzyStep query (maxDistanceOf query)) names st =
    (Some n, Some 0).
Proof.
  induction names as [|m names IH]; intros st name Hsub Hin Hlow Hst;
    [contradiction|].
  simpl. destruct Hin as [-> | Hin].
  - destruct (fuzzyStep_case_variant st name Hlow Hst) as [n Hn].
    rewrite Hn. exists n. apply fuzzyFold_zero.
  - apply IH with name; try assumption.
    + intros n Hn. apply Hsub. now right.
    + apply fuzzyStep_inv; [apply Hsub; now left|assumption].
Qed.

End FuzzyFold.

Lemma findFuzzyMatch_sound query names m :
  findFuzzyMatch query names = Some m ->
  In (m_name m) names /\ withinGate query (m_name m) = true /\
  m_distance m = levenshtein (toLowerCase query) (toLowerCase (m_name m)) /\
  m_distance m <= maxDistanceOf query.
Proof.
  unfold findFuzzyMatch. intros H.
  assert (Hinv := @fuzzyFold_inv query names names (None, None)
                    (fun n Hn => Hn) I).
  destruct (fold_left (fuzzyStep query (maxDistanceOf query)) names
              (None, None)) as [[n|] [d|]];
    try discriminate.
  destruct (nonEmpty n); [|discriminate].
  injection H as H. subst m. exact Hinv.
Qed.

Lemma findFuzzyMatch_filter query names :
  findFuzzyMatch query names =
  findFuzzyMatch query (filter (withinGate query) names).
Proof. unfold findFuzzyMatch. now rewrite <- fuzzyFold_filter. Qed.

Lemma maxDistanceOf_ten query :
  String.length query = 10 -> maxDistanceOf query = 3.
Proof. unfold maxDistanceOf. intros ->. reflexivity. Qed.

(** C2, as amended. For a queried name [query] absent from the known
    names [names]: a match is returned only if the name it suggests is a
    known name whose length is within the gate
    [max(2, floor(0.3 * length))] of the query's and whose distance from
    the query is at most the gate, the distance being the edit distance of
    the two lower-cased strings, which is also the distance reported in
    the match; candidates outside the length gate are skipped (dropping
    them from the set changes nothing); and with a query and a single
    known name [n] both of length 10 the gate is 3, a distance of 4
    between the lower-cased strings gives no match and a distance of 3
    gives the match [n] with distance 3. *)
Theorem findFuzzyMatch_gate (query : string) (names : list string) :
  ~ In query names ->
  (forall m, findFuzzyMatch query names = Some m ->
     In (m_name m) names /\
     absDiff (String.length (m_name m)) (String.length query)
       <= Nat.max 2 (3 * String.length query / 10) /\
     m_distance m =
       editDistance (toLowerCase query) (toLowerCase (m_name m)) /\
     m_distance m <= Nat.max 2 (3 * String.length query / 10)) /\
  findFuzzyMatch query names =
    findFuzzyMatch query (filter (withinGate query) names) /\
  (forall n, names = [n] ->
     String.length query = 10 -> String.length n = 10 ->
     Nat.max 2 (3 * String.length query / 10) = 3 /\
     (editDistance (toLowerCase query) (toLowerCase n) = 4 ->
      findFuzzyMatch query names = None) /\
     (editDistance (toLowerCase query) (toLowerCase n) = 3 ->
      findFuzzyMatch query names = Some {| m_name := n; m_distance := 3 |})).
Proof.
  intros _. split; [|split].
  - intros m Hm. apply findFuzzyMatch_sound in Hm.
    destruct Hm as (Hin & Hgate & Hd & Hle).
    repeat split; try assumption.
    + unfold withinGate in Hgate. apply Nat.leb_le in Hgate. exact Hgate.
    + now rewrite <- levenshtein_editDistance.
  - apply findFuzzyMatch_filter.
  - intros n -> Hq Hn. rewrite <- !levenshtein_editDistance.
    split; [now rewrite Hq|].
    unfold findFuzzyMatch. simpl. unfold fuzzyStep.
    rewrite (maxDistanceOf_ten query Hq), Hq, Hn. simpl.
    split; intros ->; simpl; [reflexivity|].
    destruct n; [discriminate|reflexivity].
Qed.

Lemma findFuzzyMatch_gate_witness :
  ~ In "getUserAbc" ["getUserXyz"] /\
  findFuzzyMatch "getUserAbc" ["getUserXyz"] =
    Some {| m_name := "getUserXyz"; m_distance := 3 |}.
Proof.
  assert (H : ~ In "getUserAbc" ["getUserXyz"]).
  { simpl. intros [E|[]]. discriminate. }
  split; [exact H|].
  destruct (findFuzzyMatch_gate "getUserAbc" ["getUserXyz"] H) as (_ & _ & Hten).
  destruct (Hten "getUserXyz" eq_refl eq_refl eq_refl) as (_ & _ & H3).
  apply H3. reflexivity.
Defined.

(** C2, the claim as stated fails: the query [ABCDefghij] and the known
    name [abcdefghij] both have length 10 and their edit distance is 4,
    above the gate 3; the matcher compares the lower-cased strings and
    returns the name, at distance 0. *)
Lemma findFuzzyMatch_ignores_letter_case :
  ~ In "ABCDefghij" ["abcdefghij"] /\
  String.length "ABCDefghij" = 10 /\ String.length "abcdefghij" = 10 /\
  editDistance "ABCDefghij" "abcdefghij" = 4 /\
  findFuzzyMatch "ABCDefghij" ["abcdefghij"]
  = Some {| m_name := "abcdefghij"; m_distance := 0 |}.
Proof.
  split; [intros [E|[]]; discriminate|].
  repeat split; vm_compute; reflexivity.
Qed.

(** ** checkSymbols *)

Lemma in_allNames_from (reg : registry) : forall acc n,
  In n (fold_left (fun acc (cat : string * obj RegistryEntry) =>
                     fold_left setAdd (keys (snd cat)) acc)
                  reg acc) <->
  In n acc \/ exists cat, In cat reg /\ In n (keys (snd cat)).
Proof.
  induction reg as [|c reg IH]; intros acc n; simpl.
  - split; [tauto|]. intros [H|[cat [[] _]]]. assumption.
  - rewrite IH, in_fold_setAdd. split.
    + intros [[H|H]|[cat [Hc Hn]]]; eauto.
    + intros [H|[cat [[<-|Hc] Hn]]]; eauto.
Qed.

Lemma in_allNames (reg : registry) n :
  In n (allNames reg) <-> exists cat, In cat reg /\ In n (keys (snd cat)).
Proof.
  unfold allNames. rewrite in_allNames_from. simpl. tauto.
Qed.

(** A known name is found in some category. *)
Lemma firstCategoryWith_known reg n :
  In n (allNames reg) ->
  exists catName e, firstCategoryWith reg n = Some (catName, e).
Proof.
  rewrite in_allNames. intros [cat [Hc Hn]].
  induction reg as [|[cn c] reg IH]; [contradiction|].
  simpl. unfold read.
  destruct (own c n) eqn:E; [eauto|].
  destruct (inherited n); [eauto|].
  destruct Hc as [<-|Hc]; [|auto].
  simpl in Hn. apply in_keys_own in Hn. destruct Hn as [e He]. congruence.
Qed.

(** What the loop of [checkSymbols] adds to the three lists. *)
Lemma checkSymbols_fold reg names syms : forall r,
  let r' := fold_left (checkOne reg names) syms r in
  (forall x, In x (known r') ->
     In x (known r) \/ mem (k_name x) names = true) /\
  (forall u, In u (unknown r') ->
     In u (unknown r) \/ (mem u names = false /\
                          findFuzzyMatch u names = None)) /\
  (forall f, In f (fuzzy r) -> In f (fuzzy r')) /\
  (forall s m catName e,
     In s syms -> mem s names = false ->
     findFuzzyMatch s names = Some m ->
     firstCategoryWith reg (m_name m) = Some (catName, e) ->
     In (mkFuzzyItem s (m_name m) (m_distance m) catName e) (fuzzy r')).
Proof.
  induction syms as [|s0 syms IH]; intros r; simpl.
  - repeat split; auto. intros s m c e [].
  - specialize (IH (checkOne reg names r s0)). simpl in IH.
    destruct IH as (Hk & Hu & Hf & Hnew).
    assert (Hstep :
      (forall x, In x (known (checkOne reg names r s0)) ->
         In x (known r) \/ mem (k_name x) names = true) /\
      (forall u, In u (unknown (checkOne reg names r s0)) ->
         In u (unknown r) \/ (mem u names = false /\
                              findFuzzyMatch u names = None)) /\
      (forall f, In f (fuzzy r) -> In f (fuzzy (checkOne reg names r s0))) /\
      (forall m catName e, mem s0 names = false ->
         findFuzzyMatch s0 names = Some m ->
         firstCategoryWith reg (m_name m) = Some (catName, e) ->
         In (mkFuzzyItem s0 (m_name m) (m_distance m) catName e)
            (fuzzy (checkOne reg names r s0)))).
    { unfold checkOne. destruct (mem s0 names) eqn:Em.
      - destruct (firstCategoryWith reg s0) as [[cn e0]|]; simpl;
          repeat split; auto; try discriminate.
        intros x Hx. apply in_app_iff in Hx. destruct Hx as [Hx|[<-|[]]];
          auto.
      - destruct (findFuzzyMatch s0 names) as [m0|] eqn:Ef.
        + destruct (firstCategoryWith reg (m_name m0)) as [[cn e0]|] eqn:Ec;
            simpl; repeat split; auto.
          * intros f Hf'. apply in_app_iff. now left.
          * intros m catName e _ Hm Hc. injection Hm as Hm. subst m0.
            rewrite Ec in Hc. injection Hc as -> ->.
            apply in_app_iff. right. now left.
          * intros m catName e _ Hm Hc. injection Hm as Hm. subst m0.
            congruence.
        + simpl. repeat split; auto; try discriminate.
          intros u Hu'. apply in_app_iff in Hu'.
          destruct Hu' as [Hu'|[<-|[]]]; auto. }
    destruct Hstep as (Sk & Su & Sf & Snew).
    repeat split.
    + intros x Hx. destruct (Hk x Hx) as [H|H]; auto.
    + intros u Hx. destruct (Hu u Hx) as [H|H]; auto.
    + auto.
    + intros s m catName e [<-|Hs] Hm Hf' Hc; eauto.
Qed.

(** C9. A queried name [q] that is not in the registry but differs from a
    known name only in letter case (their lower-cased forms are equal) is
    classified by [checkSymbols] as a fuzzy match with distance 0: the
    fuzzy list holds an item for [q] with distance 0, whose suggestion is
    a known name with the same lower-cased form (membership is tested on
    the names as they are, the distance on their lower-cased forms), and
    [q] is in neither the known nor the unknown list. *)
Theorem checkSymbols_case_variant_is_fuzzy
  (reg : registry) (symbolNames : list string) (q known_name : string) :
  In q symbolNames ->
  ~ In q (allNames reg) ->
  In known_name (allNames reg) ->
  toLowerCase known_name = toLowerCase q ->
  (exists item,
     In item (fuzzy (checkSymbols symbolNames reg)) /\
     queried item = q /\ distance item = 0 /\
     In (suggestion item) (allNames reg) /\
     toLowerCase (suggestion item) = toLowerCase q /\
     editDistance (toLowerCase q) (toLowerCase (suggestion item)) = 0)
  /\ ~ In q (map k_name (known (checkSymbols symbolNames reg)))
  /\ ~ In q (unknown (checkSymbols symbolNames reg)).
Proof.
  intros Hq Habsent Hknown Hlow.
  set (r := checkSymbols symbolNames reg).
  assert (Hmem : mem q (allNames reg) = false) by now apply mem_false_iff.
  destruct (fuzzyFold_case_variant q (allNames reg) (allNames reg)
              (None, None) known_name (fun n Hn => Hn) Hknown Hlow I)
    as [best Hbest].
  assert (Hinv := fuzzyFold_inv q (allNames reg) (allNames reg) (None, None)
                    (fun n Hn => Hn) I).
  rewrite Hbest in Hinv. simpl in Hinv.
  destruct Hinv as (Hin & _ & Hd & _).
  assert (Hne : nonEmpty best = true).
  { destruct best; [|reflexivity]. exfalso.
    change (toLowerCase "") with EmptyString in Hd.
    rewrite levenshtein_empty_r, length_toLowerCase in Hd.
    symmetry in Hd. apply length_zero_empty in Hd. subst q. contradiction. }
  assert (Hfind : findFuzzyMatch q (allNames reg) =
                  Some {| m_name := best; m_distance := 0 |}).
  { unfold findFuzzyMatch. rewrite Hbest, Hne. reflexivity. }
  destruct (firstCategoryWith_known reg best Hin) as (catName & e & Hcat).
  destruct (checkSymbols_fold reg (allNames reg) symbolNames
              {| known := []; fuzzy := []; unknown := [] |})
    as (Hk & Hu & _ & Hnew).
  fold (checkSymbols symbolNames reg) in Hk, Hu, Hnew. fold r in Hk, Hu, Hnew.
  rewrite levenshtein_editDistance in Hd. symmetry in Hd.
  split; [|split].
  - exists (mkFuzzyItem q best 0 catName e). simpl.
    repeat split; auto.
    + apply (Hnew q _ catName e Hq Hmem Hfind Hcat).
    + symmetry. now apply editDistance_zero.
  - intros Hin'. apply in_map_iff in Hin'. destruct Hin' as [x [Hx Hxin]].
    destruct (Hk x Hxin) as [[]|H]. rewrite Hx in H. congruence.
  - intros Hin'. destruct (Hu q Hin') as [[]|[_ H]]. congruence.
Qed.

Lemma checkSymbols_case_variant_is_fuzzy_witness :
  (exists item,
     In item (fuzzy (checkSymbols ["GetUser"] apiRegistry)) /\
     queried item = "GetUser" /\ distance item = 0) /\
  ~ In "GetUser" (unknown (checkSymbols ["GetUser"] apiRegistry)).
Proof.
  assert (Hq : In "GetUser" ["GetUser"]) by (left; reflexivity).
  assert (Ha : ~ In "GetUser" (allNames apiRegistry)).
  { simpl. intros [E|[]]. discriminate. }
  assert (Hk : In "getUser" (allNames apiRegistry)).
  { left. reflexivity. }
  destruct (checkSymbols_case_variant_is_fuzzy apiRegistry
              ["GetUser"] "GetUser" "getUser" Hq Ha Hk eq_refl)
    as ((item & Hin & Hqd & Hd & _) & _ & Hu).
  split; [|exact Hu].
  exists item. repeat split; assumption.
Defined.

(** ** The route check *)

Section RouteLemmas.
Import RouteCheck.

Lemma routeSets_fold routes : forall t p,
  (In p (knownPaths (fold_left collectRoute routes t)) <->
   In p (knownPaths t) \/
   exists kv, In kv routes /\ isLeaf kv = true /\
              p = routePathOf (fst kv) (snd kv)) /\
  (In p (knownNormalized (fold_left collectRoute routes t)) <->
   In p (knownNormalized t) \/
   exists kv, In kv routes /\ isLeaf kv = true /\
              p = normalizeKnown (routePathOf (fst kv) (snd kv))) /\
  (In p (mounts (fold_left collectRoute routes t)) <->
   In p (mounts t) \/
   exists kv, In kv routes /\ isLeaf kv = false /\
              p = routePathOf (fst kv) (snd kv)).
Proof.
  induction routes as [|kv routes IH]; intros t p; simpl.
  - repeat split; try tauto; intros [H|[kv [[] _]]]; assumption.
  - destruct (IH (collectRoute t kv) p) as (Hk & Hn & Hm).
    rewrite Hk, Hn, Hm. clear IH Hk Hn Hm.
    unfold collectRoute, isLeaf.
    destruct (r_method (snd kv) =? "MOUNT")%string eqn:E; simpl;
      rewrite ?in_setAdd; repeat split.
    all: try (intros [H|[kv' (Hin & Hl & Hp)]];
              [tauto|right; exists kv'; tauto]).
    all: try (intros [[H|H]|[kv' (Hin & Hl & Hp)]];
              [tauto| right; exists kv; rewrite E; simpl; tauto
              | right; exists kv'; tauto]).
    all: try (intros [H|[kv' ([<-|Hin] & Hl & Hp)]];
              [tauto| rewrite E in Hl; simpl in Hl; try discriminate; tauto
              | right; exists kv'; tauto]).
    all: try (intros [H|[kv' ([<-|Hin] & Hl & Hp)]];
              [tauto| rewrite E in Hl; simpl in Hl; discriminate
              | right; exists kv'; tauto]).
Qed.

Lemma in_knownPaths routes p :
  In p (knownPaths (routeSets routes)) <->
  exists kv, In kv routes /\ isLeaf kv = true /\
             p = routePathOf (fst kv) (snd kv).
Proof.
  unfold routeSets.
  destruct (routeSets_fold routes
              {| knownPaths := []; knownNormalized := []; mounts := [] |} p)
    as (H & _ & _).
  rewrite H. simpl. tauto.
Qed.

Lemma in_knownNormalized routes p :
  In p (knownNormalized (routeSets routes)) <->
  exists kv, In kv routes /\ isLeaf kv = true /\
             p = normalizeKnown (routePathOf (fst kv) (snd kv)).
Proof.
  unfold routeSets.
  destruct (routeSets_fold routes
              {| knownPaths := []; knownNormalized := []; mounts := [] |} p)
    as (_ & H & _).
  rewrite H. simpl. tauto.
Qed.





Lemma search_trailingSlash s : forall bef idx,
  search false trailingSlash bef (chars s) idx =
  if endsWithSlash s
  then Some {| f_index := idx + (String.length s - 1);
               f_text := ["/"%char];
               f_end := {| before := Some "/"%char; after := [];
                           index := idx + String.length s |};
               f_caps := [] |}
  else None.
Proof.
  induction s as [|c t IH]; intros bef idx; [reflexivity|].
  destruct t as [|d t'].
  - cbn -[Nat.sub]. unfold step. cbn -[Nat.sub].
    destruct (Ascii.eqb c "/") eqn:E; [|reflexivity].
    apply Ascii.eqb_eq in E. subst c.
    cbn [index].
    replace (S idx - idx) with 1 by lia.
    replace (idx + (1 - 1)) with idx by lia.
    now rewrite Nat.add_1_r.
  - change (chars (String c (String d t'))) with (c :: chars (String d t')).
    change (endsWithSlash (String c (String d t')))
      with (endsWithSlash (String d t')).
    cbn [search].
    replace (run false trailingSlash _ [] _) with (@None (cursor * captures)).
    + rewrite IH.
      destruct (endsWithSlash (String d t')); [|reflexivity].
      simpl String.length.
      replace (S idx + (S (String.length t') - 1))
        with (idx + (S (S (String.length t')) - 1)) by lia.
      replace (S idx + S (String.length t'))
        with (idx + S (S (String.length t'))) by lia.
      reflexivity.
    + simpl. unfold step. simpl. destruct (Ascii.eqb c "/"); reflexivity.
Qed.

Lemma dropFinalSlash_chars s :
  endsWithSlash s = true ->
  ofChars (removelast (chars s)) = dropFinalSlash s.
Proof.
  induction s as [|c t IH]; [discriminate|].
  destruct t as [|d t'].
  - simpl. intros ->. reflexivity.
  - intros H.
    change (chars (String c (String d t'))) with (c :: chars (String d t')).
    change (removelast (c :: chars (String d t')))
      with (c :: removelast (chars (String d t'))).
    change (dropFinalSlash (String c (String d t')))
      with (String c (dropFinalSlash (String d t'))).
    simpl ofChars. f_equal. apply IH. exact H.
Qed.

Lemma dropFinalSlash_id s : endsWithSlash s = false -> dropFinalSlash s = s.
Proof.
  induction s as [|c t IH]; [reflexivity|].
  destruct t as [|d t'].
  - simpl. intros ->. reflexivity.
  - intros H.
    change (dropFinalSlash (String c (String d t')))
      with (String c (dropFinalSlash (String d t'))).
    f_equal. apply IH. exact H.
Qed.

(** The replacement [/\/$/ -> ''] removes one final slash. *)
Lemma stripSlash_spec s : stripSlash s = dropFinalSlash s.
Proof.
  unfold stripSlash, replaceFirst, exec. rewrite search_trailingSlash.
  destruct (endsWithSlash s) eqn:E.
  - rewrite <- dropFinalSlash_chars by assumption.
    f_equal. simpl.
    rewrite Nat.sub_0_r.
    rewrite <- (length_chars s), skipn_all, app_nil_r.
    replace (List.length (chars s) - 1) with (pred (List.length (chars s)))
      by lia.
    symmetry. apply removelast_firstn_len.
  - symmetry. now apply dropFinalSlash_id.
Qed.





Lemma isBadRoute_extended t literal kp :
  In kp (knownPaths t) ->
  startsWith kp (stripSlash literal ++ "/") = true ->
  isBadRoute t literal = false.
Proof.
  intros Hin Hp. unfold isBadRoute.
  destruct (mem _ _); [reflexivity|].
  destruct (mem _ _); [reflexivity|].
  replace (existsb _ (knownPaths t)) with true; [reflexivity|].
  symmetry. apply existsb_exists. exists kp. split; assumption.
Qed.

(** C3, as amended. In a route table whose leaf routes all have the path
    [/api/users/:id] (there is at least one), the query [/api/users/42] is
    accepted: purely numeric query segments and the named parameter
    segments of known routes are both replaced by the wildcard. The query
    [/api/users/abc] is not matched by the parameter, because non-numeric
    query segments are compared literally: it is reported unknown, and so
    is [/api/users/42/profile], unless the query lies under a mount
    without resolved sub-routes. In any table that has the leaf route
    [/api/users/:id/profile], the query [/api/users/42/profile] is
    accepted, by the same wildcard comparison. *)
Theorem users_route_wildcards_numeric_only (routes : obj RouteEntry) :
  (exists kv, In kv routes /\ isLeaf kv = true) ->
  (forall kv, In kv routes -> isLeaf kv = true ->
     routePathOf (fst kv) (snd kv) = "/api/users/:id") ->
  isBadRoute (routeSets routes) "/api/users/42" = false /\
  isBadRoute (routeSets routes) "/api/users/abc" =
    negb (underOpaqueMount (routeSets routes) "/api/users/abc") /\
  isBadRoute (routeSets routes) "/api/users/42/profile" =
    negb (underOpaqueMount (routeSets routes) "/api/users/42/profile") /\
  (forall (others : obj RouteEntry) (kv : string * RouteEntry),
     In kv others -> isLeaf kv = true ->
     routePathOf (fst kv) (snd kv) = "/api/users/:id/profile" ->
     isBadRoute (routeSets others) "/api/users/42/profile" = false).
Proof.
  intros (kv0 & Hkv0 & Hleaf0) Hall.
  assert (Hknown : forall p, In p (knownPaths (routeSets routes)) ->
                             p = "/api/users/:id").
  { intros p Hp. apply in_knownPaths in Hp.
    destruct Hp as (kv & Hin & Hl & ->). now apply Hall. }
  assert (Hnorm : forall p, In p (knownNormalized (routeSets routes)) ->
                            p = "/api/users/*").
  { intros p Hp. apply in_knownNormalized in Hp.
    destruct Hp as (kv & Hin & Hl & ->). now rewrite Hall. }
  assert (Hstar : In "/api/users/*" (knownNormalized (routeSets routes))).
  { apply in_knownNormalized. exists kv0. repeat split; try assumption.
    now rewrite Hall. }
  assert (Hrest : forall q : string,
            stripSlash q = q -> wildcarded q <> "/api/users/*" ->
            q <> "/api/users/:id" ->
            startsWith "/api/users/:id" (q ++ "/") = false ->
            isBadRoute (routeSets routes) q =
            negb (underOpaqueMount (routeSets routes) q)).
  { intros q Hs Hw Hq Hpre. unfold isBadRoute. rewrite Hs.
    replace (mem q (knownPaths (routeSets routes))) with false.
    2:{ symmetry. apply mem_false_iff. intros H. now apply Hknown in H. }
    replace (mem (wildcarded q) (knownNormalized (routeSets routes)))
      with false.
    2:{ symmetry. apply mem_false_iff. intros H. now apply Hnorm in H. }
    replace (existsb _ (knownPaths (routeSets routes))) with false.
    2:{ symmetry. apply not_true_is_false. intros H.
        apply existsb_exists in H. destruct H as (kp & Hkp & Hp).
        apply Hknown in Hkp. subst kp. congruence. }
    destruct (underOpaqueMount _ _); reflexivity. }
  split; [|split; [|split]].
  - unfold isBadRoute.
    change (stripSlash "/api/users/42") with "/api/users/42".
    change (wildcarded "/api/users/42") with "/api/users/*".
    destruct (mem "/api/users/42" _); [reflexivity|].
    apply mem_true_iff in Hstar. rewrite Hstar. reflexivity.
  - apply Hrest; [reflexivity|discriminate|discriminate|reflexivity].
  - apply Hrest; [reflexivity|discriminate|discriminate|reflexivity].
  - intros others kv Hin Hl Hp.
    assert (Hn : In "/api/users/*/profile"
                    (knownNormalized (routeSets others))).
    { apply in_knownNormalized. exists kv. repeat split; try assumption.
      now rewrite Hp. }
    unfold isBadRoute.
    change (stripSlash "/api/users/42/profile") with "/api/users/42/profile".
    change (wildcarded "/api/users/42/profile") with "/api/users/*/profile".
    destruct (mem "/api/users/42/profile" _); [reflexivity|].
    apply mem_true_iff in Hn. rewrite Hn. reflexivity.
Qed.

Lemma users_route_wildcards_numeric_only_witness :
  isBadRoute (routeSets usersTable) "/api/users/42" = false /\
  isBadRoute (routeSets usersTable) "/api/users/abc" = true /\
  isBadRoute (routeSets usersTable) "/api/users/42/profile" = true /\
  isBadRoute (routeSets profileTable) "/api/users/42/profile" = false.
Proof.
  assert (H1 : exists kv, In kv usersTable /\ isLeaf kv = true).
  { eexists. split; [left; reflexivity|reflexivity]. }
  assert (H2 : forall kv, In kv usersTable -> isLeaf kv = true ->
                 routePathOf (fst kv) (snd kv) = "/api/users/:id").
  { intros kv [<-|[]] _. reflexivity. }
  destruct (users_route_wildcards_numeric_only usersTable H1 H2)
    as (Ha & Hb & Hc & Hd).
  split; [exact Ha|split; [|split]].
  - rewrite Hb. reflexivity.
  - rewrite Hc. reflexivity.
  - apply (Hd profileTable
             ("GET /api/users/:id/profile",
              mkRoute "routes/users.js" 12 "GET" "/api/users/:id/profile")).
    + right. left. reflexivity.
    + reflexivity.
    + reflexivity.
Defined.

(** C3, the claim as stated fails: with the single known leaf route
    [/api/users/:id], the query [/api/users/abc] is not accepted; the
    validator reports it, next to the accepted [/api/users/42]. *)
Lemma users_route_rejects_named_value :
  badRoutes usersTable ["/api/users/42"; "/api/users/abc"]
  = ["/api/users/abc"].
Proof. reflexivity. Qed.
End RouteLemmas.

(** ** What the extractors leave alone *)

Section PagesKept.
Import Indexer Walker.
Context {ast : AstService}.

Lemma addTo_pages c s name filePath ln :
  htmlPages (addTo c s name filePath ln) = htmlPages s.
Proof. destruct c; reflexivity. Qed.

Lemma addRoute_pages s key e : htmlPages (addRoute s key e) = htmlPages s.
Proof. unfold addRoute. destruct (truthy _); reflexivity. Qed.

Lemma fold_pages {A} (f : Symbols -> A -> Symbols) :
  (forall s a, htmlPages (f s a) = htmlPages s) ->
  forall l s, htmlPages (fold_left f l s) = htmlPages s.
Proof.
  intros Hf l. induction l as [|a l IH]; intros s; simpl; [reflexivity|].
  now rewrite IH, Hf.
Qed.

Lemma forLines_pages (f : Symbols -> nat -> string -> Symbols) :
  (forall s i ln, htmlPages (f s i ln) = htmlPages s) ->
  forall lines i s, htmlPages (forLines f i lines s) = htmlPages s.
Proof.
  intros Hf lines. induction lines as [|l lines IH]; intros i s; simpl;
    [reflexivity|].
  now rewrite IH, Hf.
Qed.

(** Case analysis on every test of an extractor body; each branch ends
    in [addTo], [addRoute] or the symbols unchanged. *)
Ltac pages_cases :=
  repeat match goal with
         | |- context [match ?x with _ => _ end] => destruct x
         end;
  rewrite ?addTo_pages, ?addRoute_pages; try reflexivity.

Lemma jsRegexLine_pages filePath off s i ln :
  htmlPages (jsRegexLine filePath off s i ln) = htmlPages s.
Proof. unfold jsRegexLine. pages_cases. Qed.

Lemma pythonLine_pages filePath s i ln :
  htmlPages (pythonLine filePath s i ln) = htmlPages s.
Proof. unfold pythonLine, pythonAssign. pages_cases. Qed.

Lemma goLine_pages filePath s i ln :
  htmlPages (goLine filePath s i ln) = htmlPages s.
Proof. unfold goLine. pages_cases. Qed.

Lemma rustLine_pages filePath s i ln :
  htmlPages (rustLine filePath s i ln) = htmlPages s.
Proof. unfold rustLine. pages_cases. Qed.

Lemma extractWithRegex_pages filePath lines lang s off :
  htmlPages (extractWithRegex filePath lines lang s off) = htmlPages s.
Proof.
  unfold extractWithRegex, extractJsRegex, extractPython, extractGo,
    extractRust.
  repeat match goal with
         | |- context [if ?b then _ else _] => destruct b
         end;
  try reflexivity; apply forLines_pages; intros;
  auto using jsRegexLine_pages, pythonLine_pages, goLine_pages,
             rustLine_pages.
Qed.

Lemma addNameField_pages c filePath off s node :
  htmlPages (addNameField c filePath off s node) = htmlPages s.
Proof. unfold addNameField. pages_cases. Qed.

Lemma lexicalDeclarator_pages filePath off s decl :
  htmlPages (lexicalDeclarator filePath off s decl) = htmlPages s.
Proof. unfold lexicalDeclarator. pages_cases. Qed.

Lemma varDeclarator_pages filePath off s decl :
  htmlPages (varDeclarator filePath off s decl) = htmlPages s.
Proof. unfold varDeclarator. pages_cases. Qed.

Lemma methodDefinition_pages filePath off s node :
  htmlPages (methodDefinition filePath off s node) = htmlPages s.
Proof. unfold methodDefinition. pages_cases. Qed.

Lemma exportStatement_pages filePath off s node :
  htmlPages (exportStatement filePath off s node) = htmlPages s.
Proof.
  unfold exportStatement.
  repeat match goal with
         | |- context [match ?x with _ => _ end] => destruct x
         end;
  rewrite ?addTo_pages;
  rewrite ?(fold_pages _ (addNameField_pages Exports filePath off));
  rewrite ?addTo_pages;
  rewrite ?(fold_pages _ (addNameField_pages Exports filePath off));
  reflexivity.
Qed.

Lemma sourceLine_pages filePath s i ln :
  htmlPages (sourceLine filePath s i ln) = htmlPages s.
Proof.
  unfold sourceLine.
  destruct (exec false memberExport ln); [apply addTo_pages|].
  assert (Hbulk : forall names acc,
            htmlPages
              (fold_left (fun acc name =>
                            if nonEmpty name && test false wordOnly name
                            then addTo Exports acc name filePath (i + 1)
                            else acc) names acc) = htmlPages acc).
  { intros names acc. apply fold_pages. intros s0 a.
    destruct (_ && _); [apply addTo_pages|reflexivity]. }
  destruct (exec false bulkExport ln);
    repeat match goal with
           | |- context [match ?x with _ => _ end] => destruct x
           end;
    rewrite ?addRoute_pages, ?Hbulk; reflexivity.
Qed.

Lemma extractAstSymbols_pages root filePath lang s off :
  htmlPages (extractAstSymbols root filePath lang s off) = htmlPages s.
Proof.
  unfold extractAstSymbols.
  rewrite forLines_pages by (intros; apply sourceLine_pages).
  rewrite fold_pages by (intros; apply exportStatement_pages).
  destruct (isTS lang);
    repeat first
      [ rewrite (fold_pages _ (addNameField_pages _ filePath off))
      | rewrite (fold_pages _ (methodDefinition_pages filePath off))
      | rewrite fold_pages
          by (intros; apply fold_pages; intros;
              first [apply lexicalDeclarator_pages
                    |apply varDeclarator_pages]) ];
    reflexivity.
Qed.

Lemma extractWithAst_returns filePath content lang s off :
  exists s', extractWithAst filePath content lang s off = Returned s' /\
             htmlPages s' = htmlPages s.
Proof.
  unfold extractWithAst. destruct (parse lang content).
  - eexists. split; [reflexivity|apply extractAstSymbols_pages].
  - eexists. split; reflexivity.
Qed.

Lemma inlineBlock_pages filePath content s m :
  htmlPages (inlineBlock filePath content s m) = htmlPages s.
Proof.
  unfold inlineBlock. destruct (negb _); [reflexivity|].
  destruct (extractWithAst_returns filePath (group m 1) JavaScript s
              (lineOfIndex content (f_index m))) as (s' & -> & Hs').
  exact Hs'.
Qed.

Lemma extractHtml_pages filePath content s :
  htmlPages (extractHtml filePath content s) =
  assign (htmlPages s) (basename filePath) (pageOf filePath content).
Proof.
  unfold extractHtml. simpl.
  now rewrite (fold_pages _ (inlineBlock_pages filePath content)).
Qed.

Lemma extractFile_pages relPath li content lines s :
  htmlPages (extractFile relPath li content lines s) =
  if (li_name li =? "html")%string
  then assign (htmlPages s) (basename relPath) (pageOf relPath content)
  else htmlPages s.
Proof.
  unfold extractFile. destruct (li_name li =? "html")%string.
  - apply extractHtml_pages.
  - destruct (li_lang li) as [lang|].
    + destruct (extractWithAst_returns relPath content lang s 0)
        as (s' & -> & Hs'). exact Hs'.
    + apply extractWithRegex_pages.
Qed.

(** The base name of a file dispatched as markup is an ordinary key. *)
Lemma markup_basename_ordinary f :
  dispatched f -> isMarkup f = true ->
  basename (src_path f) <> "__proto__".
Proof.
  unfold dispatched, isMarkup. intros Hd Hm E. rewrite E in Hd.
  vm_compute in Hd. discriminate.
Qed.

Lemma extractAll_pages_other after : forall s name,
  (forall g, In g after -> isMarkup g = true ->
             basename (src_path g) <> name) ->
  own (htmlPages (extractAll after s)) name = own (htmlPages s) name.
Proof.
  induction after as [|g after IH]; intros s name Hother; [reflexivity|].
  unfold extractAll in *. simpl. rewrite IH.
  - unfold extractSource. rewrite extractFile_pages.
    destruct (li_name (src_info g) =? "html")%string eqn:E; [|reflexivity].
    apply own_assign_other. intros Heq.
    apply (Hother g); [now left|exact E|now symmetry].
  - intros g' Hg'. apply Hother. now right.
Qed.

(** C10. The page category is keyed by the base name of the markup file
    and each markup file overwrites the entry of its base name: after the
    extraction of any sequence of files in scan order, the page entry for
    the base name of a markup file [f] is the entry of [f] itself as soon
    as no markup file scanned later has the same base name, whatever was
    scanned before it (in particular an earlier markup file with the same
    base name in another directory leaves no trace: last wins, where
    [addSymbol] keeps the first). *)
Theorem htmlPages_last_wins
  (before after : list Source) (f : Source) (s : Symbols) :
  dispatched f ->
  isMarkup f = true ->
  (forall g, In g after -> isMarkup g = true ->
     basename (src_path g) <> basename (src_path f)) ->
  own (htmlPages (extractAll (before ++ f :: after) s))
      (basename (src_path f))
  = Some (pageOf (src_path f) (src_text f)).
Proof.
  intros Hd Hm Hafter. unfold extractAll.
  rewrite fold_left_app. simpl.
  fold (extractAll before s).
  fold (extractAll after (extractSource (extractAll before s) f)).
  rewrite extractAll_pages_other by assumption.
  unfold extractSource. rewrite extractFile_pages.
  unfold isMarkup in Hm. rewrite Hm.
  apply own_assign_same. now apply markup_basename_ordinary.
Qed.

End PagesKept.

Lemma htmlPages_last_wins_witness :
  own (htmlPages (extractAll (ast := Toy.service) [adminIndex; shopIndex]
                    emptySymbols))
      "index.html"
  = Some {| p_file := "shop/index.html"; p_title := "Shop";
            p_scripts := [] |}.
Proof.
  apply (htmlPages_last_wins (ast := Toy.service) [adminIndex] [] shopIndex
           emptySymbols).
  - reflexivity.
  - reflexivity.
  - intros g [].
Defined.

(** ** Inline script blocks *)

Section InlineBlocks.
Import Indexer Walker.
Context {ast : AstService}.

(** The scan of the raw source lines records [i + 1]: for a tree without
    findings the whole extraction is that scan, and the line offset of
    the caller plays no part in it. *)
Lemma extractAstSymbols_line_scan root filePath lang s lineOffset :
  (forall kd, findAll root kd = []) ->
  extractAstSymbols root filePath lang s lineOffset =
  forLines (sourceLine filePath) 0 (splitOn "010" (text root)) s.
Proof.
  intros Hnone. unfold extractAstSymbols. rewrite !Hnone. simpl.
  destruct (isTS lang); reflexivity.
Qed.

(** A single-property export found on line [i] of the source text is
    recorded at [i + 1], whatever the line offset of the block the text
    comes from. *)
Lemma sourceLine_member_export filePath s i ln m :
  exec false memberExport ln = Some m ->
  inherited (group m 1) = false ->
  own (exports s) (group m 1) = None ->
  own (exports (sourceLine filePath s i ln)) (group m 1) =
  Some {| file := filePath; line := i + 1; usages := 1 |}.
Proof.
  intros Hm Hi Hnew. unfold sourceLine. rewrite Hm. simpl.
  now apply addSymbol_own_new.
Qed.

(** When the parser throws on the text of a block, [extractWithAst]
    catches the exception itself and returns: the block adds nothing,
    and the fallback in the caller's [catch] is never reached. *)
Lemma inlineBlock_parse_failure filePath content s m :
  parse JavaScript (group m 1) = None ->
  inlineBlock filePath content s m = s.
Proof.
  intros Hfail. unfold inlineBlock, extractWithAst. rewrite Hfail.
  destruct (negb _); reflexivity.
Qed.

End InlineBlocks.

(** ** The walker *)

Section WalkerLemmas.
Import Indexer Walker.
Context {ast : AstService} {coll : Collation}.

Lemma in_insertEntry e x l : In x (insertEntry e l) <-> x = e \/ In x l.
Proof.
  induction l as [|y l IH]; simpl.
  - intuition.
  - destruct (localeCompare (entryName e) (entryName y) <=? 0)%Z; simpl.
    + intuition.
    + rewrite IH. intuition.
Qed.

Lemma in_sortEntries x es : In x (sortEntries es) <-> In x es.
Proof.
  unfold sortEntries. induction es as [|e es IH]; simpl; [tauto|].
  rewrite in_insertEntry, IH. intuition.
Qed.

(** Sorting looks at the names only: it commutes with any change of the
    entries that keeps their names. *)
Lemma insertEntry_map (f : Dirent -> Dirent) :
  (forall e, entryName (f e) = entryName e) ->
  forall e l, insertEntry (f e) (map f l) = map f (insertEntry e l).
Proof.
  intros Hf e l. induction l as [|y l IH]; simpl; [reflexivity|].
  rewrite !Hf.
  destruct (localeCompare (entryName e) (entryName y) <=? 0)%Z; simpl.
  - reflexivity.
  - now rewrite IH.
Qed.

Lemma sortEntries_map (f : Dirent -> Dirent) :
  (forall e, entryName (f e) = entryName e) ->
  forall es, sortEntries (map f es) = map f (sortEntries es).
Proof.
  intros Hf es. unfold sortEntries.
  induction es as [|e es IH]; simpl; [reflexivity|].
  now rewrite IH, insertEntry_map.
Qed.

(** *** The recursion is bounded by the tree *)

Lemma walkEntries_ext rec1 rec2 rel maxFiles extraSkip es : forall st,
  (forall name sub st', In (DirEnt name sub) es ->
     rec1 (joinPath rel name) sub st' = rec2 (joinPath rel name) sub st') ->
  walkEntries rec1 rel maxFiles extraSkip es st =
  walkEntries rec2 rel maxFiles extraSkip es st.
Proof.
  induction es as [|e es IH]; intros st Hrec; simpl; [reflexivity|].
  destruct (full st maxFiles); [reflexivity|].
  assert (Htail : forall st0,
            walkEntries rec1 rel maxFiles extraSkip es st0 =
            walkEntries rec2 rel maxFiles extraSkip es st0).
  { intros st0. apply IH. intros name sub st' Hin. apply Hrec. now right. }
  destruct (skipped extraSkip e); [apply Htail|].
  destruct e as [name stat content|name sub].
  - destruct (LANG_MAP (extname name)); apply Htail.
  - rewrite (Hrec name sub st) by now left. apply Htail.
Qed.

Lemma nesting_le_list_max e es :
  In e es -> nesting e <= list_max (map nesting es).
Proof.
  intros Hin.
  assert (H : list_max (map nesting es) <= list_max (map nesting es))
    by reflexivity.
  apply list_max_le in H. rewrite Forall_forall in H.
  apply H. now apply in_map.
Qed.

(** Any fuel that covers the nesting of the tree gives the same walk. *)
Lemma walkDir_fuel fuel1 : forall fuel2 name rel entries st depth
                                  maxDepth maxFiles extraSkip,
  nesting (DirEnt name entries) <= fuel1 ->
  nesting (DirEnt name entries) <= fuel2 ->
  walkDir fuel1 rel entries st depth maxDepth maxFiles extraSkip =
  walkDir fuel2 rel entries st depth maxDepth maxFiles extraSkip.
Proof.
  induction fuel1 as [|fuel1 IH];
    intros fuel2 name rel entries st depth maxDepth maxFiles extraSkip H1 H2.
  - destruct entries; simpl in H1; lia.
  - destruct fuel2 as [|fuel2]; [destruct entries; simpl in H2; lia|].
    simpl. destruct (_ || _); [reflexivity|].
    destruct entries as [es|]; [|reflexivity].
    apply walkEntries_ext. intros n sub st' Hin.
    apply (proj1 (in_sortEntries _ _)) in Hin.
    apply nesting_le_list_max in Hin.
    simpl in H1, H2. apply (IH fuel2 n); lia.
Qed.

(** *** The file count *)

Lemma scanFile_limit relPath li stat content st maxFiles :
  full st maxFiles = false -> withinLimit maxFiles st ->
  withinLimit maxFiles (scanFile relPath li stat content st).
Proof.
  unfold full, withinLimit, scanFile. intros Hfull Hst.
  apply Z.leb_gt in Hfull.
  destruct stat as [sta|]; [|assumption].
  destruct (_ <? _)%N; [assumption|].
  destruct content as [text|]; [|assumption].
  simpl. rewrite length_app. simpl. lia.
Qed.

Lemma walkEntries_limit recurse rel maxFiles extraSkip es : forall st,
  (forall rel' sub st', withinLimit maxFiles st' ->
     withinLimit maxFiles (recurse rel' sub st')) ->
  withinLimit maxFiles st ->
  withinLimit maxFiles (walkEntries recurse rel maxFiles extraSkip es st).
Proof.
  induction es as [|e es IH]; intros st Hrec Hst; simpl; [assumption|].
  destruct (full st maxFiles) eqn:Hfull; [assumption|].
  destruct (skipped extraSkip e); [now apply IH|].
  destruct e as [name stat content|name sub].
  - destruct (LANG_MAP (extname name)); apply IH; try assumption.
    now apply scanFile_limit.
  - apply IH; [assumption|]. now apply Hrec.
Qed.

Lemma walkDir_limit fuel : forall rel entries st depth maxDepth maxFiles
                                  extraSkip,
  withinLimit maxFiles st ->
  withinLimit maxFiles
    (walkDir fuel rel entries st depth maxDepth maxFiles extraSkip).
Proof.
  induction fuel as [|fuel IH];
    intros rel entries st depth maxDepth maxFiles extraSkip Hst; simpl;
    [assumption|].
  destruct (_ || _); [assumption|].
  destruct entries as [es|]; [|assumption].
  apply walkEntries_limit; [|assumption].
  intros rel' sub st' Hst'. now apply IH.
Qed.

(** *** Directories beyond the depth limit *)

Lemma pruneEnt_name maxDepth depth e :
  entryName (pruneEnt maxDepth depth e) = entryName e.
Proof. destruct e; reflexivity. Qed.

Lemma pruneEnt_skipped maxDepth depth extraSkip e :
  skipped extraSkip (pruneEnt maxDepth depth e) = skipped extraSkip e.
Proof. destruct e; reflexivity. Qed.

Lemma pruneEnt_dir maxDepth depth name sub :
  pruneEnt maxDepth depth (DirEnt name sub) =
  DirEnt name (pruneListing maxDepth (depth + 1) sub).
Proof. reflexivity. Qed.

Lemma walkEntries_pruned rec1 rec2 rel maxFiles extraSkip maxDepth depth es :
  forall st,
  (forall name sub st',
     rec1 (joinPath rel name) (pruneListing maxDepth (depth + 1) sub) st' =
     rec2 (joinPath rel name) sub st') ->
  walkEntries rec1 rel maxFiles extraSkip
    (map (pruneEnt maxDepth depth) es) st =
  walkEntries rec2 rel maxFiles extraSkip es st.
Proof.
  induction es as [|e es IH]; intros st Hrec; simpl; [reflexivity|].
  destruct (full st maxFiles); [reflexivity|].
  rewrite pruneEnt_skipped.
  destruct (skipped extraSkip e); [now apply IH|].
  destruct e as [name stat content|name sub].
  - simpl. destruct (LANG_MAP (extname name)); now apply IH.
  - rewrite pruneEnt_dir, Hrec. now apply IH.
Qed.

(** The walk of a directory does not look below the depth limit. *)
Lemma walkDir_pruned fuel : forall rel entries st depth maxDepth maxFiles
                                   extraSkip,
  walkDir fuel rel (pruneListing maxDepth depth entries) st depth maxDepth
    maxFiles extraSkip =
  walkDir fuel rel entries st depth maxDepth maxFiles extraSkip.
Proof.
  induction fuel as [|fuel IH];
    intros rel entries st depth maxDepth maxFiles extraSkip; simpl;
    [reflexivity|].
  unfold pruneListing.
  destruct (maxDepth <? depth)%Z eqn:Hd; simpl; [reflexivity|].
  destruct (full st maxFiles); [reflexivity|].
  destruct entries as [es|]; [|reflexivity].
  rewrite sortEntries_map by (intros; apply pruneEnt_name).
  apply walkEntries_pruned. intros name sub st'. apply IH.
Qed.

Lemma findFile_pruned maxDepth depth name es :
  findFile name (map (pruneEnt maxDepth depth) es) = findFile name es.
Proof.
  induction es as [|e es IH]; simpl; [reflexivity|].
  destruct e as [n stat content|n sub]; simpl; now rewrite IH.
Qed.

Lemma walkDir_below_limit fuel rel entries st depth maxDepth maxFiles
  extraSkip :
  (maxDepth <? depth)%Z = true ->
  walkDir fuel rel entries st depth maxDepth maxFiles extraSkip = st.
Proof. intros H. destruct fuel; simpl; [reflexivity|]. now rewrite H. Qed.

(** C8, as amended. For every project tree and every options value
    [scanProject] returns a result (the walk is a total function: every
    file-system call that may throw is at a [catch], and a limit ends the
    walk, it raises nothing). The limits in force are [options.maxFiles]
    and [options.maxDepth] when present and not 0, and the defaults 2000
    and 8 otherwise. The files list has at most as many entries as the
    limit in force (none when it is negative), and directories nested
    deeper than the depth in force contribute nothing: the result is that
    of the scan of the tree in which they are empty. *)
Theorem scanProject_limits (root : option (list Dirent)) (options : Options) :
  List.length (files (scanProject root options))
    <= Z.to_nat (orDefault (opt_maxFiles options) 2000) /\
  scanProject
    (pruneListing (orDefault (opt_maxDepth options) 8) 0 root) options
  = scanProject root options.
Proof.
  split.
  - unfold scanProject. apply walkDir_limit. unfold withinLimit. simpl. lia.
  - unfold scanProject.
    set (maxDepth := orDefault (opt_maxDepth options) 8).
    set (maxFiles := orDefault (opt_maxFiles options) 2000).
    set (st0 := {| files := []; symbols := emptySymbols |}).
    destruct (maxDepth <? 0)%Z eqn:Hd.
    + now rewrite !walkDir_below_limit.
    + assert (Hskip : readGitignoreDirs (pruneListing maxDepth 0 root) =
                      readGitignoreDirs root).
      { unfold pruneListing. rewrite Hd. destruct root as [es|];
          [|reflexivity].
        simpl. now rewrite findFile_pruned. }
      rewrite Hskip.
      set (pruned := pruneListing maxDepth 0 root).
      set (fuel := Nat.max (nesting (DirEnt "" pruned))
                           (nesting (DirEnt "" root))).
      rewrite (walkDir_fuel (nesting (DirEnt "" pruned)) fuel "")
        by (subst fuel; lia).
      rewrite (walkDir_fuel (nesting (DirEnt "" root)) fuel "")
        by (subst fuel; lia).
      apply walkDir_pruned.
Qed.

End WalkerLemmas.

(** C8, the claim as stated fails: with [maxFiles: 0] and [maxDepth: 0]
    both limits fall back to their defaults. The files list has two
    entries, more than the 0 asked for, and the directory [src], nested
    deeper than 0, contributes its file. (With [maxFiles: -1] the list is
    empty, which is still more than the limit.) *)
Lemma scanProject_zero_options_fall_back :
  map Walker.sf_path
      (Walker.files
         (Walker.scanProject (ast := Toy.service) (coll := Toy.byCodeUnit)
            (Some smallProject)
            {| Walker.opt_maxDepth := Some 0%Z;
               Walker.opt_maxFiles := Some 0%Z |}))
  = ["a.js"; "src/b.js"] /\
  Walker.files
    (Walker.scanProject (ast := Toy.service) (coll := Toy.byCodeUnit)
       (Some smallProject)
       {| Walker.opt_maxDepth := None;
          Walker.opt_maxFiles := Some (-1)%Z |})
  = [].
Proof. vm_compute. split; reflexivity. Qed.

(** ** The matcher *)

Section MatcherLemmas.
Import Regex.

(** Where a successful match hands over to its continuation: not before
    the position it started from, and with the captures it was given when
    the pattern has no group. *)
Lemma greedyLoop_sound (body : matcher) free :
  (forall x cs k res, body x cs k = Some res -> handsOver free x cs k res) ->
  forall k fuel x cs res,
    greedyLoop body k fuel x cs = Some res -> handsOver free x cs k res.
Proof.
  intros Hbody k fuel.
  induction fuel as [|fuel IH]; intros x cs res H; simpl in H.
  - exists x, cs. auto.
  - unfold orElse in H.
    destruct (body x cs _) eqn:E.
    + injection H as H. subst res. apply Hbody in E.
      destruct E as (y & cs' & E & Hle & Hc).
      destruct (index x <? index y); [|discriminate].
      apply IH in E. destruct E as (y2 & cs2 & E & Hle2 & Hc2).
      exists y2, cs2. split; [exact E|]. split; [lia|].
      intros Hf. rewrite Hc2, Hc; auto.
    + exists x, cs. auto.
Qed.

Lemma lazyLoop_sound (body : matcher) free :
  (forall x cs k res, body x cs k = Some res -> handsOver free x cs k res) ->
  forall k fuel x cs res,
    lazyLoop body k fuel x cs = Some res -> handsOver free x cs k res.
Proof.
  intros Hbody k fuel.
  induction fuel as [|fuel IH]; intros x cs res H; simpl in H.
  - exists x, cs. auto.
  - unfold orElse in H. destruct (k x cs) eqn:Ek.
    + injection H as H. subst res. exists x, cs. auto.
    + apply Hbody in H. destruct H as (y & cs' & E & Hle & Hc).
      destruct (index x <? index y); [|discriminate].
      apply IH in E. destruct E as (y2 & cs2 & E & Hle2 & Hc2).
      exists y2, cs2. split; [exact E|]. split; [lia|].
      intros Hf. rewrite Hc2, Hc; auto.
Qed.

(** Where a successful match hands over to its continuation: not before
    the position it started from, and with the captures it was given when
    the pattern has no group. *)
Lemma run_sound ci r : forall x cs k res,
  run ci r x cs k = Some res -> handsOver (capFree r) x cs k res.
Proof.
  induction r as [ |c|items|items|r1 IH1 r2 IH2|r1 IH1 r2 IH2|r1 IH1|r1 IH1
                 |n r1 IH1| | | |r1 IH1];
    intros x cs k res H; simpl in H.
  - exists x, cs. auto.
  - unfold step in H. destruct (after x) as [|d t]; [discriminate|].
    destruct (sameChar ci d c); [|discriminate].
    eexists _, cs. split; [exact H|]. simpl. auto.
  - unfold step in H. destruct (after x) as [|d t]; [discriminate|].
    destruct (inClass ci items d); [|discriminate].
    eexists _, cs. split; [exact H|]. simpl. auto.
  - unfold step in H. destruct (after x) as [|d t]; [discriminate|].
    destruct (inClass ci items d); [discriminate|].
    eexists _, cs. split; [exact H|]. simpl. auto.
  - apply IH1 in H. destruct H as (y1 & cs1 & H & Hle1 & Hc1).
    apply IH2 in H. destruct H as (y2 & cs2 & H & Hle2 & Hc2).
    exists y2, cs2. split; [exact H|]. split; [lia|].
    simpl. intros Hf. apply andb_true_iff in Hf. destruct Hf as [F1 F2].
    rewrite Hc2, Hc1; auto.
  - unfold orElse in H.
    destruct (run ci r1 x cs k) eqn:E.
    + injection H as H. subst res. apply IH1 in E.
      destruct E as (y & cs' & E & Hle & Hc). exists y, cs'.
      repeat split; auto. simpl. intros Hf.
      apply andb_true_iff in Hf. tauto.
    + apply IH2 in H. destruct H as (y & cs' & E' & Hle & Hc).
      exists y, cs'. repeat split; auto. simpl. intros Hf.
      apply andb_true_iff in Hf. tauto.
  - change (greedyLoop (run ci r1) k (S (List.length (after x))) x cs
            = Some res) in H.
    eapply greedyLoop_sound in H; [exact H|]. exact IH1.
  - change (lazyLoop (run ci r1) k (S (List.length (after x))) x cs
            = Some res) in H.
    eapply lazyLoop_sound in H; [exact H|]. exact IH1.
  - apply IH1 in H. destruct H as (y & cs' & H & Hle & _).
    eexists y, _. split; [exact H|]. split; [exact Hle|].
    simpl. discriminate.
  - destruct (index x =? 0); [|discriminate]. exists x, cs. auto.
  - destruct (after x); [|discriminate]. exists x, cs. auto.
  - destruct (xorb _ _); [|discriminate]. exists x, cs. auto.
  - destruct (run ci r1 x cs _); [discriminate|]. exists x, cs. auto.
Qed.

(** A pattern anchored at the start of the subject matches at index 0 or
    not at all. *)
Lemma search_anchored ci r aft : forall bef idx,
  search ci (Seq Bol r) bef aft (S idx) = None.
Proof.
  induction aft as [|c aft IH]; intros bef idx; simpl; [reflexivity|].
  apply IH.
Qed.

Lemma exec_anchored ci r c rest :
  exec ci (Seq Bol r) (String c rest) =
  match run ci r {| before := None; after := c :: chars rest; index := 0 |}
            [] (fun y cs => Some (y, cs)) with
  | Some (y, cs) =>
      Some {| f_index := 0;
              f_text := firstn (index y - 0) (c :: chars rest);
              f_end := y; f_caps := cs |}
  | None => None
  end.
Proof.
  unfold exec. simpl.
  destruct (run ci r _ [] _) as [[y cs]|]; [reflexivity|].
  apply search_anchored.
Qed.

End MatcherLemmas.

(** ** The Python extractor *)

Section PythonLemmas.
Import Regex Heuristic.

Lemma word_not_space c : isWord c = true -> isSpace c = false.
Proof.
  destruct c as [[] [] [] [] [] [] [] []]; intros H;
    try reflexivity; discriminate H.
Qed.

Lemma upper_fixed_not_lower c : c = upperChar c -> isLower c = false.
Proof.
  destruct c as [[] [] [] [] [] [] [] []]; intros H;
    try reflexivity; discriminate H.
Qed.

(** A top-level [def] line starts with the [a] of [async] or with the
    [d] of [def]. *)
Lemma pyFuncDef_first c rest :
  Ascii.eqb c "a" = false -> Ascii.eqb c "d" = false ->
  exec false pyFuncDef (String c rest) = None.
Proof.
  intros Ea Ed. unfold pyFuncDef. cbn [Seqs]. rewrite exec_anchored.
  simpl. unfold step. simpl. rewrite Ea. simpl. rewrite Ed. reflexivity.
Qed.

Lemma pyClassDef_first c rest :
  Ascii.eqb c "c" = false ->
  exec false pyClassDef (String c rest) = None.
Proof.
  intros Ec. unfold pyClassDef. cbn [Seqs]. rewrite exec_anchored.
  simpl. unfold step. simpl. rewrite Ec. reflexivity.
Qed.

Lemma pyMethodDef_first c rest :
  isSpace c = false ->
  exec false pyMethodDef (String c rest) = None.
Proof.
  intros Es. unfold pyMethodDef. cbn [Seqs]. rewrite exec_anchored.
  simpl. unfold step. simpl. unfold inClass. simpl. rewrite Es. reflexivity.
Qed.

(** A line matched by the assignment pattern starts with a word
    character, and the captured name starts with that character. *)
Lemma pyVarAssign_shape ln v :
  exec false pyVarAssign ln = Some v ->
  exists c rest tail,
    ln = String c rest /\ isWord c = true /\ group v 1 = String c tail.
Proof.
  destruct ln as [|c rest]; [vm_compute; discriminate|].
  unfold pyVarAssign. cbn [Seqs]. rewrite exec_anchored.
  set (x0 := {| before := None; after := c :: chars rest; index := 0 |}).
  destruct (run false _ x0 [] _) as [[y cs]|] eqn:E; [|discriminate].
  intros Hv. injection Hv as Hv. subst v.
  exists c, rest.
  change (run false (Cap 1 (Plus w)) x0 []
            (fun y1 cs1 =>
               run false
                 (Seq (Star sp)
                    (Seq (Opt (Seqs [Chr ":"; Star sp; Plus w; Star sp]))
                         (Chr "=")))
                 y1 cs1 (fun y2 cs2 => Some (y2, cs2)))
          = Some (y, cs)) in E.
  change (run false (Cap 1 (Plus w)) x0 [] ?k)
    with (match step x0 with
          | Some (d, x1) =>
              if inClass false [Word] d
              then run false (Star w) x1 []
                     (fun y1 cs1 =>
                        k y1 ((1, firstn (index y1 - index x0) (after x0))
                              :: cs1))
              else None
          | None => None
          end) in E.
  unfold step in E. simpl after in E.
  unfold inClass in E. simpl existsb in E. rewrite orb_false_r in E.
  destruct (isWord c) eqn:Hw; [|discriminate].
  apply run_sound in E.
  destruct E as (y1 & cs1 & E & Hle & Hfree).
  rewrite (Hfree eq_refl) in E. clear Hfree.
  apply run_sound in E.
  destruct E as (y2 & cs2 & E & _ & Hfree).
  injection E as E1 E2. subst y2 cs2.
  rewrite (Hfree eq_refl). simpl in Hle.
  destruct (index y1) as [|n] eqn:Hn; [lia|].
  exists (ofChars (firstn n (chars rest))).
  repeat split.
Qed.

Lemma inherited_has_lower name :
  inherited name = true -> name <> toUpperCase name.
Proof.
  unfold inherited. intros H. apply mem_true_iff in H.
  unfold objectPrototypeKeys in H. simpl in H.
  repeat (destruct H as [H|H]; [subst name; discriminate|]).
  contradiction.
Qed.

Lemma addSymbol_keeps c name filePath ln n e :
  own c n = Some e -> exists e', own (addSymbol c name filePath ln) n = Some e'.
Proof.
  intros He. destruct (String.eqb n name) eqn:E.
  - apply String.eqb_eq in E. subst n.
    rewrite (addSymbol_own_seen c name filePath ln e He). eauto.
  - apply String.eqb_neq in E. rewrite addSymbol_own_other by assumption.
    eauto.
Qed.

Lemma addTo_present c c' s name filePath ln n :
  present c s n -> present c (addTo c' s name filePath ln) n.
Proof.
  unfold present. intros [e He].
  destruct c, c'; simpl; eauto using addSymbol_keeps.
Qed.

Lemma addTo_present_new c s name filePath ln :
  inherited name = false -> present c (addTo c s name filePath ln) name.
Proof.
  intros Hi. unfold present.
  assert (H : exists e, own (addSymbol (getCat c s) name filePath ln) name
                        = Some e).
  { destruct (own (getCat c s) name) as [e|] eqn:E.
    - eapply addSymbol_keeps; eauto.
    - rewrite addSymbol_own_new by assumption. eauto. }
  destruct c; exact H.
Qed.

Lemma pythonLine_present filePath c s i ln n :
  present c s n -> present c (pythonLine filePath s i ln) n.
Proof.
  intros H. unfold pythonLine, pythonAssign.
  repeat match goal with
         | |- context [match ?x with _ => _ end] => destruct x
         end;
  auto using addTo_present.
Qed.

Lemma forLines_present (f : Symbols -> nat -> string -> Symbols) c n :
  (forall s i ln, present c s n -> present c (f s i ln) n) ->
  forall lines i s, present c s n -> present c (forLines f i lines s) n.
Proof.
  intros Hf lines. induction lines as [|l lines IH]; intros i s H; simpl;
    auto.
Qed.

Lemma forLines_split (f : Symbols -> nat -> string -> Symbols) lines :
  forall j ln i s, nth_error lines j = Some ln ->
  exists pre post,
    forLines f i lines s =
    forLines f (S (i + j)) post (f (forLines f i pre s) (i + j) ln).
Proof.
  induction lines as [|l lines IH]; intros j ln i s Hj.
  - destruct j; discriminate.
  - destruct j as [|j]; simpl in Hj.
    + injection Hj as Hj. subst l. exists [], lines. simpl.
      now rewrite Nat.add_0_r.
    + destruct (IH j ln (S i) (f s i l) Hj) as (pre & post & E).
      exists (l :: pre), post. simpl. rewrite E.
      now replace (S i + j) with (i + S j) by lia.
Qed.

(** What a line can add to the function category. *)
Lemma pythonLine_functions filePath s i ln name :
  own (functions s) name = None ->
  own (functions (pythonLine filePath s i ln)) name <> None ->
  (exists m, exec false pyFuncDef ln = Some m /\ group m 1 = name) \/
  (exists m, exec false pyMethodDef ln = Some m /\ group m 1 = name /\
             startsWith name "_" = false).
Proof.
  intros Hnone. unfold pythonLine, pythonAssign.
  destruct (exec false pyFuncDef ln) as [m|] eqn:Ef.
  - intros H. left. exists m. split; [reflexivity|].
    destruct (String.eqb name (group m 1)) eqn:E.
    + apply String.eqb_eq in E. now symmetry.
    + apply String.eqb_neq in E. simpl in H.
      rewrite addSymbol_own_other in H by assumption. contradiction.
  - destruct (exec false pyClassDef ln) as [mc|];
      [simpl; intros H; contradiction|].
    destruct (exec false pyMethodDef ln) as [mm|] eqn:Em.
    + destruct (startsWith (group mm 1) "_") eqn:Eu; simpl.
      * destruct (exec false pyVarAssign ln) as [v|];
          [destruct (String.eqb _ _)|]; simpl; intros H; contradiction.
      * intros H. right. exists mm. split; [reflexivity|].
        destruct (String.eqb name (group mm 1)) eqn:E.
        -- apply String.eqb_eq in E. subst name. auto.
        -- apply String.eqb_neq in E.
           rewrite addSymbol_own_other in H by assumption. contradiction.
    + destruct (exec false pyVarAssign ln) as [v|];
        [destruct (String.eqb _ _)|]; simpl; intros H; contradiction.
Qed.

Lemma forLines_functions filePath name lines : forall i s,
  own (functions s) name = None ->
  own (functions (forLines (pythonLine filePath) i lines s)) name <> None ->
  exists j ln, nth_error lines j = Some ln /\
    ((exists m, exec false pyFuncDef ln = Some m /\ group m 1 = name) \/
     (exists m, exec false pyMethodDef ln = Some m /\ group m 1 = name /\
                startsWith name "_" = false)).
Proof.
  induction lines as [|l lines IH]; intros i s Hnone H; simpl in H.
  - contradiction.
  - destruct (own (functions (pythonLine filePath s i l)) name) eqn:E.
    + exists 0, l. split; [reflexivity|].
      apply (pythonLine_functions filePath s i l name Hnone). congruence.
    + destruct (IH (S i) _ E H) as (j & ln & Hj & Hfrom).
      exists (S j), ln. split; assumption.
Qed.

(** C7, the claim as stated fails: a definition in the first column whose
    name begins with an underscore is added to the function category. *)
Lemma extractPython_keeps_private_def :
  own (functions (extractPython "util.py" ["def _hidden(x):"] emptySymbols))
      "_hidden"
  = Some {| file := "util.py"; line := 1; usages := 1 |}.
Proof. reflexivity. Qed.
End PythonLemmas.

(** ** levenshtein is a metric *)

Lemma min3_swap x y z : min3 x y z = min3 x z y.
Proof. unfold min3. lia. Qed.

Lemma ascii_eqb_sym (c d : ascii) : Ascii.eqb c d = Ascii.eqb d c.
Proof.
  destruct (Ascii.eqb c d) eqn:E.
  - apply Ascii.eqb_eq in E. subst. symmetry. apply Ascii.eqb_refl.
  - destruct (Ascii.eqb d c) eqn:E'; [|reflexivity].
    apply Ascii.eqb_eq in E'. subst. now rewrite Ascii.eqb_refl in E.
Qed.

Lemma levAt_sym a b : forall i j, levAt a b i j = levAt b a j i.
Proof.
  induction i as [|i IHi]; intros j.
  - now rewrite levAt_left.
  - induction j as [|j IHj].
    + now rewrite levAt_left.
    + rewrite !levAt_step, (ascii_eqb_sym (nth j a zero)), min3_swap.
      now rewrite IHj, !IHi.
Qed.

Lemma levAt_bounds a b : forall i j,
  absDiff i j <= levAt a b i j /\ levAt a b i j <= Nat.max i j.
Proof.
  unfold absDiff.
  induction i as [|i IHi]; intros j.
  - simpl. lia.
  - induction j as [|j IHj].
    + rewrite levAt_left. lia.
    + rewrite levAt_step.
      pose proof (IHi j). pose proof (IHi (S j)).
      destruct (Ascii.eqb _ _); unfold min3; lia.
Qed.

(** Neighbouring cells of the matrix differ by at most one. *)
Lemma levAt_lipschitz a b : forall i j,
  (levAt a b i j <= 1 + levAt a b i (S j) /\
   levAt a b i (S j) <= 1 + levAt a b i j) /\
  (levAt a b i j <= 1 + levAt a b (S i) j /\
   levAt a b (S i) j <= 1 + levAt a b i j).
Proof.
  assert (V : forall i,
    (forall j, levAt a b i j <= 1 + levAt a b i (S j) /\
               levAt a b i (S j) <= 1 + levAt a b i j) ->
    forall j, levAt a b i j <= 1 + levAt a b (S i) j /\
              levAt a b (S i) j <= 1 + levAt a b i j).
  { intros i H. induction j as [|j IHj].
    - rewrite !levAt_left. lia.
    - rewrite (levAt_step a b i j). pose proof (H j).
      destruct (Ascii.eqb _ _); unfold min3; lia. }
  induction i as [|i IHi].
  - assert (H0 : forall j, levAt a b 0 j <= 1 + levAt a b 0 (S j) /\
                           levAt a b 0 (S j) <= 1 + levAt a b 0 j).
    { intros j. simpl. lia. }
    intros j. split; [apply H0|apply V, H0].
  - assert (H : forall j, levAt a b (S i) j <= 1 + levAt a b (S i) (S j) /\
                          levAt a b (S i) (S j) <= 1 + levAt a b (S i) j).
    { intros j. rewrite (levAt_step a b i j).
      pose proof (IHi j) as [? ?]. pose proof (IHi (S j)) as [? ?].
      destruct (Ascii.eqb _ _); unfold min3; lia. }
    intros j. split; [apply H|apply V, H].
Qed.

Lemma levAt_triangle a b c : forall n i j k,
  i + j + k <= n ->
  levAt a c k i <= levAt a b j i + levAt b c k j.
Proof.
  induction n as [|n IH]; intros i j k Hn.
  - assert (i = 0) by lia. assert (j = 0) by lia. assert (k = 0) by lia.
    subst. simpl. lia.
  - destruct i as [|i].
    + pose proof (levAt_bounds b c k j). pose proof (levAt_bounds a b j 0).
      pose proof (levAt_bounds a c k 0). unfold absDiff in *. lia.
    + destruct j as [|j].
      * pose proof (levAt_bounds b c k 0). pose proof (levAt_bounds a b 0 (S i)).
        pose proof (levAt_bounds a c k (S i)). unfold absDiff in *. lia.
      * destruct k as [|k].
        -- pose proof (levAt_bounds b c 0 (S j)).
           pose proof (levAt_bounds a b (S j) (S i)).
           pose proof (levAt_bounds a c 0 (S i)). unfold absDiff in *. lia.
        -- pose proof (IH i (S j) (S k) ltac:(lia)).
           pose proof (IH (S i) j (S k) ltac:(lia)).
           pose proof (IH (S i) (S j) k ltac:(lia)).
           pose proof (IH i j (S k) ltac:(lia)).
           pose proof (IH (S i) j k ltac:(lia)).
           pose proof (IH i (S j) k ltac:(lia)).
           pose proof (IH i j k ltac:(lia)).
           pose proof (levAt_lipschitz a c k i).
           pose proof (levAt_lipschitz a c k (S i)).
           pose proof (levAt_lipschitz a c (S k) i).
           rewrite (levAt_step a c k i), (levAt_step a b j i),
                   (levAt_step b c k j) in *.
           destruct (Ascii.eqb (nth j b zero) (nth i a zero)) eqn:E1;
           destruct (Ascii.eqb (nth k c zero) (nth j b zero)) eqn:E2;
           destruct (Ascii.eqb (nth k c zero) (nth i a zero)) eqn:E3;
           try (apply Ascii.eqb_eq in E1; apply Ascii.eqb_eq in E2;
                rewrite E2, E1, Ascii.eqb_refl in E3; discriminate);
           unfold min3 in *; lia.
Qed.

(** ** findFuzzyMatch picks the closest name *)

Lemma levenshtein_length_gap a b :
  absDiff (String.length a) (String.length b) <= levenshtein a b.
Proof.
  rewrite levenshtein_editDistance. unfold editDistance.
  destruct (levAt_bounds (chars a) (chars b) (String.length b)
              (String.length a)) as [H _].
  unfold absDiff in *. lia.
Qed.

Lemma gate_closed_far query name :
  withinGate query name = false ->
  maxDistanceOf query < fuzzyDistance query name.
Proof.
  unfold withinGate, fuzzyDistance. intros G. apply Nat.leb_gt in G.
  pose proof (levenshtein_length_gap (toLowerCase query) (toLowerCase name)) as H.
  rewrite !length_toLowerCase in H. unfold absDiff in *. lia.
Qed.

Lemma fuzzyStep_best query seen st name :
  fuzzyBest query seen st ->
  fuzzyBest query (seen ++ [name])
    (fuzzyStep query (maxDistanceOf query) st name).
Proof.
  intros Hst. unfold fuzzyStep.
  assert (Hkeep : maxDistanceOf query < fuzzyDistance query name \/
                  (exists b d, st = (Some b, Some d) /\
                               d <= fuzzyDistance query name) ->
                  fuzzyBest query (seen ++ [name]) st).
  { intros Hfar. destruct st as [[b|] [d|]]; simpl in *; try tauto.
    - destruct Hst as (Hd & Hle & pre & post & Hs & Hpre & Hpost).
      repeat split; try assumption.
      exists pre, (post ++ [name]). split; [|split].
      + rewrite Hs, <- app_assoc. reflexivity.
      + assumption.
      + intros n Hn. apply in_app_iff in Hn. destruct Hn as [Hn|[<-|[]]]; auto.
        destruct Hfar as [Hfar|(b' & d' & E & Hfar)]; [lia|].
        injection E as <- <-. exact Hfar.
    - intros n Hn. apply in_app_iff in Hn. destruct Hn as [Hn|[<-|[]]]; auto.
      destruct Hfar as [Hfar|(b' & d' & E & _)]; [assumption|discriminate]. }
  destruct (maxDistanceOf query <?
            absDiff (String.length name) (String.length query)) eqn:G.
  - apply Hkeep. left. apply gate_closed_far. unfold withinGate.
    apply Nat.leb_gt. now apply Nat.ltb_lt in G.
  - fold (fuzzyDistance query name).
    destruct (fuzzyDistance query name <=? maxDistanceOf query) eqn:D; simpl.
    + apply Nat.leb_le in D.
      destruct st as [[b|] [d|]]; simpl in *; try tauto.
      * destruct Hst as (Hd & Hle & pre & post & Hs & Hpre & Hpost).
        destruct (fuzzyDistance query name <? d) eqn:B; simpl.
        -- apply Nat.ltb_lt in B. repeat split; try assumption.
           exists seen, []. split; [reflexivity|]. split; [|intros n []].
           intros n Hn. rewrite Hs in Hn. apply in_app_iff in Hn.
           destruct Hn as [Hn|[<-|Hn]].
           ++ specialize (Hpre n Hn). lia.
           ++ lia.
           ++ specialize (Hpost n Hn). lia.
        -- apply Nat.ltb_ge in B. repeat split; try assumption.
           exists pre, (post ++ [name]). split; [|split].
           ++ rewrite Hs, <- app_assoc. reflexivity.
           ++ assumption.
           ++ intros n Hn. apply in_app_iff in Hn.
              destruct Hn as [Hn|[<-|[]]]; auto.
      * repeat split; try assumption.
        exists seen, []. split; [reflexivity|]. split; [|intros n []].
        intros n Hn. specialize (Hst n Hn). lia.
    + apply Hkeep. left. now apply Nat.leb_gt in D.
Qed.

Lemma fuzzyFold_best query names : forall seen st,
  fuzzyBest query seen st ->
  fuzzyBest query (seen ++ names)
    (fold_left (fuzzyStep query (maxDistanceOf query)) names st).
Proof.
  induction names as [|n names IH]; intros seen st Hst; simpl.
  - now rewrite app_nil_r.
  - replace (seen ++ n :: names) with ((seen ++ [n]) ++ names)
      by (rewrite <- app_assoc; reflexivity).
    apply IH, fuzzyStep_best, Hst.
Qed.

Lemma findFuzzyMatch_state query names :
  fuzzyBest query names
    (fold_left (fuzzyStep query (maxDistanceOf query)) names (None, None)).
Proof.
  apply (fuzzyFold_best query names [] (None, None)). intros n [].
Qed.

(** X1. [levenshtein] is a metric on strings: the distance of two strings
    is 0 exactly when they are equal, it does not depend on the order of
    the two arguments, and it obeys the triangle inequality. *)
Theorem levenshtein_metric (a b c : string) :
  (levenshtein a b = 0 <-> a = b) /\
  levenshtein a b = levenshtein b a /\
  levenshtein a c <= levenshtein a b + levenshtein b c.
Proof.
  split; [split|split].
  - rewrite levenshtein_editDistance. apply editDistance_zero.
  - intros ->. apply levenshtein_same.
  - rewrite !levenshtein_editDistance. unfold editDistance. apply levAt_sym.
  - rewrite !levenshtein_editDistance. unfold editDistance.
    eapply levAt_triangle. reflexivity.
Qed.

(** X2. The distance computed by [levenshtein] is at least the difference
    of the two lengths and at most the greater length. *)
Theorem levenshtein_length_bounds (a b : string) :
  absDiff (String.length a) (String.length b) <= levenshtein a b /\
  levenshtein a b <= Nat.max (String.length a) (String.length b).
Proof.
  split; [apply levenshtein_length_gap|].
  rewrite levenshtein_editDistance. unfold editDistance.
  destruct (levAt_bounds (chars a) (chars b) (String.length b)
              (String.length a)) as [_ H].
  lia.
Qed.

(** X3. The length test of [findFuzzyMatch] is only a shortcut: a name it
    skips (its length differs from the query's by more than the limit)
    is farther from the query than the limit, so the distance test that
    follows would have rejected it as well. *)
Theorem length_gate_skips_only_far_names (query name : string) :
  maxDistanceOf query < absDiff (String.length name) (String.length query) ->
  maxDistanceOf query < levenshtein (toLowerCase query) (toLowerCase name).
Proof.
  intros G. apply gate_closed_far. unfold withinGate. now apply Nat.leb_gt.
Qed.

Lemma length_gate_skips_only_far_names_witness :
  maxDistanceOf "getUser" < absDiff (String.length "getUserProfileById")
                                    (String.length "getUser") /\
  maxDistanceOf "getUser" <
    levenshtein (toLowerCase "getUser") (toLowerCase "getUserProfileById").
Proof.
  assert (G : maxDistanceOf "getUser" <
              absDiff (String.length "getUserProfileById")
                      (String.length "getUser")) by (vm_compute; lia).
  split; [exact G|].
  apply (length_gate_skips_only_far_names "getUser" "getUserProfileById" G).
Defined.

(** X4. A match returned by [findFuzzyMatch] is a closest name: its
    distance is the Levenshtein distance of the lower-cased query and
    name, it is within the limit, no name of the set is closer, and among
    the names at that distance it is the first in iteration order. *)
Theorem findFuzzyMatch_closest (query : string) (names : list string)
  (m : FuzzyMatch) :
  findFuzzyMatch query names = Some m ->
  m_distance m = levenshtein (toLowerCase query) (toLowerCase (m_name m)) /\
  m_distance m <= maxDistanceOf query /\
  exists pre post,
    names = pre ++ m_name m :: post /\
    (forall n, In n pre ->
       m_distance m < levenshtein (toLowerCase query) (toLowerCase n)) /\
    (forall n, In n post ->
       m_distance m <= levenshtein (toLowerCase query) (toLowerCase n)).
Proof.
  unfold findFuzzyMatch. intros H.
  pose proof (findFuzzyMatch_state query names) as Hst.
  destruct (fold_left (fuzzyStep query (maxDistanceOf query)) names
              (None, None)) as [[b|] [d|]]; try discriminate.
  destruct (nonEmpty b); [|discriminate].
  injection H as H. subst m. exact Hst.
Qed.

Lemma findFuzzyMatch_closest_witness :
  exists pre post,
    ["getUsers"; "setUser"; "getUser"] = pre ++ "getUser" :: post /\
    (forall n, In n pre ->
       0 < levenshtein (toLowerCase "GetUser") (toLowerCase n)).
Proof.
  destruct (findFuzzyMatch_closest "GetUser" ["getUsers"; "setUser"; "getUser"]
              {| m_name := "getUser"; m_distance := 0 |} eq_refl)
    as (_ & _ & pre & post & E & Hpre & _).
  exists pre, post. split; [exact E|exact Hpre].
Defined.

(** X5. When no name of the set is empty, [findFuzzyMatch] answers null
    exactly when every name is farther from the query than the limit
    [max(2, floor(0.3 * length))]. *)
Theorem findFuzzyMatch_none_iff (query : string) (names : list string) :
  (forall n, In n names -> n <> EmptyString) ->
  (findFuzzyMatch query names = None <->
   forall n, In n names ->
     maxDistanceOf query < levenshtein (toLowerCase query) (toLowerCase n)).
Proof.
  intros Hne. unfold findFuzzyMatch.
  pose proof (findFuzzyMatch_state query names) as Hst.
  destruct (fold_left (fuzzyStep query (maxDistanceOf query)) names
              (None, None)) as [[b|] [d|]]; simpl in Hst; try tauto.
  destruct Hst as (Hd & Hle & pre & post & Hs & _).
  assert (Hin : In b names).
  { rewrite Hs. apply in_app_iff. right. now left. }
  destruct b as [|c b]; [now apply Hne in Hin|]. simpl.
  split; [discriminate|].
  intros Hfar. specialize (Hfar _ Hin).
  unfold fuzzyDistance in Hd. lia.
Qed.

Lemma findFuzzyMatch_none_iff_witness :
  findFuzzyMatch "renderChart" ["getUser"; "saveUser"] = None.
Proof.
  apply (findFuzzyMatch_none_iff "renderChart" ["getUser"; "saveUser"]).
  - intros n [<-|[<-|[]]]; discriminate.
  - intros n [<-|[<-|[]]]; vm_compute; lia.
Defined.

(** ** checkSymbols sorts every queried name into one list *)

Lemma checkSymbols_lists reg syms : forall r,
  let r' := fold_left (checkOne reg (allNames reg)) syms r in
  map k_name (known r') =
    map k_name (known r) ++ filter (inRegistry reg) syms /\
  map queried (fuzzy r') =
    map queried (fuzzy r) ++ filter (hasSuggestion reg) syms /\
  unknown r' = unknown r ++ filter (hasNoSuggestion reg) syms.
Proof.
  induction syms as [|s syms IH]; intros r; simpl.
  - now rewrite !app_nil_r.
  - specialize (IH (checkOne reg (allNames reg) r s)). simpl in IH.
    destruct IH as (Hk & Hf & Hu). rewrite Hk, Hf, Hu. clear Hk Hf Hu.
    unfold checkOne, hasSuggestion, hasNoSuggestion, inRegistry.
    destruct (mem s (allNames reg)) eqn:Em; simpl.
    + apply mem_true_iff in Em.
      destruct (firstCategoryWith_known reg s Em) as (cn & e & ->). simpl.
      rewrite map_app, <- app_assoc. repeat split; reflexivity.
    + destruct (findFuzzyMatch s (allNames reg)) as [m|] eqn:Ef; simpl.
      * destruct (findFuzzyMatch_sound s (allNames reg) m Ef) as (Hin & _).
        destruct (firstCategoryWith_known reg (m_name m) Hin)
          as (cn & e & ->). simpl.
        rewrite map_app, <- app_assoc. repeat split; reflexivity.
      * rewrite <- app_assoc. repeat split; reflexivity.
Qed.

Lemma filter_three_way {A} (p q r : A -> bool) (l : list A) :
  (forall x, (p x && negb (q x) && negb (r x)) ||
             (negb (p x) && q x && negb (r x)) ||
             (negb (p x) && negb (q x) && r x) = true) ->
  List.length (filter p l) + List.length (filter q l)
  + List.length (filter r l) = List.length l.
Proof.
  intros H. induction l as [|x l IH]; simpl; [reflexivity|].
  specialize (H x). destruct (p x), (q x), (r x); simpl in *;
    try discriminate; lia.
Qed.

(** X6. [checkSymbols] sorts every queried name into exactly one of its
    three lists and keeps the order of the query: the known list holds
    the names that are keys of the registry, the fuzzy list the other
    names for which [findFuzzyMatch] finds a suggestion, the unknown list
    the rest; no queried name is dropped, so the three lengths add up to
    the number of names queried. *)
Theorem checkSymbols_partition (symbolNames : list string) (reg : registry) :
  map k_name (known (checkSymbols symbolNames reg)) =
    filter (inRegistry reg) symbolNames /\
  map queried (fuzzy (checkSymbols symbolNames reg)) =
    filter (hasSuggestion reg) symbolNames /\
  unknown (checkSymbols symbolNames reg) =
    filter (hasNoSuggestion reg) symbolNames /\
  List.length (known (checkSymbols symbolNames reg))
  + List.length (fuzzy (checkSymbols symbolNames reg))
  + List.length (unknown (checkSymbols symbolNames reg))
  = List.length symbolNames.
Proof.
  destruct (checkSymbols_lists reg symbolNames
              {| known := []; fuzzy := []; unknown := [] |})
    as (Hk & Hf & Hu).
  fold (checkSymbols symbolNames reg) in Hk, Hf, Hu. simpl in Hk, Hf, Hu.
  repeat split; try assumption.
  rewrite <- (length_map k_name), <- (length_map queried), Hk, Hf, Hu.
  apply filter_three_way. intros x.
  unfold hasSuggestion, hasNoSuggestion.
  destruct (inRegistry reg x), (findFuzzyMatch x (allNames reg)); reflexivity.
Qed.

(** ** What a successful match consumed *)

Section MatchesLemmas.
Variable ci : bool.

Lemma greedyLoop_matches r (k : cursor -> captures -> outcome) :
  (forall x cs k res, run ci r x cs k = Some res ->
     exists y cs', Matches ci r x cs y cs' /\ k y cs' = Some res) ->
  forall fuel x cs res,
    greedyLoop (run ci r) k fuel x cs = Some res ->
    exists y cs', Matches ci (Star r) x cs y cs' /\ k y cs' = Some res.
Proof.
  intros Hbody fuel.
  induction fuel as [|fuel IH]; intros x cs res H; simpl in H.
  - exists x, cs. split; [constructor|exact H].
  - unfold orElse in H.
    destruct (run ci r x cs _) eqn:E.
    + injection H as H. subst res. apply Hbody in E.
      destruct E as (y & cs1 & Hm & E).
      destruct (index x <? index y) eqn:Hlt; [|discriminate].
      apply Nat.ltb_lt in Hlt.
      apply IH in E. destruct E as (z & cs2 & Hs & E).
      exists z, cs2. split; [|exact E].
      eapply M_StarCons; eassumption.
    + exists x, cs. split; [constructor|exact H].
Qed.

Lemma lazyLoop_matches r (k : cursor -> captures -> outcome) :
  (forall x cs k res, run ci r x cs k = Some res ->
     exists y cs', Matches ci r x cs y cs' /\ k y cs' = Some res) ->
  forall fuel x cs res,
    lazyLoop (run ci r) k fuel x cs = Some res ->
    exists y cs', Matches ci (LazyStar r) x cs y cs' /\ k y cs' = Some res.
Proof.
  intros Hbody fuel.
  induction fuel as [|fuel IH]; intros x cs res H; simpl in H.
  - exists x, cs. split; [constructor|exact H].
  - unfold orElse in H. destruct (k x cs) eqn:Ek.
    + injection H as H. subst res. exists x, cs. split; [constructor|exact Ek].
    + apply Hbody in H. destruct H as (y & cs1 & Hm & E).
      destruct (index x <? index y) eqn:Hlt; [|discriminate].
      apply Nat.ltb_lt in Hlt.
      apply IH in E. destruct E as (z & cs2 & Hs & E).
      exists z, cs2. split; [|exact E].
      eapply M_LazyCons; eassumption.
Qed.

(** Every success of the matcher goes through a match of the pattern. *)
Lemma run_matches r : forall x cs k res,
  run ci r x cs k = Some res ->
  exists y cs', Matches ci r x cs y cs' /\ k y cs' = Some res.
Proof.
  induction r as [ |c|items|items|r1 IH1 r2 IH2|r1 IH1 r2 IH2|r1 IH1|r1 IH1
                 |n r1 IH1| | | |r1 IH1];
    intros x cs k res H; simpl in H.
  - exists x, cs. split; [constructor|exact H].
  - destruct (step x) as [[d y]|] eqn:Es; [|discriminate].
    destruct (sameChar ci d c) eqn:Ec; [|discriminate].
    exists y, cs. split; [econstructor; eassumption|exact H].
  - destruct (step x) as [[d y]|] eqn:Es; [|discriminate].
    destruct (inClass ci items d) eqn:Ec; [|discriminate].
    exists y, cs. split; [econstructor; eassumption|exact H].
  - destruct (step x) as [[d y]|] eqn:Es; [|discriminate].
    destruct (inClass ci items d) eqn:Ec; [discriminate|].
    exists y, cs. split; [econstructor; eassumption|exact H].
  - apply IH1 in H. destruct H as (y1 & cs1 & M1 & H).
    apply IH2 in H. destruct H as (y2 & cs2 & M2 & H).
    exists y2, cs2. split; [econstructor; eassumption|exact H].
  - unfold orElse in H.
    destruct (run ci r1 x cs k) eqn:E.
    + injection H as H. subst res. apply IH1 in E.
      destruct E as (y & cs' & M & E). exists y, cs'.
      split; [now apply M_AltL|exact E].
    + apply IH2 in H. destruct H as (y & cs' & M & H). exists y, cs'.
      split; [now apply M_AltR|exact H].
  - change (greedyLoop (run ci r1) k (S (List.length (after x))) x cs
            = Some res) in H.
    eapply greedyLoop_matches in H; [exact H|exact IH1].
  - change (lazyLoop (run ci r1) k (S (List.length (after x))) x cs
            = Some res) in H.
    eapply lazyLoop_matches in H; [exact H|exact IH1].
  - apply IH1 in H. destruct H as (y & cs' & M & H).
    eexists y, _. split; [constructor; exact M|exact H].
  - destruct (index x =? 0) eqn:E; [|discriminate]. apply Nat.eqb_eq in E.
    exists x, cs. split; [now constructor|exact H].
  - destruct (after x) eqn:E; [|discriminate].
    exists x, cs. split; [now constructor|exact H].
  - destruct (xorb _ _) eqn:E; [|discriminate].
    exists x, cs. split; [now constructor|exact H].
  - destruct (run ci r1 x cs _) eqn:E; [discriminate|].
    exists x, cs. split; [now constructor|exact H].
Qed.

Lemma spans_nil x : spans x x [].
Proof. split; [reflexivity|simpl; lia]. Qed.

Lemma spans_app x y z l1 l2 :
  spans x y l1 -> spans y z l2 -> spans x z (l1 ++ l2).
Proof.
  intros [A1 I1] [A2 I2]. split.
  - rewrite A1, A2, app_assoc. reflexivity.
  - rewrite length_app. lia.
Qed.

Lemma spans_step x d y : step x = Some (d, y) -> spans x y [d].
Proof.
  unfold step. destruct (after x) as [|c t] eqn:E; [discriminate|].
  intros H. injection H as <- <-. split; simpl; [exact E|lia].
Qed.

Lemma spans_firstn x y l :
  spans x y l -> firstn (index y - index x) (after x) = l.
Proof.
  intros [A I]. rewrite A, I.
  replace (index x + List.length l - index x) with (List.length l + 0) by lia.
  rewrite firstn_app_2. simpl. apply app_nil_r.
Qed.

Lemma Matches_spans r x cs y cs' :
  Matches ci r x cs y cs' -> exists l, spans x y l.
Proof.
  induction 1;
    try (exists []; apply spans_nil);
    try (exists [d]; now apply spans_step);
    try assumption.
  - destruct IHMatches1 as [l1 S1]. destruct IHMatches2 as [l2 S2].
    exists (l1 ++ l2). eapply spans_app; eassumption.
  - destruct IHMatches1 as [l1 S1]. destruct IHMatches2 as [l2 S2].
    exists (l1 ++ l2). eapply spans_app; eassumption.
  - destruct IHMatches1 as [l1 S1]. destruct IHMatches2 as [l2 S2].
    exists (l1 ++ l2). eapply spans_app; eassumption.
Qed.

End MatchesLemmas.

Section MatchesShapes.
Variable ci : bool.

Lemma Matches_Seq_inv r1 r2 x cs z cs2 :
  Matches ci (Seq r1 r2) x cs z cs2 ->
  exists y cs1, Matches ci r1 x cs y cs1 /\ Matches ci r2 y cs1 z cs2.
Proof. intros H. inversion H; subst. eauto. Qed.

Lemma Matches_Alt_inv r1 r2 x cs y cs' :
  Matches ci (Alt r1 r2) x cs y cs' ->
  Matches ci r1 x cs y cs' \/ Matches ci r2 x cs y cs'.
Proof. intros H. inversion H; subst; auto. Qed.

Lemma Matches_Chr_inv c x cs y cs' :
  Matches ci (Chr c) x cs y cs' ->
  cs' = cs /\ exists d, step x = Some (d, y) /\ sameChar ci d c = true.
Proof. intros H. inversion H; subst. eauto. Qed.

Lemma Matches_Cls_inv items x cs y cs' :
  Matches ci (Cls items) x cs y cs' ->
  cs' = cs /\ exists d, step x = Some (d, y) /\ inClass ci items d = true.
Proof. intros H. inversion H; subst. eauto. Qed.

Lemma Matches_NotCls_inv items x cs y cs' :
  Matches ci (NotCls items) x cs y cs' ->
  cs' = cs /\ exists d, step x = Some (d, y) /\ inClass ci items d = false.
Proof. intros H. inversion H; subst. eauto. Qed.

Lemma Matches_Cap_inv n r x cs y cs' :
  Matches ci (Cap n r) x cs y cs' ->
  exists cs1, Matches ci r x cs y cs1 /\
    cs' = (n, firstn (index y - index x) (after x)) :: cs1.
Proof. intros H. inversion H; subst. eauto. Qed.

Lemma Matches_Eps_inv x cs y cs' :
  Matches ci Eps x cs y cs' -> y = x /\ cs' = cs.
Proof. intros H. inversion H; subst. auto. Qed.

Lemma Matches_Bol_inv x cs y cs' :
  Matches ci Bol x cs y cs' -> y = x /\ cs' = cs /\ index x = 0.
Proof. intros H. inversion H; subst. auto. Qed.

Lemma Matches_Eol_inv x cs y cs' :
  Matches ci Eol x cs y cs' -> y = x /\ cs' = cs /\ after x = [].
Proof. intros H. inversion H; subst. auto. Qed.

Lemma Matches_capFree r x cs y cs' :
  Matches ci r x cs y cs' -> capFree r = true -> cs' = cs.
Proof.
  induction 1; simpl; intros F; try reflexivity;
    try (apply andb_true_iff in F; destruct F as [F1 F2]);
    try discriminate;
    try (rewrite IHMatches2, IHMatches1 by assumption; reflexivity);
    auto.
Qed.

Lemma Matches_litChars l : forall x cs y cs',
  Matches ci (litChars l) x cs y cs' ->
  cs' = cs /\
  exists t, spans x y t /\ Forall2 (fun d c => sameChar ci d c = true) t l.
Proof.
  induction l as [|c l IH]; intros x cs y cs' H.
  - apply Matches_Eps_inv in H. destruct H as [-> ->]. split; [reflexivity|].
    exists []. split; [apply spans_nil|constructor].
  - destruct l as [|c' l].
    + apply Matches_Chr_inv in H. destruct H as (-> & d & Hs & Hc).
      split; [reflexivity|].
      exists [d]. split; [now apply spans_step|]. repeat constructor. assumption.
    + change (litChars (c :: c' :: l)) with (Seq (Chr c) (litChars (c' :: l)))
        in H.
      apply Matches_Seq_inv in H. destruct H as (y0 & cs1 & H1 & H2).
      apply Matches_Chr_inv in H1. destruct H1 as (-> & d & Hs & Hc).
      apply IH in H2. destruct H2 as (-> & t & St & Ft).
      split; [reflexivity|].
      exists (d :: t). split.
      * apply (spans_app x y0 y [d] t); [now apply spans_step|assumption].
      * constructor; assumption.
Qed.

Lemma Matches_star_cls items x cs y cs' :
  Matches ci (Star (Cls items)) x cs y cs' ->
  cs' = cs /\
  exists t, spans x y t /\ Forall (fun d => inClass ci items d = true) t.
Proof.
  remember (Star (Cls items)) as r eqn:Er. intros H.
  induction H; try discriminate; injection Er as ->.
  - split; [reflexivity|]. exists []. split; [apply spans_nil|constructor].
  - apply Matches_Cls_inv in H. destruct H as (-> & d & Hs & Hc).
    destruct (IHMatches2 eq_refl) as (-> & t & St & Ft).
    split; [reflexivity|].
    exists (d :: t). split.
    + apply (spans_app x y z [d] t); [now apply spans_step|assumption].
    + constructor; assumption.
Qed.

Lemma Matches_star_notcls items x cs y cs' :
  Matches ci (Star (NotCls items)) x cs y cs' ->
  cs' = cs /\
  exists t, spans x y t /\ Forall (fun d => inClass ci items d = false) t.
Proof.
  remember (Star (NotCls items)) as r eqn:Er. intros H.
  induction H; try discriminate; injection Er as ->.
  - split; [reflexivity|]. exists []. split; [apply spans_nil|constructor].
  - apply Matches_NotCls_inv in H. destruct H as (-> & d & Hs & Hc).
    destruct (IHMatches2 eq_refl) as (-> & t & St & Ft).
    split; [reflexivity|].
    exists (d :: t). split.
    + apply (spans_app x y z [d] t); [now apply spans_step|assumption].
    + constructor; assumption.
Qed.

Lemma Matches_plus_cls items x cs y cs' :
  Matches ci (Plus (Cls items)) x cs y cs' ->
  cs' = cs /\
  exists d t, spans x y (d :: t) /\
    Forall (fun d => inClass ci items d = true) (d :: t).
Proof.
  unfold Plus. intros H.
  apply Matches_Seq_inv in H. destruct H as (y0 & cs1 & H1 & H2).
  apply Matches_Cls_inv in H1. destruct H1 as (-> & d & Hs & Hc).
  apply Matches_star_cls in H2. destruct H2 as (-> & t & St & Ft).
  split; [reflexivity|]. exists d, t. split.
  - apply (spans_app x y0 y [d] t); [now apply spans_step|assumption].
  - constructor; assumption.
Qed.

Lemma Matches_plus_notcls items x cs y cs' :
  Matches ci (Plus (NotCls items)) x cs y cs' ->
  cs' = cs /\
  exists d t, spans x y (d :: t) /\
    Forall (fun d => inClass ci items d = false) (d :: t).
Proof.
  unfold Plus. intros H.
  apply Matches_Seq_inv in H. destruct H as (y0 & cs1 & H1 & H2).
  apply Matches_NotCls_inv in H1. destruct H1 as (-> & d & Hs & Hc).
  apply Matches_star_notcls in H2. destruct H2 as (-> & t & St & Ft).
  split; [reflexivity|]. exists d, t. split.
  - apply (spans_app x y0 y [d] t); [now apply spans_step|assumption].
  - constructor; assumption.
Qed.

(** Where the leftmost match starts. *)
Lemma search_matches r aft : forall bef idx m,
  search ci r bef aft idx = Some m ->
  exists pre x,
    aft = pre ++ after x /\ index x = idx + List.length pre /\
    f_index m = index x /\
    Matches ci r x [] (f_end m) (f_caps m).
Proof.
  assert (Hhere : forall bef aft idx y cs,
    run ci r {| before := bef; after := aft; index := idx |} []
        (fun y cs => Some (y, cs)) = Some (y, cs) ->
    exists pre x,
      aft = pre ++ after x /\ index x = idx + List.length pre /\
      idx = index x /\ Matches ci r x [] y cs).
  { intros bef aft0 idx y cs E.
    apply run_matches in E. destruct E as (y' & cs' & M & E).
    injection E as <- <-.
    exists [], {| before := bef; after := aft0; index := idx |}.
    simpl. repeat split; [lia|exact M]. }
  induction aft as [|c aft IH]; intros bef idx m H; simpl in H.
  - destruct (run ci r _ [] _) as [[y cs]|] eqn:E; [|discriminate].
    injection H as H. subst m. simpl. now apply Hhere in E.
  - destruct (run ci r _ [] _) as [[y cs]|] eqn:E.
    + injection H as H. subst m. simpl. now apply Hhere in E.
    + apply IH in H. destruct H as (pre & x & A & I & F & M).
      exists (c :: pre), x. repeat split; try assumption.
      * simpl. now rewrite A.
      * simpl. lia.
Qed.

Lemma exec_matches r s m :
  exec ci r s = Some m ->
  exists pre x,
    chars s = pre ++ after x /\ index x = List.length pre /\
    f_index m = index x /\
    Matches ci r x [] (f_end m) (f_caps m).
Proof.
  unfold exec. intros H. apply search_matches in H.
  destruct H as (pre & x & A & I & F & M). exists pre, x. auto.
Qed.

End MatchesShapes.

(** With case kept, a literal matches its own text. *)
Lemma sameChar_exact d c : sameChar false d c = true -> d = c.
Proof. apply Ascii.eqb_eq. Qed.

Lemma Forall2_sameChar_exact t l :
  Forall2 (fun d c => sameChar false d c = true) t l -> t = l.
Proof.
  induction 1; [reflexivity|]. f_equal; [now apply sameChar_exact|assumption].
Qed.

Lemma Matches_Lit s x cs y cs' :
  Matches false (Lit s) x cs y cs' -> cs' = cs /\ spans x y (chars s).
Proof.
  unfold Lit. intros H. apply Matches_litChars in H.
  destruct H as (-> & t & St & Ft).
  apply Forall2_sameChar_exact in Ft. subst t. auto.
Qed.

(** Peels the first [n] components off a sequence pattern. *)
Ltac peel1 H :=
  let y := fresh "y" in let cs := fresh "cs" in let M := fresh "M" in
  apply Matches_Seq_inv in H; destruct H as (y & cs & M & H).
Tactic Notation "peel" hyp(H) integer(n) := do n (peel1 H).

Lemma group_cap m n t rest :
  f_caps m = (n, t) :: rest -> group m n = ofChars t.
Proof. unfold group. intros ->. simpl. now rewrite Nat.eqb_refl. Qed.

Lemma group_cap_next m n k t u rest :
  f_caps m = (k, u) :: (n, t) :: rest -> k <> n -> group m n = ofChars t.
Proof.
  unfold group. intros -> Hk. simpl.
  destruct (Nat.eqb_spec k n); [contradiction|]. now rewrite Nat.eqb_refl.
Qed.

Section RouteShapes.
Import Indexer.

(** What the route pattern captures: one of the five verbs in lower
    case, and a path that is not empty and holds no quote. *)
Lemma routeMatch_shape ln m :
  exec false routeMatch ln = Some m ->
  In (group m 1) ["get"; "post"; "put"; "delete"; "patch"] /\
  exists d t, group m 2 = ofChars (d :: t) /\
    Forall (fun c => inClass false quote c = false) (d :: t).
Proof.
  intros H. apply exec_matches in H.
  destruct H as (pre & x & _ & _ & _ & H).
  unfold routeMatch in H. cbn [Seqs] in H.
  peel H 8.
  apply Matches_Alt_inv in M.
  assert (cs = []) as ->.
  { destruct M as [M|M]; apply Matches_Lit in M; tauto. }
  clear M.
  apply Matches_Chr_inv in M0. destruct M0 as (-> & _).
  apply Matches_Cap_inv in M1. destruct M1 as (in1 & M1 & ->).
  apply Matches_star_cls in M2. destruct M2 as (-> & _).
  apply Matches_Chr_inv in M3. destruct M3 as (-> & _).
  apply Matches_star_cls in M4. destruct M4 as (-> & _).
  apply Matches_Cls_inv in M5. destruct M5 as (-> & _).
  apply Matches_Cap_inv in M6. destruct M6 as (in2 & M6 & ->).
  apply Matches_Cls_inv in H. destruct H as (E & _).
  apply Matches_plus_notcls in M6. destruct M6 as (-> & d & t & St & Ft).
  rewrite (spans_firstn _ _ _ St) in E.
  assert (Hverb : in1 = [] /\
            In (firstn (index y1 - index y0) (after y0))
               (map chars ["get"; "post"; "put"; "delete"; "patch"])).
  { cbn [Alts] in M1.
    repeat (apply Matches_Alt_inv in M1; destruct M1 as [M1|M1]);
      apply Matches_Lit in M1; destruct M1 as [-> S1];
      rewrite (spans_firstn _ _ _ S1); split; try reflexivity;
      simpl; tauto. }
  destruct Hverb as [-> Hverb].
  split.
  - rewrite (group_cap_next m 1 2 _ _ _ E) by discriminate.
    apply in_map_iff in Hverb. destruct Hverb as (v & <- & Hv).
    unfold ofChars, chars. now rewrite string_of_list_ascii_of_string.
  - exists d, t. split; [|assumption].
    now rewrite (group_cap m 2 _ _ E).
Qed.

(** What the mount pattern captures: a path that is not empty. *)
Lemma mountMatch_shape ln m :
  exec false mountMatch ln = Some m ->
  exists d t, group m 1 = ofChars (d :: t).
Proof.
  intros H. apply exec_matches in H.
  destruct H as (pre & x & _ & _ & _ & H).
  unfold mountMatch in H. cbn [Seqs] in H.
  peel H 6.
  apply Matches_Lit in M. destruct M as (-> & _).
  apply Matches_star_cls in M0. destruct M0 as (-> & _).
  apply Matches_Chr_inv in M1. destruct M1 as (-> & _).
  apply Matches_star_cls in M2. destruct M2 as (-> & _).
  apply Matches_Cls_inv in M3. destruct M3 as (-> & _).
  apply Matches_Cap_inv in M4. destruct M4 as (in1 & M4 & ->).
  apply Matches_Cls_inv in H. destruct H as (E & _).
  apply Matches_plus_notcls in M4. destruct M4 as (-> & d & t & St & _).
  rewrite (spans_firstn _ _ _ St) in E.
  exists d, t. now rewrite (group_cap m 1 _ _ E).
Qed.

End RouteShapes.

(** ** What every extractor keeps *)

Section ExtractClosure.
Import Indexer Walker.
Context {ast : AstService}.

Variable R : Symbols -> Symbols -> Prop.
Hypothesis R_refl : forall s, R s s.
Hypothesis R_trans : forall s1 s2 s3, R s1 s2 -> R s2 s3 -> R s1 s3.
Variable filePath : string.
Hypothesis R_addTo :
  forall c s name ln, 1 <= ln -> R s (addTo c s name filePath ln).
Hypothesis R_addRoute :
  forall s key e, routeShape filePath key e -> R s (addRoute s key e).
Hypothesis R_page :
  forall s content,
    R s (setPages s (assign (htmlPages s) (basename filePath)
                            (pageOf filePath content))).

Lemma fold_closure {A} (f : Symbols -> A -> Symbols) :
  (forall s a, R s (f s a)) -> forall l s, R s (fold_left f l s).
Proof.
  intros Hf l. induction l as [|a l IH]; intros s; simpl; [apply R_refl|].
  eapply R_trans; [apply Hf|apply IH].
Qed.

Lemma forLines_closure (f : Symbols -> nat -> string -> Symbols) :
  (forall s i ln, R s (f s i ln)) ->
  forall lines i s, R s (forLines f i lines s).
Proof.
  intros Hf lines. induction lines as [|l lines IH]; intros i s; simpl;
    [apply R_refl|].
  eapply R_trans; [apply Hf|apply IH].
Qed.

(** Case analysis on every test of an extractor body; each branch ends
    in [addTo] or in the symbols unchanged. *)
Ltac closure_cases :=
  repeat match goal with
         | |- context [match ?x with _ => _ end] => destruct x
         end;
  first [apply R_refl | apply R_addTo; unfold lineOf; lia].

Lemma jsRegexLine_closure off s i ln : R s (jsRegexLine filePath off s i ln).
Proof. unfold jsRegexLine. closure_cases. Qed.

Lemma pythonLine_closure s i ln : R s (pythonLine filePath s i ln).
Proof. unfold pythonLine, pythonAssign. closure_cases. Qed.

Lemma goLine_closure s i ln : R s (goLine filePath s i ln).
Proof. unfold goLine. closure_cases. Qed.

Lemma rustLine_closure s i ln : R s (rustLine filePath s i ln).
Proof. unfold rustLine. closure_cases. Qed.

Lemma extractWithRegex_closure lines lang s off :
  R s (extractWithRegex filePath lines lang s off).
Proof.
  unfold extractWithRegex, extractJsRegex, extractPython, extractGo,
    extractRust.
  repeat match goal with
         | |- context [if ?b then _ else _] => destruct b
         end;
  try apply R_refl; apply forLines_closure; intros;
  auto using jsRegexLine_closure, pythonLine_closure, goLine_closure,
             rustLine_closure.
Qed.

Lemma addNameField_closure c off s node :
  R s (addNameField c filePath off s node).
Proof. unfold addNameField. closure_cases. Qed.

Lemma lexicalDeclarator_closure off s decl :
  R s (lexicalDeclarator filePath off s decl).
Proof. unfold lexicalDeclarator. closure_cases. Qed.

Lemma varDeclarator_closure off s decl :
  R s (varDeclarator filePath off s decl).
Proof. unfold varDeclarator. closure_cases. Qed.

Lemma methodDefinition_closure off s node :
  R s (methodDefinition filePath off s node).
Proof. unfold methodDefinition. closure_cases. Qed.

Lemma exportStatement_closure off s node :
  R s (exportStatement filePath off s node).
Proof.
  unfold exportStatement. cbv zeta.
  match goal with
  | |- context [fold_left (addNameField Exports filePath off)
                  (findAll node "export_specifier") ?a] => set (s1 := a)
  end.
  assert (H1 : R s s1).
  { subst s1. destruct (field node "declaration") as [d|]; [|apply R_refl].
    destruct (field d "name"); [apply R_addTo; unfold lineOf; lia|].
    destruct (_ || _); [|apply R_refl].
    apply fold_closure. intros. apply addNameField_closure. }
  set (s2 := fold_left _ _ s1).
  assert (H2 : R s1 s2).
  { subst s2. apply fold_closure. intros. apply addNameField_closure. }
  apply (R_trans _ _ _ H1). apply (R_trans _ _ _ H2).
  destruct (field node "value") as [v|]; [|apply R_refl].
  destruct (_ =? _)%string; [|apply R_refl].
  apply R_addTo. unfold lineOf. lia.
Qed.

Lemma routeMatch_routeShape i ln m :
  exec false routeMatch ln = Some m ->
  routeShape filePath (toUpperCase (group m 1) ++ " " ++ group m 2)
    {| r_file := filePath; r_line := i + 1;
       r_method := toUpperCase (group m 1); r_path := group m 2 |}.
Proof.
  intros H. apply routeMatch_shape in H.
  destruct H as (Hverb & d & t & Hp & _).
  unfold routeShape. simpl. repeat split; try lia.
  - rewrite Hp. reflexivity.
  - left. simpl in Hverb.
    repeat (destruct Hverb as [<-|Hverb]; [simpl; tauto|]). contradiction.
Qed.

Lemma mountMatch_routeShape i ln m :
  exec false mountMatch ln = Some m ->
  startsWith (group m 1) "/api" = true ->
  routeShape filePath ("MOUNT " ++ group m 1)
    {| r_file := filePath; r_line := i + 1;
       r_method := "MOUNT"; r_path := group m 1 |}.
Proof.
  intros H Hs. apply mountMatch_shape in H. destruct H as (d & t & Hp).
  unfold routeShape. simpl. repeat split; try lia.
  - rewrite Hp. reflexivity.
  - right. auto.
Qed.

Lemma sourceLine_closure s i ln : R s (sourceLine filePath s i ln).
Proof.
  unfold sourceLine. cbv zeta.
  destruct (exec false memberExport ln); [apply R_addTo; lia|].
  match goal with
  | |- context [addRoute ?a _ _] => set (s1 := a)
  end.
  assert (H1 : R s s1).
  { subst s1. destruct (exec false bulkExport ln); [|apply R_refl].
    apply fold_closure. intros s0 a.
    destruct (_ && _); [apply R_addTo; lia|apply R_refl]. }
  apply (R_trans _ _ _ H1).
  destruct (exec false routeMatch ln) as [m|] eqn:Er.
  - apply R_addRoute. exact (routeMatch_routeShape i ln m Er).
  - destruct (exec false mountMatch ln) as [m|] eqn:Em; [|apply R_refl].
    destruct (startsWith (group m 1) "/api") eqn:Es; [|apply R_refl].
    apply R_addRoute. exact (mountMatch_routeShape i ln m Em Es).
Qed.

Lemma extractAstSymbols_closure root lang s off :
  R s (extractAstSymbols root filePath lang s off).
Proof.
  unfold extractAstSymbols.
  repeat match goal with
         | |- R _ (forLines _ _ _ _) =>
             eapply R_trans; [|apply forLines_closure; intros;
                                apply sourceLine_closure]
         | |- R _ (fold_left _ _ _) =>
             eapply R_trans;
             [|apply fold_closure; intros;
               first [ apply addNameField_closure
                     | apply methodDefinition_closure
                     | apply exportStatement_closure
                     | apply fold_closure; intros;
                       first [ apply lexicalDeclarator_closure
                             | apply varDeclarator_closure ] ]]
         | |- R _ (if ?b then _ else _) => destruct b
         end;
  apply R_refl.
Qed.

Lemma extractWithAst_closure content lang s off :
  exists s', extractWithAst filePath content lang s off = Returned s' /\
             R s s'.
Proof.
  unfold extractWithAst. destruct (parse lang content).
  - eexists. split; [reflexivity|apply extractAstSymbols_closure].
  - eexists. split; [reflexivity|apply R_refl].
Qed.

Lemma inlineBlock_closure content s m :
  R s (inlineBlock filePath content s m).
Proof.
  unfold inlineBlock. destruct (negb _); [apply R_refl|].
  destruct (extractWithAst_closure (group m 1) JavaScript s
              (lineOfIndex content (f_index m))) as (s' & -> & Hs').
  exact Hs'.
Qed.

Lemma extractHtml_closure content s : R s (extractHtml filePath content s).
Proof.
  unfold extractHtml.
  eapply R_trans; [|apply R_page].
  apply fold_closure. intros. apply inlineBlock_closure.
Qed.

Lemma extractFile_closure li content lines s :
  R s (extractFile filePath li content lines s).
Proof.
  unfold extractFile. destruct (li_name li =? "html")%string.
  - apply extractHtml_closure.
  - destruct (li_lang li) as [lang|].
    + destruct (extractWithAst_closure content lang s 0) as (s' & -> & Hs').
      exact Hs'.
    + apply extractWithRegex_closure.
Qed.

End ExtractClosure.

Lemma seenAgain_zero e : seenAgain 0 e = e.
Proof. destruct e. unfold seenAgain. simpl. now rewrite Nat.add_0_r. Qed.

Lemma seenAgain_twice m n e : seenAgain n (seenAgain m e) = seenAgain (m + n) e.
Proof. unfold seenAgain. simpl. f_equal. lia. Qed.

Lemma addSymbol_seen c name filePath ln n e :
  own c n = Some e ->
  exists k, own (addSymbol c name filePath ln) n = Some (seenAgain k e).
Proof.
  intros He. destruct (String.eqb n name) eqn:E.
  - apply String.eqb_eq in E. subst n.
    rewrite (addSymbol_own_seen c name filePath ln e He).
    exists 1. unfold bump, seenAgain. f_equal. f_equal. lia.
  - apply String.eqb_neq in E. rewrite addSymbol_own_other by assumption.
    exists 0. now rewrite seenAgain_zero.
Qed.

(** Where an entry of a category comes from after [addSymbol]. *)
Lemma addSymbol_origin c name filePath ln n e :
  own (addSymbol c name filePath ln) n = Some e ->
  (exists e0, own c n = Some e0 /\ file e0 = file e /\ line e0 = line e) \/
  (file e = filePath /\ line e = ln).
Proof.
  destruct (String.eqb n name) eqn:E.
  - apply String.eqb_eq in E. subst n.
    unfold addSymbol, read. destruct (own c name) as [e0|] eqn:E0.
    + rewrite (own_overwrite_same _ c name (bump e0) e0 E0).
      intros H. injection H as <-. left. exists e0. auto.
    + destruct (inherited name) eqn:Hi.
      * rewrite E0. discriminate.
      * rewrite own_assign_same by (now apply inherited_not_proto).
        intros H. injection H as <-. right. auto.
  - apply String.eqb_neq in E. rewrite addSymbol_own_other by assumption.
    intros H. left. exists e. auto.
Qed.

Lemma getCat_addTo c c' s name filePath ln :
  getCat c (addTo c' s name filePath ln) = getCat c s \/
  (c = c' /\
   getCat c (addTo c' s name filePath ln) =
   addSymbol (getCat c s) name filePath ln).
Proof. destruct c, c'; simpl; auto. Qed.

Lemma own_addRoute s key e k r :
  own (apiRoutes (addRoute s key e)) k = Some r ->
  own (apiRoutes s) k = Some r \/ (k = key /\ r = e).
Proof.
  unfold addRoute, read.
  destruct (own (apiRoutes s) key) as [r0|] eqn:E0; simpl; [auto|].
  destruct (inherited key) eqn:Hi; simpl; [auto|].
  destruct (String.eqb k key) eqn:E.
  - apply String.eqb_eq in E. subst k.
    rewrite own_assign_same by (now apply inherited_not_proto).
    intros H. injection H as <-. auto.
  - apply String.eqb_neq in E. rewrite own_assign_other by assumption. auto.
Qed.

Lemma own_addRoute_kept s key e k r :
  own (apiRoutes s) k = Some r ->
  own (apiRoutes (addRoute s key e)) k = Some r.
Proof.
  intros H. unfold addRoute, read.
  destruct (own (apiRoutes s) key) as [r0|] eqn:E0; simpl; [assumption|].
  destruct (inherited key) eqn:Hi; simpl; [assumption|].
  rewrite own_assign_other; [assumption|]. intros ->. congruence.
Qed.

Section KeepsFirst.
Import Indexer Walker.
Context {ast : AstService}.

Lemma keepsFirst_refl s : keepsFirst s s.
Proof.
  split; [|auto]. intros c name e H. exists 0. now rewrite seenAgain_zero.
Qed.

Lemma keepsFirst_trans s1 s2 s3 :
  keepsFirst s1 s2 -> keepsFirst s2 s3 -> keepsFirst s1 s3.
Proof.
  intros [A1 B1] [A2 B2]. split; [|auto].
  intros c name e H. destruct (A1 c name e H) as [m Hm].
  destruct (A2 c name _ Hm) as [n Hn].
  exists (m + n). now rewrite <- seenAgain_twice.
Qed.

Lemma keepsFirst_addTo c s name filePath ln :
  keepsFirst s (addTo c s name filePath ln).
Proof.
  split.
  - intros c0 n e H.
    destruct (getCat_addTo c0 c s name filePath ln) as [->|[_ ->]].
    + exists 0. now rewrite seenAgain_zero.
    + now apply addSymbol_seen.
  - intros key r H. destruct c; exact H.
Qed.

Lemma keepsFirst_addRoute s key e : keepsFirst s (addRoute s key e).
Proof.
  split.
  - intros c n e0 H. exists 0. rewrite seenAgain_zero.
    unfold addRoute. destruct (truthy _); [assumption|]. destruct c; exact H.
  - intros k r H. now apply own_addRoute_kept.
Qed.

Lemma keepsFirst_setPages s v : keepsFirst s (setPages s v).
Proof.
  split.
  - intros c n e H. exists 0. rewrite seenAgain_zero. destruct c; exact H.
  - auto.
Qed.

Lemma extractFile_keepsFirst relPath li content lines s :
  keepsFirst s (extractFile relPath li content lines s).
Proof.
  apply (extractFile_closure keepsFirst keepsFirst_refl keepsFirst_trans
           relPath).
  - intros. apply keepsFirst_addTo.
  - intros. apply keepsFirst_addRoute.
  - intros. apply keepsFirst_setPages.
Qed.

Lemma addsOnlyFor_refl filePath s : addsOnlyFor filePath s s.
Proof.
  split; [|split]; auto. intros c name e H. left. exists e. auto.
Qed.

Lemma addsOnlyFor_trans filePath s1 s2 s3 :
  addsOnlyFor filePath s1 s2 -> addsOnlyFor filePath s2 s3 ->
  addsOnlyFor filePath s1 s3.
Proof.
  intros (A1 & B1 & C1) (A2 & B2 & C2). split; [|split].
  - intros c name e H.
    destruct (A2 c name e H) as [(e0 & H0 & Hf & Hl)|Hnew]; [|auto].
    destruct (A1 c name e0 H0) as [(e1 & H1 & Hf1 & Hl1)|[Hf1 Hl1]].
    + left. exists e1. repeat split; congruence.
    + right. split; congruence.
  - intros key r H. destruct (B2 key r H) as [H0|Hnew]; auto.
  - intros name p H. destruct (C2 name p H) as [H0|Hnew]; auto.
Qed.

Lemma addsOnlyFor_addTo filePath c s name ln :
  1 <= ln -> addsOnlyFor filePath s (addTo c s name filePath ln).
Proof.
  intros Hln. split; [|split].
  - intros c0 n e H.
    destruct (getCat_addTo c0 c s name filePath ln) as [E|[_ E]];
      rewrite E in H.
    + left. exists e. auto.
    + apply addSymbol_origin in H. destruct H as [H|[Hf Hl]]; [auto|].
      right. split; [assumption|lia].
  - intros key r H. left. destruct c; exact H.
  - intros n p H. left. destruct c; exact H.
Qed.

Lemma addsOnlyFor_addRoute filePath s key e :
  routeShape filePath key e -> addsOnlyFor filePath s (addRoute s key e).
Proof.
  intros Hshape. split; [|split].
  - intros c n e0 H. left. exists e0. repeat split.
    unfold addRoute in H. destruct (truthy _); [assumption|].
    destruct c; exact H.
  - intros k r H. apply own_addRoute in H.
    destruct H as [H|[-> ->]]; auto.
  - intros n p H. left. unfold addRoute in H.
    destruct (truthy _); exact H.
Qed.

Lemma addsOnlyFor_page filePath s content :
  addsOnlyFor filePath s
    (setPages s (assign (htmlPages s) (basename filePath)
                        (pageOf filePath content))).
Proof.
  split; [|split].
  - intros c n e H. left. exists e. repeat split. destruct c; exact H.
  - auto.
  - intros n p H. simpl in H.
    destruct (String.eqb n (basename filePath)) eqn:E.
    + apply String.eqb_eq in E. subst n.
      unfold assign in H.
      destruct (own (htmlPages s) (basename filePath)) as [p0|] eqn:E0.
      * rewrite (own_overwrite_same _ _ _ _ p0 E0) in H.
        injection H as <-. right. auto.
      * destruct (String.eqb (basename filePath) "__proto__").
        -- congruence.
        -- rewrite own_app, E0, String.eqb_refl in H.
           injection H as <-. right. auto.
    + apply String.eqb_neq in E.
      rewrite own_assign_other in H by assumption. auto.
Qed.

Lemma extractFile_addsOnlyFor relPath li content lines s :
  addsOnlyFor relPath s (extractFile relPath li content lines s).
Proof.
  apply (extractFile_closure (addsOnlyFor relPath) (addsOnlyFor_refl relPath)
           (addsOnlyFor_trans relPath) relPath).
  - intros. now apply addsOnlyFor_addTo.
  - intros. now apply addsOnlyFor_addRoute.
  - intros. apply addsOnlyFor_page.
Qed.

End KeepsFirst.

(** ** What a walk records *)

Section WalkClosure.
Import Indexer Walker.
Context {ast : AstService} {coll : Collation}.

Variable R : State -> State -> Prop.
Hypothesis R_refl : forall st, R st st.
Hypothesis R_trans : forall st1 st2 st3, R st1 st2 -> R st2 st3 -> R st1 st3.
Hypothesis R_scanFile :
  forall relPath li stat content st,
    R st (scanFile relPath li stat content st).

Lemma walkEntries_closure recurse rel maxFiles extraSkip es : forall st,
  (forall rel' sub st', R st' (recurse rel' sub st')) ->
  R st (walkEntries recurse rel maxFiles extraSkip es st).
Proof.
  induction es as [|e es IH]; intros st Hrec; simpl; [apply R_refl|].
  destruct (full st maxFiles); [apply R_refl|].
  destruct (skipped extraSkip e); [now apply IH|].
  destruct e as [name stat content|name sub].
  - destruct (LANG_MAP (extname name)); [|now apply IH].
    eapply R_trans; [apply R_scanFile|now apply IH].
  - eapply R_trans; [apply Hrec|now apply IH].
Qed.

Lemma walkDir_closure fuel : forall rel entries st depth maxDepth maxFiles
                                    extraSkip,
  R st (walkDir fuel rel entries st depth maxDepth maxFiles extraSkip).
Proof.
  induction fuel as [|fuel IH];
    intros rel entries st depth maxDepth maxFiles extraSkip; simpl;
    [apply R_refl|].
  destruct (_ || _); [apply R_refl|].
  destruct entries as [es|]; [|apply R_refl].
  apply walkEntries_closure. intros rel' sub st'. apply IH.
Qed.

End WalkClosure.

Section WalkInvariants.
Import Indexer Walker.
Context {ast : AstService} {coll : Collation}.

Lemma laterState_refl st : laterState st st.
Proof.
  split; [exists []; now rewrite app_nil_r|apply keepsFirst_refl].
Qed.

Lemma laterState_trans st1 st2 st3 :
  laterState st1 st2 -> laterState st2 st3 -> laterState st1 st3.
Proof.
  intros [[m1 F1] K1] [[m2 F2] K2]. split.
  - exists (m1 ++ m2). now rewrite F2, F1, app_assoc.
  - eapply keepsFirst_trans; eassumption.
Qed.

Lemma scanFile_laterState relPath li stat content st :
  laterState st (scanFile relPath li stat content st).
Proof.
  unfold scanFile. destruct stat as [sta|]; [|apply laterState_refl].
  destruct (_ <? _)%N; [apply laterState_refl|].
  destruct content as [text|]; [|apply laterState_refl].
  split; simpl; [eexists; reflexivity|apply extractFile_keepsFirst].
Qed.

Lemma walkDir_laterState fuel rel entries st depth maxDepth maxFiles
  extraSkip :
  laterState st (walkDir fuel rel entries st depth maxDepth maxFiles extraSkip).
Proof.
  apply (walkDir_closure laterState laterState_refl laterState_trans).
  intros. apply scanFile_laterState.
Qed.

Lemma scanned_more st st' p :
  (exists more, files st' = files st ++ more) -> scanned st p -> scanned st' p.
Proof.
  intros [more E] (f & Hin & Hp). exists f. split; [|assumption].
  rewrite E. apply in_app_iff. now left.
Qed.

Lemma scanFile_pointsToScanned relPath li stat content st :
  pointsToScanned st -> pointsToScanned (scanFile relPath li stat content st).
Proof.
  intros Hst. unfold scanFile.
  destruct stat as [sta|]; [|exact Hst].
  destruct (_ <? _)%N; [exact Hst|].
  destruct content as [text|]; [|exact Hst].
  destruct Hst as (A & B & C).
  set (st' := {| files := _; symbols := _ |}).
  assert (Hmore : exists more, files st' = files st ++ more)
    by (eexists; reflexivity).
  assert (Hnew : scanned st' relPath).
  { eexists. split; [apply in_app_iff; right; now left|reflexivity]. }
  destruct (extractFile_addsOnlyFor relPath li text (splitOn "010" text)
              (symbols st)) as (A' & B' & C').
  split; [|split].
  - intros c name e H. destruct (A' c name e H) as [(e0 & H0 & Hf & Hl)|[Hf Hl]].
    + destruct (A c name e0 H0) as [Hs Hline]. rewrite <- Hf, <- Hl.
      split; [eapply scanned_more; eassumption|assumption].
    + rewrite Hf. auto.
  - intros key r H. destruct (B' key r H) as [H0|Hshape].
    + destruct (B key r H0) as [Hs Hshape].
      split; [eapply scanned_more; eassumption|assumption].
    + assert (Hf : r_file r = relPath) by apply Hshape.
      rewrite Hf. auto.
  - intros name p H. destruct (C' name p H) as [H0|[Hf Hn]].
    + destruct (C name p H0) as [Hs Hname].
      split; [eapply scanned_more; eassumption|assumption].
    + rewrite Hf. auto.
Qed.

Lemma walkDir_pointsToScanned fuel rel entries st depth maxDepth maxFiles
  extraSkip :
  pointsToScanned st ->
  pointsToScanned
    (walkDir fuel rel entries st depth maxDepth maxFiles extraSkip).
Proof.
  apply (walkDir_closure (fun st st' => pointsToScanned st ->
                                        pointsToScanned st')).
  - auto.
  - auto.
  - intros. now apply scanFile_pointsToScanned.
Qed.

Lemma scanProject_pointsToScanned root options :
  pointsToScanned (scanProject root options).
Proof.
  unfold scanProject. apply walkDir_pointsToScanned.
  split; [|split]; intros; simpl in *; try destruct c; discriminate.
Qed.

(** *** The files recorded are files of the tree *)

Lemma scanFile_listed relPath li stat content st f :
  In f (files (scanFile relPath li stat content st)) ->
  In f (files st) \/
  exists sta text, stat = Some sta /\ content = Some text /\
    (st_size sta <= sizeLimit li)%N /\ f = fileRecord relPath li sta text.
Proof.
  unfold scanFile. destruct stat as [sta|]; [|auto].
  destruct (sizeLimit li <? st_size sta)%N eqn:Hs; [auto|].
  destruct content as [text|]; [|auto].
  simpl. intros H. apply in_app_iff in H. destruct H as [H|[<-|[]]]; [auto|].
  right. exists sta, text. apply N.ltb_ge in Hs. auto.
Qed.

Lemma walkEntries_listed recurse rel maxFiles extraSkip all f es : forall st,
  (forall e, In e es -> In e all) ->
  (forall name sub st', In (DirEnt name sub) all ->
     skipped extraSkip (DirEnt name sub) = false ->
     In f (files (recurse (joinPath rel name) sub st')) ->
     In f (files st') \/
     exists es', sub = Some es' /\ listed extraSkip (joinPath rel name) es' f) ->
  In f (files (walkEntries recurse rel maxFiles extraSkip es st)) ->
  In f (files st) \/ listed extraSkip rel all f.
Proof.
  induction es as [|e es IH]; intros st Hsub Hrec H; simpl in H; [auto|].
  destruct (full st maxFiles); [auto|].
  assert (Htail : forall st0,
            In f (files (walkEntries recurse rel maxFiles extraSkip es st0)) ->
            In f (files st0) \/ listed extraSkip rel all f).
  { intros st0. apply IH; [|assumption]. intros e' He'. apply Hsub. now right. }
  destruct (skipped extraSkip e) eqn:Hsk; [auto|].
  assert (Hin : In e all) by (apply Hsub; now left).
  destruct e as [name stat content|name sub].
  - destruct (LANG_MAP (extname name)) as [li|] eqn:Hl; [|auto].
    apply Htail in H. destruct H as [H|H]; [|auto].
    apply scanFile_listed in H.
    destruct H as [H|(sta & text & -> & -> & Hsize & ->)]; [auto|].
    right. eapply listed_here; eassumption.
  - apply Htail in H. destruct H as [H|H]; [|auto].
    apply Hrec in H; try assumption.
    destruct H as [H|(es' & -> & H)]; [auto|].
    right. eapply listed_below; eassumption.
Qed.

Lemma walkDir_listed fuel f : forall rel entries st depth maxDepth maxFiles
                                     extraSkip,
  In f (files (walkDir fuel rel entries st depth maxDepth maxFiles extraSkip)) ->
  In f (files st) \/
  exists es, entries = Some es /\ listed extraSkip rel es f.
Proof.
  induction fuel as [|fuel IH];
    intros rel entries st depth maxDepth maxFiles extraSkip H; simpl in H;
    [auto|].
  destruct (_ || _); [auto|].
  destruct entries as [es|]; [|auto].
  apply (walkEntries_listed _ rel maxFiles extraSkip es) in H.
  - destruct H as [H|H]; [auto|]. right. exists es. auto.
  - intros e He. now apply (proj1 (in_sortEntries _ _)) in He.
  - intros name sub st' _ _ H'. now apply IH in H'.
Qed.

End WalkInvariants.

Section WalkComplete.
Import Indexer Walker.
Context {ast : AstService} {coll : Collation}.

Lemma laterState_length st st' :
  laterState st st' -> List.length (files st) <= List.length (files st').
Proof. intros [[more E] _]. rewrite E, length_app. lia. Qed.

Lemma laterState_in st st' f :
  laterState st st' -> In f (files st) -> In f (files st').
Proof. intros [[more E] _] H. rewrite E. apply in_app_iff. now left. Qed.

Lemma walkEntries_laterState recurse rel maxFiles extraSkip es st :
  (forall rel' sub st', laterState st' (recurse rel' sub st')) ->
  laterState st (walkEntries recurse rel maxFiles extraSkip es st).
Proof.
  apply (walkEntries_closure laterState laterState_refl laterState_trans).
  intros. apply scanFile_laterState.
Qed.

(** When the file limit was not reached, every entry that is not skipped
    was visited. *)
Lemma walkEntries_visits recurse rel maxFiles extraSkip e es : forall st,
  (forall rel' sub st', laterState st' (recurse rel' sub st')) ->
  In e es -> skipped extraSkip e = false ->
  (Z.of_nat (List.length
     (files (walkEntries recurse rel maxFiles extraSkip es st))) < maxFiles)%Z ->
  exists st1,
    laterState (visit recurse rel e st1)
      (walkEntries recurse rel maxFiles extraSkip es st).
Proof.
  induction es as [|h es IH]; intros st Hrec Hin Hsk Hlen; [contradiction|].
  simpl in Hlen |- *.
  destruct (full st maxFiles) eqn:Hfull.
  { unfold full in Hfull. apply Z.leb_le in Hfull. lia. }
  destruct Hin as [->|Hin].
  - rewrite Hsk. exists st.
    destruct e as [name stat content|name sub]; simpl.
    + destruct (LANG_MAP (extname name));
        now apply walkEntries_laterState.
    + now apply walkEntries_laterState.
  - destruct (skipped extraSkip h); [now apply IH|].
    destruct h as [name stat content|name sub].
    + destruct (LANG_MAP (extname name)); now apply IH.
    + now apply IH.
Qed.

Lemma skipped_pruneEnt_dir extraSkip name sub sub' :
  skipped extraSkip (DirEnt name sub) = skipped extraSkip (DirEnt name sub').
Proof. reflexivity. Qed.

Lemma in_map_pruneEnt_file maxDepth depth name stat content es :
  In (FileEnt name stat content) (map (pruneEnt maxDepth depth) es) ->
  In (FileEnt name stat content) es.
Proof.
  intros H. apply in_map_iff in H. destruct H as (e & He & Hin).
  destruct e; simpl in He; [|discriminate]. now rewrite <- He.
Qed.

Lemma in_map_pruneEnt_dir maxDepth depth name sub' es :
  In (DirEnt name (Some sub')) (map (pruneEnt maxDepth depth) es) ->
  exists sub, In (DirEnt name sub) es /\
              pruneListing maxDepth (depth + 1) sub = Some sub'.
Proof.
  intros H. apply in_map_iff in H. destruct H as (e & He & Hin).
  destruct e as [n s c|n sub]; [discriminate|].
  rewrite pruneEnt_dir in He. injection He as -> He.
  exists sub. auto.
Qed.

Lemma scanFile_pushes relPath li sta text st :
  (st_size sta <= sizeLimit li)%N ->
  In (fileRecord relPath li sta text)
     (files (scanFile relPath li (Some sta) (Some text) st)).
Proof.
  intros Hs. unfold scanFile.
  destruct (sizeLimit li <? st_size sta)%N eqn:E.
  - apply N.ltb_lt in E. lia.
  - simpl. apply in_app_iff. right. now left.
Qed.

Lemma walkDir_complete fuel f : forall name rel entries st depth maxDepth
                                       maxFiles extraSkip es',
  nesting (DirEnt name entries) <= fuel ->
  pruneListing maxDepth depth entries = Some es' ->
  listed extraSkip rel es' f ->
  (Z.of_nat (List.length
     (files (walkDir fuel rel entries st depth maxDepth maxFiles extraSkip)))
   < maxFiles)%Z ->
  In f (files (walkDir fuel rel entries st depth maxDepth maxFiles extraSkip)).
Proof.
  induction fuel as [|fuel IH];
    intros name rel entries st depth maxDepth maxFiles extraSkip es'
           Hfuel Hprune Hlisted Hlen.
  - destruct entries; simpl in Hfuel; lia.
  - simpl in Hlen |- *. unfold pruneListing in Hprune.
    destruct (maxDepth <? depth)%Z eqn:Hd; simpl in *.
    + injection Hprune as <-. inversion Hlisted; subst; contradiction.
    + destruct (full st maxFiles) eqn:Hfull.
      { unfold full in Hfull. apply Z.leb_le in Hfull. lia. }
      destruct entries as [es|]; [|discriminate].
      injection Hprune as <-.
      set (recurse := fun rel' sub st' =>
             walkDir fuel rel' sub st' (depth + 1) maxDepth maxFiles extraSkip)
        in *.
      assert (Hrec : forall rel' sub st', laterState st' (recurse rel' sub st')).
      { intros. apply walkDir_laterState. }
      inversion Hlisted as [rel0 es0 n sta text li Hin Hsk Hl Hsize
                           |rel0 es0 n sub' f0 Hin Hsk Hbelow]; subst.
      * apply in_map_pruneEnt_file in Hin.
        apply (proj2 (in_sortEntries _ _)) in Hin.
        destruct (walkEntries_visits recurse rel maxFiles extraSkip _ _ st
                    Hrec Hin Hsk Hlen) as [st1 Hlater].
        eapply laterState_in; [exact Hlater|].
        simpl. rewrite Hl. now apply scanFile_pushes.
      * apply in_map_pruneEnt_dir in Hin. destruct Hin as (sub & Hin & Hp).
        assert (Hnest : nesting (DirEnt n sub) <= fuel).
        { apply nesting_le_list_max in Hin. simpl in Hfuel. lia. }
        apply (proj2 (in_sortEntries _ _)) in Hin.
        rewrite (skipped_pruneEnt_dir extraSkip n (Some sub') sub) in Hsk.
        destruct (walkEntries_visits recurse rel maxFiles extraSkip _ _ st
                    Hrec Hin Hsk Hlen) as [st1 Hlater].
        eapply laterState_in; [exact Hlater|].
        simpl. subst recurse. simpl.
        apply (IH n (joinPath rel n) sub st1 (depth + 1)%Z maxDepth maxFiles
                 extraSkip sub' Hnest Hp Hbelow).
        apply laterState_length in Hlater. simpl in Hlater. lia.
Qed.

End WalkComplete.

Section WalkTheorems.
Import Indexer Walker.
Context {ast : AstService} {coll : Collation}.

(** X7. A call of [walkDir] only appends to the files list and never
    moves what the registry already holds: a symbol recorded before the
    call keeps its file and line and only gains usages, and a route
    recorded before the call is unchanged. *)
Theorem walkDir_keeps_first_locations
  (fuel : nat) (rel : string) (entries : option (list Dirent)) (st : State)
  (depth maxDepth maxFiles : Z) (extraSkip : list string) :
  (exists more,
     files (walkDir fuel rel entries st depth maxDepth maxFiles extraSkip)
     = files st ++ more) /\
  (forall c name e,
     own (getCat c (symbols st)) name = Some e ->
     exists n,
       own (getCat c (symbols (walkDir fuel rel entries st depth maxDepth
                                 maxFiles extraSkip))) name
       = Some {| file := file e; line := line e; usages := usages e + n |}) /\
  (forall key r,
     own (apiRoutes (symbols st)) key = Some r ->
     own (apiRoutes (symbols (walkDir fuel rel entries st depth maxDepth
                                maxFiles extraSkip))) key = Some r).
Proof.
  destruct (walkDir_laterState fuel rel entries st depth maxDepth maxFiles
              extraSkip) as [Hfiles [Hsym Hroutes]].
  repeat split; assumption.
Qed.

(** X8. Every entry of the registry a scan returns is located in a file
    of the files list of the same scan: the file of a symbol, of a route
    and of a page is the path of a scanned file; line numbers start at 1;
    and a page is keyed by the base name of its file. *)
Theorem scanProject_registry_points_to_scanned_files
  (root : option (list Dirent)) (options : Options) :
  let st := scanProject root options in
  (forall c name e,
     own (getCat c (symbols st)) name = Some e ->
     (exists f, In f (files st) /\ sf_path f = file e) /\ 1 <= line e) /\
  (forall key r,
     own (apiRoutes (symbols st)) key = Some r ->
     (exists f, In f (files st) /\ sf_path f = r_file r) /\ 1 <= r_line r) /\
  (forall name p,
     own (htmlPages (symbols st)) name = Some p ->
     (exists f, In f (files st) /\ sf_path f = p_file p) /\
     name = basename (p_file p)).
Proof.
  destruct (scanProject_pointsToScanned root options) as (A & B & C).
  split; [|split].
  - exact A.
  - intros key r H. destruct (B key r H) as [Hs Hshape].
    split; [exact Hs|apply Hshape].
  - exact C.
Qed.

(** X9. Every route entry a scan returns has the shape the route check
    reads: its key is the method, a blank and the path; the method is
    one of GET, POST, PUT, DELETE, PATCH, or it is MOUNT and the path
    starts with [/api]; the path is not empty, so the route check takes
    the path from the entry and never from the key. *)
Theorem scanProject_routes_well_formed
  (root : option (list Dirent)) (options : Options) (key : string)
  (r : RouteEntry) :
  own (apiRoutes (symbols (scanProject root options))) key = Some r ->
  key = (r_method r ++ " " ++ r_path r)%string /\
  (In (r_method r) ["GET"; "POST"; "PUT"; "DELETE"; "PATCH"] \/
   (r_method r = "MOUNT" /\ startsWith (r_path r) "/api" = true)) /\
  r_path r <> EmptyString /\
  RouteCheck.routePathOf key r = r_path r.
Proof.
  intros H.
  destruct (scanProject_pointsToScanned root options) as (_ & B & _).
  destruct (B key r H) as [_ (_ & _ & Hkey & Hne & Hm)].
  repeat split; try assumption.
  - intros E. rewrite E in Hne. discriminate.
  - unfold RouteCheck.routePathOf. now rewrite Hne.
Qed.

(** X10. Every record of the files list a scan returns is that of a file
    of the project tree cut at the depth limit in force: the file is
    reached from the root through readable directories, no entry on the
    way is skipped, its extension is a known one, its size is within the
    limit of its language (5 MB for markup, 500 KB otherwise), its text
    could be read, and the record holds its relative path, language,
    number of lines, size and modification date. *)
Theorem scanProject_files_are_listed
  (root : option (list Dirent)) (options : Options) (f : ScannedFile) :
  In f (files (scanProject root options)) ->
  exists es,
    pruneListing (orDefault (opt_maxDepth options) 8) 0 root = Some es /\
    listed (readGitignoreDirs root) EmptyString es f.
Proof.
  unfold scanProject.
  set (maxDepth := orDefault (opt_maxDepth options) 8).
  rewrite <- walkDir_pruned. intros H. apply walkDir_listed in H.
  destruct H as [[]|H]. exact H.
Qed.

(** X11. When the files list a scan returns is shorter than the file
    limit in force, it holds the record of every file of the project
    tree cut at the depth limit that passes the tests of the walk: no
    such file is left out. *)
Theorem scanProject_lists_every_file
  (root : option (list Dirent)) (options : Options) (es : list Dirent)
  (f : ScannedFile) :
  pruneListing (orDefault (opt_maxDepth options) 8) 0 root = Some es ->
  listed (readGitignoreDirs root) EmptyString es f ->
  (Z.of_nat (List.length (files (scanProject root options)))
   < orDefault (opt_maxFiles options) 2000)%Z ->
  In f (files (scanProject root options)).
Proof.
  unfold scanProject. intros Hp Hl Hlen.
  apply (walkDir_complete _ f EmptyString EmptyString root _ 0%Z _ _ _ es);
    try assumption.
  reflexivity.
Qed.

(** X12. A file whose name starts with a dot is never scanned, whatever
    its extension: the loop of [walkDir] passes it by. This holds for
    [.env.example] too, which the test on the name lets through and
    whose extension [.example] is no known one. *)
Theorem dot_file_is_never_scanned
  (recurse : string -> option (list Dirent) -> State -> State)
  (rel : string) (maxFiles : Z) (extraSkip : list string)
  (name : string) (stat : option Stat) (content : option string)
  (rest : list Dirent) (st : State) :
  startsWith name "." = true ->
  walkEntries recurse rel maxFiles extraSkip
    (FileEnt name stat content :: rest) st
  = walkEntries recurse rel maxFiles extraSkip rest st.
Proof.
  intros Hdot. simpl.
  destruct (full st maxFiles) eqn:Hfull.
  - destruct rest; simpl; [reflexivity|now rewrite Hfull].
  - unfold skipped. simpl entryName. rewrite Hdot.
    destruct (name =? ".env.example")%string eqn:E; simpl.
    + apply String.eqb_eq in E. subst name.
      destruct (mem ".env.example" extraSkip); reflexivity.
    + reflexivity.
Qed.

End WalkTheorems.

Lemma scanProject_routes_well_formed_witness :
  RouteCheck.routePathOf "MOUNT /api/legacy"
    {| r_file := "server.js"; r_line := 1; r_method := "MOUNT";
       r_path := "/api/legacy" |} = "/api/legacy".
Proof.
  apply (scanProject_routes_well_formed (ast := Toy.service)
           (coll := Toy.byCodeUnit) (Some serverProject) noOptions
           "MOUNT /api/legacy").
  reflexivity.
Defined.

Lemma scanProject_files_are_listed_witness :
  exists es,
    Walker.pruneListing 8 0 (Some smallProject) = Some es /\
    listed [] EmptyString es
      (fileRecord "src/b.js"
         {| Walker.li_lang := Some JavaScript; Walker.li_name := "javascript" |}
         (Walker.mkStat 16 "2026-01-03T10:00:00.000Z") "function b() {}").
Proof.
  apply (scanProject_files_are_listed (ast := Toy.service)
           (coll := Toy.byCodeUnit) (Some smallProject) noOptions).
  vm_compute. right. left. reflexivity.
Defined.

Lemma scanProject_lists_every_file_witness :
  In (fileRecord "a.js"
        {| Walker.li_lang := Some JavaScript; Walker.li_name := "javascript" |}
        (Walker.mkStat 16 "2026-01-02T10:00:00.000Z") "function a() {}")
     (Walker.files
        (Walker.scanProject (ast := Toy.service) (coll := Toy.byCodeUnit)
           (Some smallProject) noOptions)).
Proof.
  apply (scanProject_lists_every_file (ast := Toy.service)
           (coll := Toy.byCodeUnit) (Some smallProject) noOptions
           (map (Walker.pruneEnt 8 0) smallProject)).
  - reflexivity.
  - apply (listed_here _ "" _ "a.js"
             (Walker.mkStat 16 "2026-01-02T10:00:00.000Z") "function a() {}"
             {| Walker.li_lang := Some JavaScript;
                Walker.li_name := "javascript" |}).
    + left. reflexivity.
    + reflexivity.
    + reflexivity.
    + vm_compute. discriminate.
  - vm_compute. reflexivity.
Defined.

Lemma dot_file_is_never_scanned_witness :
  Walker.files
    (Walker.walkEntries (ast := Toy.service) (fun _ _ st => st) "" 2000 []
       [Walker.FileEnt ".eslintrc.js"
          (Some (Walker.mkStat 16 "2026-01-02T10:00:00.000Z"))
          (Some "function a() {}")]
       {| Walker.files := []; Walker.symbols := emptySymbols |}) = [].
Proof.
  rewrite (dot_file_is_never_scanned (ast := Toy.service)
             (fun _ _ st => st) "" 2000 [] ".eslintrc.js").
  - reflexivity.
  - reflexivity.
Defined.

Lemma walkDir_keeps_first_locations_witness :
  exists n,
    own (functions
           (Walker.symbols
              (Walker.walkDir (ast := Toy.service) (coll := Toy.byCodeUnit)
                 2 "" (Some smallProject)
                 {| Walker.files := [];
                    Walker.symbols :=
                      addTo Functions emptySymbols "a" "old/a.js" 3 |}
                 0 8 2000 []))) "a"
    = Some {| file := "old/a.js"; line := 3; usages := 1 + n |}.
Proof.
  destruct (walkDir_keeps_first_locations (ast := Toy.service)
              (coll := Toy.byCodeUnit) 2 "" (Some smallProject)
              {| Walker.files := [];
                 Walker.symbols :=
                   addTo Functions emptySymbols "a" "old/a.js" 3 |}
              0 8 2000 []) as (_ & Hsym & _).
  apply (Hsym Functions "a" (firstSight "old/a.js" 3)). reflexivity.
Defined.

Lemma scanProject_registry_points_to_scanned_files_witness :
  exists f,
    In f (Walker.files
            (Walker.scanProject (ast := Toy.service) (coll := Toy.byCodeUnit)
               (Some serverProject) noOptions)) /\
    Walker.sf_path f = "server.js".
Proof.
  destruct (scanProject_registry_points_to_scanned_files (ast := Toy.service)
              (coll := Toy.byCodeUnit) (Some serverProject) noOptions)
    as (_ & Hroutes & _).
  apply (Hroutes "GET /api/users/:id"
           {| r_file := "server.js"; r_line := 2; r_method := "GET";
              r_path := "/api/users/:id" |}).
  reflexivity.
Defined.

(** ** The route check: what is accepted and what can be flagged *)

Lemma startsWith_refl s : startsWith s s = true.
Proof. induction s as [|c s IH]; simpl; [reflexivity|]. now rewrite Ascii.eqb_refl. Qed.

Lemma startsWith_app s t : startsWith (s ++ t) s = true.
Proof.
  induction s as [|c s IH]; simpl.
  - destruct t; reflexivity.
  - now rewrite Ascii.eqb_refl.
Qed.

Lemma dropFinalSlash_app_slash p : dropFinalSlash (p ++ "/") = p.
Proof.
  induction p as [|c p IH]; [reflexivity|].
  change ((String c p ++ "/")%string) with (String c (p ++ "/")).
  destruct p as [|d p'].
  - reflexivity.
  - change (dropFinalSlash (String c (String d p' ++ "/")))
      with (String c (dropFinalSlash (String d p' ++ "/"))).
    now rewrite IH.
Qed.

Lemma endsWithSlash_split p :
  endsWithSlash p = true -> p = (dropFinalSlash p ++ "/")%string.
Proof.
  induction p as [|c p IH]; [discriminate|].
  destruct p as [|d p'].
  - simpl. intros H. rewrite H. apply Ascii.eqb_eq in H. now subst c.
  - intros H.
    change (dropFinalSlash (String c (String d p')))
      with (String c (dropFinalSlash (String d p'))).
    change (endsWithSlash (String c (String d p')))
      with (endsWithSlash (String d p')) in H.
    simpl. f_equal. now apply IH.
Qed.

Lemma execAllFrom_matches ci r fuel : forall bef aft idx m,
  In m (execAllFrom fuel ci r bef aft idx) ->
  exists x, Matches ci r x [] (f_end m) (f_caps m).
Proof.
  induction fuel as [|fuel IH]; intros bef aft idx m H; simpl in H;
    [contradiction|].
  destruct (search ci r bef aft idx) as [m0|] eqn:Es; [|contradiction].
  assert (H0 : exists x, Matches ci r x [] (f_end m0) (f_caps m0)).
  { apply search_matches in Es. destruct Es as (pre & x & _ & _ & _ & M).
    now exists x. }
  destruct (f_index m0 <? index (f_end m0)).
  - destruct H as [<-|H]; [exact H0|]. now apply IH in H.
  - destruct (after (f_end m0)).
    + destruct H as [<-|[]]. exact H0.
    + destruct H as [<-|H]; [exact H0|]. now apply IH in H.
Qed.

Lemma execAll_matches ci r s m :
  In m (execAll ci r s) -> exists x, Matches ci r x [] (f_end m) (f_caps m).
Proof. apply execAllFrom_matches. Qed.

Section RouteAccepts.
Import RouteCheck.

(** What the literal pattern captures: [/api/] and then characters of
    paths only, at least one. *)
Lemma apiLiteral_shape content m :
  In m (execAll false apiLiteral content) ->
  exists d t, group m 1 = ("/api/" ++ ofChars (d :: t))%string /\
    Forall (fun c => inClass false pathChar c = true) (d :: t).
Proof.
  intros H. apply execAll_matches in H. destruct H as (x & H).
  unfold apiLiteral in H. cbn [Seqs] in H.
  peel H 2.
  apply Matches_Cls_inv in M. destruct M as (-> & _).
  apply Matches_Cap_inv in M0. destruct M0 as (in1 & M0 & ->).
  apply Matches_Cls_inv in H. destruct H as (E & _).
  peel1 M0.
  apply Matches_Lit in M. destruct M as (-> & S1).
  apply Matches_plus_cls in M0. destruct M0 as (-> & d & t & S2 & Ft).
  pose proof (spans_app _ _ _ _ _ S1 S2) as S12.
  rewrite (spans_firstn _ _ _ S12) in E.
  exists d, t. split; [|exact Ft].
  rewrite (group_cap m 1 _ _ E). reflexivity.
Qed.

End RouteAccepts.

Section RouteTheorems.
Import RouteCheck.

(** X13. The path of every leaf route of the table is accepted by the
    route check when it is queried as it stands, and also when it is
    queried with one more slash at its end. *)
Theorem known_route_is_accepted
  (routes : obj RouteEntry) (key : string) (info : RouteEntry) :
  In (key, info) routes ->
  r_method info <> "MOUNT" ->
  isBadRoute (routeSets routes) (routePathOf key info) = false /\
  isBadRoute (routeSets routes) (routePathOf key info ++ "/") = false.
Proof.
  intros Hin Hm.
  set (p := routePathOf key info).
  assert (Hknown : In p (knownPaths (routeSets routes))).
  { apply in_knownPaths. exists (key, info). repeat split; [assumption|].
    unfold isLeaf. simpl. apply negb_true_iff. now apply String.eqb_neq. }
  split.
  - destruct (endsWithSlash p) eqn:E.
    + apply (isBadRoute_extended _ _ p Hknown).
      rewrite stripSlash_spec, <- (endsWithSlash_split p E).
      apply startsWith_refl.
    + unfold isBadRoute. rewrite stripSlash_spec, (dropFinalSlash_id p E).
      now rewrite (proj2 (mem_true_iff _ _) Hknown).
  - unfold isBadRoute. rewrite stripSlash_spec, dropFinalSlash_app_slash.
    now rewrite (proj2 (mem_true_iff _ _) Hknown).
Qed.

(** X14. The route check only ever reports path literals of the scanned
    text that start with [/api/] and go on with letters, digits, slashes,
    underscores and hyphens; it reports nothing when the route table is
    empty, and what it reports failed the four tests of the check. *)
Theorem checkRoutes_flags_only_api_literals
  (routes : obj RouteEntry) (scanContent literal : string) :
  In literal (checkRoutes routes scanContent) ->
  routes <> [] /\
  isBadRoute (routeSets routes) literal = true /\
  exists rest,
    literal = ("/api/" ++ rest)%string /\ rest <> EmptyString /\
    Forall (fun c => inClass false pathChar c = true) (chars rest).
Proof.
  unfold checkRoutes, badRoutes. intros H.
  destruct routes as [|kv routes]; [contradiction|].
  simpl in H. apply filter_In in H. destruct H as [Hlit Hbad].
  split; [discriminate|]. split; [exact Hbad|].
  unfold apiLiterals in Hlit. apply in_map_iff in Hlit.
  destruct Hlit as (m & <- & Hm).
  apply apiLiteral_shape in Hm. destruct Hm as (d & t & -> & Ft).
  exists (ofChars (d :: t)). repeat split.
  - discriminate.
  - unfold chars, ofChars. now rewrite list_ascii_of_string_of_list_ascii.
Qed.

End RouteTheorems.

Lemma known_route_is_accepted_witness :
  RouteCheck.isBadRoute (RouteCheck.routeSets usersTable) "/api/users/:id"
  = false.
Proof.
  apply (known_route_is_accepted usersTable "GET /api/users/:id"
           (mkRoute "routes/users.js" 7 "GET" "/api/users/:id")).
  - left. reflexivity.
  - discriminate.
Defined.

Lemma checkRoutes_flags_only_api_literals_witness :
  exists rest, "/api/orders/7" = ("/api/" ++ rest)%string.
Proof.
  destruct (checkRoutes_flags_only_api_literals usersTable
              "const r = await fetch('/api/orders/7'); go('/home');"
              "/api/orders/7") as (_ & _ & rest & E & _).
  - vm_compute. left. reflexivity.
  - exists rest. exact E.
Defined.

(** ** readGitignoreDirs *)

Section GreedyClass.
Variable ci : bool.
Variable items : list cclass.

Lemma walkOver_spans l : forall x rest,
  after x = l ++ rest ->
  after (walkOver x l) = rest /\
  index (walkOver x l) = index x + List.length l.
Proof.
  induction l as [|c l IH]; intros x rest H; simpl.
  - split; [exact H|lia].
  - destruct (IH {| before := Some c; after := tl (after x);
                    index := S (index x) |} rest) as [A I].
    + simpl. rewrite H. reflexivity.
    + split; [exact A|]. rewrite I. simpl. lia.
Qed.

(** A greedy repetition of a class whose continuation succeeds after the
    longest run of characters of the class stops there. *)
Lemma greedyLoop_cls_max k res rest l : forall fuel x cs,
  after x = l ++ rest ->
  Forall (fun c => inClass ci items c = true) l ->
  match rest with
  | [] => True
  | c :: _ => inClass ci items c = false
  end ->
  List.length l < fuel ->
  k (walkOver x l) cs = Some res ->
  greedyLoop (run ci (Cls items)) k fuel x cs = Some res.
Proof.
  induction l as [|c l IH]; intros fuel x cs Hx Hall Hrest Hfuel Hk;
    (destruct fuel as [|fuel]; [simpl in Hfuel; lia|]); simpl.
  - unfold step. simpl in Hx. rewrite Hx.
    destruct rest as [|c r]; simpl; [exact Hk|].
    rewrite Hrest. simpl. exact Hk.
  - unfold step. simpl in Hx. rewrite Hx. inversion Hall; subst.
    match goal with H : inClass ci items c = true |- _ => rewrite H end.
    cbn [index]. replace (index x <? S (index x)) with true
      by (symmetry; apply Nat.ltb_lt; lia).
    rewrite (IH fuel _ cs); [reflexivity| | | | |].
    + reflexivity.
    + assumption.
    + assumption.
    + simpl in Hfuel. lia.
    + simpl in Hk. rewrite Hx in Hk. exact Hk.
Qed.

End GreedyClass.

Lemma chars_app s t : chars (s ++ t) = chars s ++ chars t.
Proof. unfold chars. induction s; simpl; congruence. Qed.

Lemma ofChars_chars s : ofChars (chars s) = s.
Proof. apply string_of_list_ascii_of_string. Qed.

Lemma chars_ofChars l : chars (ofChars l) = l.
Proof. apply list_ascii_of_string_of_list_ascii. Qed.

Lemma ofChars_app l1 l2 : ofChars (l1 ++ l2) = (ofChars l1 ++ ofChars l2)%string.
Proof. unfold ofChars. induction l1; simpl; congruence. Qed.

Lemma run_cap_plus_cls ci n items r2 x cs k :
  run ci (Seq (Cap n (Plus (Cls items))) r2) x cs k =
  match step x with
  | Some (d, y) =>
      if inClass ci items d
      then greedyLoop (run ci (Cls items))
             (fun y' cs' =>
                run ci r2 y'
                  ((n, firstn (index y' - index x) (after x)) :: cs') k)
             (S (List.length (after y))) y cs
      else None
  | None => None
  end.
Proof. reflexivity. Qed.

Section GitignoreLemmas.
Import Indexer Walker.

Lemma dirPattern_accepts d tail :
  isDirName d = true -> tail = EmptyString \/ tail = "/" ->
  exists m, exec false dirPattern (d ++ tail) = Some m /\ group m 1 = d.
Proof.
  unfold isDirName. intros Hd Htail. apply andb_true_iff in Hd.
  destruct Hd as [Hne Hall].
  destruct d as [|c rest]; [discriminate|]. clear Hne.
  change (chars (String c rest)) with (c :: chars rest) in Hall.
  cbn [forallb] in Hall. apply andb_true_iff in Hall.
  destruct Hall as [Hc Hrest]. rewrite forallb_forall in Hrest.
  unfold dirChar in Hc, Hrest.
  change ((String c rest ++ tail)%string) with (String c (rest ++ tail)).
  unfold dirPattern. cbn [Seqs]. rewrite exec_anchored.
  rewrite run_cap_plus_cls. unfold step. cbn [after]. rewrite Hc.
  set (x0 := {| before := None; after := c :: chars (rest ++ tail);
                index := 0 |}).
  set (x1 := {| before := Some c; after := chars (rest ++ tail);
                index := S (index x0) |}).
  destruct (walkOver_spans (chars rest) x1 (chars tail)) as [Ha Hi].
  { simpl. apply chars_app. }
  assert (Hcap : firstn (index (walkOver x1 (chars rest)) - index x0)
                        (after x0) = c :: chars rest).
  { rewrite Hi. simpl. rewrite ?Nat.sub_0_r. f_equal.
    rewrite chars_app. replace (List.length (chars rest))
      with (List.length (chars rest) + 0) by lia.
    rewrite firstn_app_2. simpl. apply app_nil_r. }
  assert (Hk : exists y,
    run false (Seq (Opt (Chr "/")) Eol) (walkOver x1 (chars rest))
        [(1, firstn (index (walkOver x1 (chars rest)) - index x0) (after x0))]
        (fun y cs => Some (y, cs))
    = Some (y, [(1, c :: chars rest)])).
  { rewrite Hcap. simpl. unfold step. rewrite Ha.
    destruct Htail as [->| ->]; simpl; eexists; reflexivity. }
  destruct Hk as [y Hk].
  erewrite greedyLoop_cls_max with (l := chars rest) (rest := chars tail);
    [| |apply Forall_forall; exact Hrest| | |exact Hk].
  - eexists. split; [reflexivity|].
    unfold group. simpl. apply (ofChars_chars (String c rest)).
  - simpl. apply chars_app.
  - destruct Htail as [->| ->]; simpl; [exact I|reflexivity].
  - simpl. rewrite chars_app, length_app. lia.
Qed.

Lemma dirPattern_shape t m :
  exec false dirPattern t = Some m ->
  isDirName (group m 1) = true /\
  (t = group m 1 \/ t = (group m 1 ++ "/")%string).
Proof.
  intros H. apply exec_matches in H.
  destruct H as (pre & x & Hpre & Hidx & _ & H).
  unfold dirPattern in H. cbn [Seqs] in H.
  peel H 3.
  apply Matches_Bol_inv in M. destruct M as (-> & -> & Hx0).
  assert (pre = []) as -> by (destruct pre; [reflexivity|simpl in Hidx; lia]).
  simpl in Hpre.
  apply Matches_Cap_inv in M0. destruct M0 as (in1 & M0 & ->).
  apply Matches_plus_cls in M0. destruct M0 as (-> & d & l & S1 & Fl).
  rewrite (spans_firstn _ _ _ S1) in *.
  apply Matches_Eol_inv in H. destruct H as (_ & E & Hend).
  assert (Hg : group m 1 = ofChars (d :: l)).
  { unfold Opt in M1. apply Matches_Alt_inv in M1.
    destruct M1 as [M1|M1].
    - apply Matches_Chr_inv in M1. destruct M1 as (-> & _).
      now rewrite (group_cap m 1 _ _ E).
    - apply Matches_Eps_inv in M1. destruct M1 as (_ & ->).
      now rewrite (group_cap m 1 _ _ E). }
  rewrite Hg. split.
  - unfold isDirName. simpl nonEmpty. rewrite chars_ofChars.
    apply forallb_forall. now apply Forall_forall.
  - destruct S1 as [A1 _]. rewrite A1 in Hpre.
    unfold Opt in M1. apply Matches_Alt_inv in M1.
    destruct M1 as [M1|M1].
    + apply Matches_Chr_inv in M1. destruct M1 as (_ & c & Hs & Hc).
      apply sameChar_exact in Hc. subst c.
      apply spans_step in Hs. destruct Hs as [A2 _].
      rewrite A2, Hend in Hpre. right.
      rewrite <- (ofChars_chars t), Hpre, ofChars_app. reflexivity.
    + apply Matches_Eps_inv in M1. destruct M1 as (-> & _).
      rewrite Hend, app_nil_r in Hpre. left.
      now rewrite <- (ofChars_chars t), Hpre.
Qed.

Lemma isDirName_not_comment d tail :
  isDirName d = true -> startsWith (d ++ tail) "#" = false.
Proof.
  unfold isDirName. destruct d as [|c rest]; [discriminate|].
  simpl. intros H. apply andb_true_iff in H. destruct H as [Hc _].
  destruct (Ascii.eqb c "#") eqn:E; [|reflexivity].
  apply Ascii.eqb_eq in E. subst c. discriminate.
Qed.

(** What one line of the file adds. *)
Lemma gitignoreLine_spec dirs ln d :
  In d (gitignoreLine dirs ln) <->
  In d dirs \/
  (isDirName d = true /\ (trim ln = d \/ trim ln = (d ++ "/")%string)).
Proof.
  unfold gitignoreLine. split.
  - destruct (negb (nonEmpty (trim ln)) || startsWith (trim ln) "#");
      [auto|].
    destruct (exec false dirPattern (trim ln)) as [m|] eqn:E; [|auto].
    intros H. apply in_setAdd in H. destruct H as [H| ->]; [auto|].
    right. now apply dirPattern_shape.
  - intros [H|[Hd Ht]].
    + destruct (_ || _); [assumption|].
      destruct (exec false dirPattern (trim ln)); [|assumption].
      apply in_setAdd. now left.
    + assert (Hex : exists tail, (tail = EmptyString \/ tail = "/") /\
                                 trim ln = (d ++ tail)%string).
      { destruct Ht as [Ht|Ht].
        - exists EmptyString. split; [now left|].
          rewrite Ht. clear. induction d; simpl; congruence.
        - exists "/". split; [now right|exact Ht]. }
      destruct Hex as (tail & Htail & Ht').
      rewrite Ht'.
      rewrite (isDirName_not_comment d tail Hd), orb_false_r.
      replace (nonEmpty (d ++ tail)) with true.
      * simpl. destruct (dirPattern_accepts d tail Hd Htail) as (m & -> & Hg).
        apply in_setAdd. right. now symmetry.
      * unfold isDirName in Hd. destruct d; [discriminate|reflexivity].
Qed.

Lemma gitignoreFold_spec lines : forall dirs d,
  In d (fold_left gitignoreLine lines dirs) <->
  In d dirs \/
  exists ln, In ln lines /\ isDirName d = true /\
             (trim ln = d \/ trim ln = (d ++ "/")%string).
Proof.
  induction lines as [|l lines IH]; intros dirs d; simpl.
  - split; [auto|]. intros [H|(ln & [] & _)]. exact H.
  - rewrite IH, gitignoreLine_spec. split.
    + intros [[H|H]|(ln & Hin & H)]; eauto 6.
    + intros [H|(ln & [<-|Hin] & H)]; eauto 6.
Qed.

End GitignoreLemmas.

Section GitignoreTheorems.
Import Indexer Walker.

(** X15. [readGitignoreDirs] returns exactly the plain directory names
    of the [.gitignore] file of the project root: a name is returned
    when, and only when, the file can be read and one of its lines,
    trimmed, is the name or the name followed by one slash, the name
    being made of letters, digits, underscores and hyphens (at least
    one). Comments, blank lines, patterns with a wildcard, a dot or an
    inner slash, and negations contribute nothing. *)
Theorem readGitignoreDirs_takes_plain_names
  (root : option (list Dirent)) (d : string) :
  In d (readGitignoreDirs root) <->
  exists es content ln,
    root = Some es /\ findFile ".gitignore" es = Some content /\
    In ln (splitOn "010" content) /\
    isDirName d = true /\ (trim ln = d \/ trim ln = (d ++ "/")%string).
Proof.
  unfold readGitignoreDirs. split.
  - destruct root as [es|]; [|contradiction].
    destruct (findFile ".gitignore" es) as [content|] eqn:E; [|contradiction].
    intros H. apply gitignoreFold_spec in H.
    destruct H as [[]|(ln & Hin & Hd & Ht)].
    exists es, content, ln. auto.
  - intros (es & content & ln & -> & -> & Hin & Hd & Ht).
    apply gitignoreFold_spec. right. exists ln. auto.
Qed.

End GitignoreTheorems.

(** ** The language breakdown *)

Section LangCounts.
Import Indexer Walker.

Lemma LANG_MAP_names ext li :
  LANG_MAP ext = Some li -> In (li_name li) languages.
Proof.
  unfold LANG_MAP.
  repeat match goal with
         | |- context [if ?b then _ else _] => destruct b
         end;
  intros H; try discriminate; injection H as <-; simpl; tauto.
Qed.

Lemma listed_lang extraSkip rel es f :
  listed extraSkip rel es f -> In (sf_lang f) languages.
Proof.
  induction 1; [|assumption]. simpl. eapply LANG_MAP_names. eassumption.
Qed.

Lemma languages_ordinary lang :
  In lang languages -> inherited lang = false.
Proof.
  unfold languages. simpl.
  intros H. repeat (destruct H as [<-|H]; [reflexivity|]). contradiction.
Qed.

Lemma own_in {V} (o : obj V) k v : own o k = Some v -> In (k, v) o.
Proof.
  induction o as [|[k0 v0] o IH]; simpl; [discriminate|].
  destruct (String.eqb k k0) eqn:E.
  - apply String.eqb_eq in E. subst k0. intros H. injection H as <-. now left.
  - auto.
Qed.

Lemma tallyTotal_app o k n :
  tallyTotal (o ++ [(k, Number n)]) = tallyTotal o + n.
Proof.
  induction o as [|[k0 v0] o IH]; simpl; [lia|].
  rewrite IH. destruct v0; lia.
Qed.

Lemma tallyTotal_overwrite o k n :
  own o k = Some (Number n) ->
  tallyTotal (overwrite o k (Number (n + 1))) = tallyTotal o + 1.
Proof.
  induction o as [|[k0 v0] o IH]; simpl; [discriminate|].
  destruct (String.eqb k k0) eqn:E.
  - intros H. injection H as ->. simpl. lia.
  - intros H. simpl. rewrite (IH H). destruct v0; lia.
Qed.

Lemma allNumbers_overwrite o k n :
  allNumbers o -> allNumbers (overwrite o k (Number n)).
Proof.
  intros Ho. induction o as [|[k0 v0] o IH]; simpl; [exact Ho|].
  assert (Htail : allNumbers o).
  { intros k' v' H. apply (Ho k' v'). now right. }
  destruct (String.eqb k k0).
  - intros k' v' [H|H]; [injection H as <- <-; eauto|].
    apply (Ho k' v'). now right.
  - intros k' v' [H|H]; [apply (Ho k' v'); now left|].
    now apply (IH Htail k' v').
Qed.

Lemma countLang_step o f :
  inherited (sf_lang f) = false -> allNumbers o ->
  allNumbers (countLang o f) /\
  tallyTotal (countLang o f) = tallyTotal o + 1 /\
  forall lang,
    own (countLang o f) lang =
    if String.eqb lang (sf_lang f)
    then match own o lang with
         | Some (Number n) => Some (Number (n + 1))
         | _ => Some (Number 1)
         end
    else own o lang.
Proof.
  intros Hi Ho. unfold countLang, read, assign.
  destruct (own o (sf_lang f)) as [v|] eqn:E.
  - destruct (Ho _ _ (own_in _ _ _ E)) as [n ->]. simpl.
    split; [now apply allNumbers_overwrite|].
    split; [now apply tallyTotal_overwrite|].
    intros lang. destruct (String.eqb lang (sf_lang f)) eqn:El.
    + apply String.eqb_eq in El. subst lang.
      rewrite E. eapply own_overwrite_same. eassumption.
    + apply String.eqb_neq in El. now apply own_overwrite_other.
  - rewrite Hi. simpl.
    replace (String.eqb (sf_lang f) "__proto__") with false
      by (symmetry; apply String.eqb_neq; now apply inherited_not_proto).
    split; [|split].
    + intros k v H. apply in_app_iff in H.
      destruct H as [H|[H|[]]]; [now apply (Ho k v)|].
      injection H as <- <-. eauto.
    + apply tallyTotal_app.
    + intros lang. rewrite own_app.
      destruct (String.eqb lang (sf_lang f)) eqn:El.
      * apply String.eqb_eq in El. subst lang. now rewrite E.
      * destruct (own o lang); reflexivity.
Qed.

Lemma langCounts_fold files : forall o,
  (forall f, In f files -> inherited (sf_lang f) = false) ->
  allNumbers o ->
  allNumbers (fold_left countLang files o) /\
  tallyTotal (fold_left countLang files o)
    = tallyTotal o + List.length files /\
  forall lang,
    own (fold_left countLang files o) lang =
    match own o lang with
    | Some (Number n) => Some (Number (n + filesIn lang files))
    | _ => if filesIn lang files =? 0 then None
           else Some (Number (filesIn lang files))
    end.
Proof.
  induction files as [|f files IH]; intros o Hi Ho.
  - simpl. split; [assumption|]. split; [lia|].
    intros lang. destruct (own o lang) as [v|] eqn:E; [|reflexivity].
    destruct (Ho _ _ (own_in _ _ _ E)) as [n ->].
    unfold filesIn. simpl. now rewrite Nat.add_0_r.
  - destruct (countLang_step o f (Hi f (or_introl eq_refl)) Ho)
      as (Ho' & Ht' & Hown').
    destruct (IH (countLang o f) (fun g Hg => Hi g (or_intror Hg)) Ho')
      as (Ha & Ht & Hown).
    simpl. split; [assumption|]. split; [rewrite Ht, Ht'; lia|].
    intros lang. rewrite Hown, Hown'. unfold filesIn. simpl.
    rewrite (String.eqb_sym (sf_lang f) lang).
    destruct (String.eqb lang (sf_lang f)) eqn:El; simpl.
    + destruct (own o lang) as [v|] eqn:E.
      * destruct (Ho _ _ (own_in _ _ _ E)) as [n ->].
        replace (n + 1 + List.length
                   (filter (fun f0 => (sf_lang f0 =? lang)%string) files))
          with (n + S (List.length
                   (filter (fun f0 => (sf_lang f0 =? lang)%string) files)))
          by lia.
        reflexivity.
      * reflexivity.
    + destruct (own o lang) as [v|] eqn:E; [|reflexivity].
      destruct (Ho _ _ (own_in _ _ _ E)) as [n ->]. reflexivity.
Qed.

End LangCounts.

Section SymbolCheckLemmas.
Import SymbolCheck.

Lemma inClass_alnum_word c :
  inClass false alnum c = true -> isWord c = true /\ c <> "_"%char.
Proof.
  destruct c as [[] [] [] [] [] [] [] []]; intros H;
    try discriminate H; split; try reflexivity; discriminate.
Qed.

Lemma inClass_lower_alnum c :
  inClass false [Range "a" "z"] c = true -> inClass false alnum c = true.
Proof.
  unfold inClass, alnum. simpl. intros H. rewrite orb_false_r in H.
  now rewrite H.
Qed.

Lemma inClass_upper_alnum c :
  inClass false [Range "A" "Z"] c = true -> inClass false alnum c = true.
Proof.
  unfold inClass, alnum. simpl. intros H. rewrite orb_false_r in H.
  rewrite H. apply orb_true_r.
Qed.

(** A name matched by one of the two naming patterns is made of letters
    and digits only. *)
Lemma camelCase_shape name :
  test false camelCase name = true ->
  Forall (fun c => inClass false alnum c = true) (chars name).
Proof.
  unfold test. destruct (exec false camelCase name) as [m|] eqn:E;
    [|discriminate].
  intros _. apply exec_matches in E.
  destruct E as (pre & x & Hpre & Hidx & _ & H).
  unfold camelCase in H. cbn [Seqs] in H. peel H 3.
  apply Matches_Bol_inv in M. destruct M as (-> & -> & Hx0).
  assert (pre = []) as -> by (destruct pre; [reflexivity|simpl in Hidx; lia]).
  simpl in Hpre.
  apply Matches_Cls_inv in M0. destruct M0 as (-> & c & Hs & Hc).
  apply spans_step in Hs. destruct Hs as [A0 _].
  apply Matches_plus_cls in M1. destruct M1 as (-> & d & t & [A1 _] & Ft).
  apply Matches_Eol_inv in H. destruct H as (_ & _ & Hend).
  rewrite Hpre, A0, A1, Hend, app_nil_r. simpl.
  constructor; [now apply inClass_lower_alnum|exact Ft].
Qed.

Lemma pascalCase_shape name :
  test false pascalCase name = true ->
  Forall (fun c => inClass false alnum c = true) (chars name).
Proof.
  unfold test. destruct (exec false pascalCase name) as [m|] eqn:E;
    [|discriminate].
  intros _. apply exec_matches in E.
  destruct E as (pre & x & Hpre & Hidx & _ & H).
  unfold pascalCase in H. cbn [Seqs] in H. peel H 4.
  apply Matches_Bol_inv in M. destruct M as (-> & -> & Hx0).
  assert (pre = []) as -> by (destruct pre; [reflexivity|simpl in Hidx; lia]).
  simpl in Hpre.
  apply Matches_Cls_inv in M0. destruct M0 as (-> & c & Hs & Hc).
  apply spans_step in Hs. destruct Hs as [A0 _].
  apply Matches_Cls_inv in M1. destruct M1 as (-> & c2 & Hs2 & Hc2).
  apply spans_step in Hs2. destruct Hs2 as [A2 _].
  apply Matches_plus_cls in M2. destruct M2 as (-> & d & t & [A1 _] & Ft).
  apply Matches_Eol_inv in H. destruct H as (_ & _ & Hend).
  rewrite Hpre, A0, A2, A1, Hend, app_nil_r. simpl.
  constructor; [now apply inClass_upper_alnum|].
  constructor; [now apply inClass_lower_alnum|exact Ft].
Qed.

End SymbolCheckLemmas.

Section CallerTheorems.
Import Indexer Walker.
Context {ast : AstService} {coll : Collation}.

Lemma scanProject_languages root options f :
  In f (files (scanProject root options)) -> In (sf_lang f) languages.
Proof.
  unfold scanProject. intros H. apply walkDir_listed in H.
  destruct H as [[]|(es & _ & H)]. eapply listed_lang. eassumption.
Qed.

(** X16. The language breakdown that [handleReindexProject] computes
    from the files of a scan is exact: for every language the object
    holds the number of scanned files of that language, no property at
    all for a language without files, and the numbers add up to the
    number of files indexed. *)
Theorem langCounts_add_up (root : option (list Dirent)) (options : Options) :
  tallyTotal (langCounts (files (scanProject root options)))
    = List.length (files (scanProject root options)) /\
  forall lang,
    own (langCounts (files (scanProject root options))) lang =
    if filesIn lang (files (scanProject root options)) =? 0 then None
    else Some (Number (filesIn lang (files (scanProject root options)))).
Proof.
  destruct (langCounts_fold (files (scanProject root options)) [])
    as (_ & Ht & Hown).
  - intros f Hf. apply languages_ordinary.
    now apply scanProject_languages in Hf.
  - intros k v [].
  - split; [exact Ht|]. intros lang. apply Hown.
Qed.

End CallerTheorems.

Section SymbolCheckTheorems.
Import SymbolCheck.

(** X17. A name the symbol check reports as unknown is one of the names
    referenced, has at least three characters, is made of letters and
    digits only (a name with an underscore or a dollar sign is never
    reported), and is not a key of any category of the registry other
    than [_meta]. *)
Theorem unknowns_are_plain_unregistered_names
  (referenced : list string) (content : string) (reg : registry)
  (name : string) :
  In name (unknowns referenced content (knownSymbols reg)) ->
  In name referenced /\
  3 <= String.length name /\
  Forall (fun c => inClass false alnum c = true) (chars name) /\
  forall catName cat,
    In (catName, cat) reg -> catName <> "_meta" -> own cat name = None.
Proof.
  unfold unknowns. intros H. apply filter_In in H. destruct H as [Hin Hr].
  unfold reported in Hr.
  destruct (String.length name <=? 2) eqn:Hlen; [discriminate|].
  apply Nat.leb_gt in Hlen.
  destruct (test false constantName name); [discriminate|].
  destruct (test false (localDef name) content); [discriminate|].
  destruct (test false (paramInFunc name) _); [discriminate|].
  apply andb_true_iff in Hr. destruct Hr as [Hk Hshape].
  apply negb_true_iff in Hk. apply mem_false_iff in Hk.
  repeat split; try assumption.
  - apply orb_true_iff in Hshape.
    destruct Hshape as [Hc|Hp];
      [now apply camelCase_shape|now apply pascalCase_shape].
  - intros catName cat Hcat Hmeta.
    destruct (own cat name) as [e|] eqn:E; [|reflexivity].
    exfalso. apply Hk. unfold knownSymbols. apply in_allNames.
    exists (catName, cat). split.
    + apply filter_In. split; [assumption|]. simpl.
      apply negb_true_iff. now apply String.eqb_neq.
    + simpl. eapply own_some_in_keys. eassumption.
Qed.

End SymbolCheckTheorems.

Lemma unknowns_are_plain_unregistered_names_witness :
  3 <= String.length "fetchOrders" /\
  Forall (fun c => inClass false SymbolCheck.alnum c = true)
         (chars "fetchOrders").
Proof.
  destruct (unknowns_are_plain_unregistered_names
              ["getUser"; "fetchOrders"; "load_all"; "MAX_SIZE"]
              "const orders = await fetchOrders(getUser(id), MAX_SIZE);"
              apiRegistry "fetchOrders") as (_ & Hlen & Hall & _).
  - vm_compute. left. reflexivity.
  - split; assumption.
Defined.

Section RoundTrip.

Lemma keys_asCategory {V} (wrap : V -> RegistryEntry) (o : obj V) :
  keys (asCategory wrap o) = keys o.
Proof.
  unfold keys, asCategory. rewrite map_map. reflexivity.
Qed.

Lemma recorded_in_allNames (s : Symbols) (c : Cat) name e :
  own (getCat c s) name = Some e -> In name (allNames (registryOf s)).
Proof.
  intros H. apply own_some_in_keys in H. apply in_allNames.
  unfold registryOf.
  destruct c; simpl in H;
    [ exists ("functions", asCategory SymbolOf (functions s))
    | exists ("classes", asCategory SymbolOf (classes s))
    | exists ("variables", asCategory SymbolOf (variables s))
    | exists ("exports", asCategory SymbolOf (exports s)) ];
    (split; [simpl; tauto|simpl; now rewrite keys_asCategory]).
Qed.

(** X18. A symbol recorded in any of the four symbol categories of a
    scan is reported as known when it is queried against the registry of
    that scan: each time it is queried it is in the known list, and it is
    never in the fuzzy or the unknown list. *)
Theorem recorded_symbol_is_reported_known
  (s : Symbols) (c : Cat) (name : string) (e : SymbolEntry)
  (symbolNames : list string) :
  own (getCat c s) name = Some e ->
  count_occ string_dec
    (map k_name (known (checkSymbols symbolNames (registryOf s)))) name
  = count_occ string_dec symbolNames name /\
  ~ In name (map queried (fuzzy (checkSymbols symbolNames (registryOf s)))) /\
  ~ In name (unknown (checkSymbols symbolNames (registryOf s))).
Proof.
  intros H. apply recorded_in_allNames in H. apply mem_true_iff in H.
  destruct (checkSymbols_lists (registryOf s) symbolNames
              {| known := []; fuzzy := []; unknown := [] |})
    as (Hk & Hf & Hu).
  fold (checkSymbols symbolNames (registryOf s)) in Hk, Hf, Hu.
  simpl in Hk, Hf, Hu. rewrite Hk, Hf, Hu. clear Hk Hf Hu.
  split; [|split].
  - induction symbolNames as [|x l IH]; simpl; [reflexivity|].
    destruct (string_dec x name) as [->|Hne].
    + unfold inRegistry at 1. rewrite H. simpl.
      destruct (string_dec name name); [|contradiction]. now rewrite IH.
    + destruct (inRegistry (registryOf s) x); simpl; [|exact IH].
      destruct (string_dec x name); [contradiction|exact IH].
  - intros Hin. apply filter_In in Hin. destruct Hin as [_ Hin].
    unfold hasSuggestion, inRegistry in Hin. rewrite H in Hin. discriminate.
  - intros Hin. apply filter_In in Hin. destruct Hin as [_ Hin].
    unfold hasNoSuggestion, inRegistry in Hin. rewrite H in Hin. discriminate.
Qed.

End RoundTrip.

Lemma recorded_symbol_is_reported_known_witness :
  ~ In "getUser"
       (unknown (checkSymbols ["getUser"; "getUsr"]
                   (registryOf (addTo Functions emptySymbols "getUser"
                                  "src/api.js" 4)))).
Proof.
  apply (recorded_symbol_is_reported_known
           (addTo Functions emptySymbols "getUser" "src/api.js" 4)
           Functions "getUser" (firstSight "src/api.js" 4)
           ["getUser"; "getUsr"]).
  reflexivity.
Defined.

Section PageScripts.
Import Indexer.

Lemma scriptRegex_shape content m :
  In m (execAll true scriptRegex content) ->
  exists d t, group m 1 = ofChars (d :: t) /\
    Forall (fun c => inClass true quote2 c = false) (d :: t).
Proof.
  intros H. apply execAll_matches in H. destruct H as (x & H).
  unfold scriptRegex in H. cbn [Seqs] in H.
  peel H 10.
  apply Matches_litChars in M. destruct M as (-> & _).
  apply Matches_plus_notcls in M0. destruct M0 as (-> & _).
  apply Matches_litChars in M1. destruct M1 as (-> & _).
  apply Matches_star_cls in M2. destruct M2 as (-> & _).
  apply Matches_Chr_inv in M3. destruct M3 as (-> & _).
  apply Matches_star_cls in M4. destruct M4 as (-> & _).
  apply Matches_Cls_inv in M5. destruct M5 as (-> & _).
  apply Matches_Cap_inv in M6. destruct M6 as (in1 & M6 & ->).
  apply Matches_plus_notcls in M6. destruct M6 as (-> & d & t & St & Ft).
  apply Matches_Cls_inv in M7. destruct M7 as (-> & _).
  apply Matches_star_notcls in M8. destruct M8 as (-> & _).
  apply Matches_Chr_inv in H. destruct H as (E & _).
  rewrite (spans_firstn _ _ _ St) in E.
  exists d, t. split; [|exact Ft]. now rewrite (group_cap m 1 _ _ E).
Qed.

Lemma not_quote2 c :
  inClass true quote2 c = false -> c <> "'"%char /\ c <> dquote.
Proof.
  destruct c as [[] [] [] [] [] [] [] []]; intros H;
    try discriminate H; split; discriminate.
Qed.

(** X19. The script references listed for a page are local ones: none
    starts with [http] or with two slashes, none is empty and none holds
    a single or a double quote. *)
Theorem page_scripts_are_local (filePath content src : string) :
  In src (p_scripts (pageOf filePath content)) ->
  startsWith src "http" = false /\
  startsWith src "//" = false /\
  src <> EmptyString /\
  Forall (fun c => c <> "'"%char /\ c <> dquote) (chars src).
Proof.
  unfold pageOf. simpl. unfold scriptSources. intros H.
  apply filter_In in H. destruct H as [Hin Hloc].
  apply negb_true_iff, orb_false_iff in Hloc. destruct Hloc as [Hh Hs].
  apply in_map_iff in Hin. destruct Hin as (m & <- & Hm).
  apply scriptRegex_shape in Hm. destruct Hm as (d & t & Hg & Ft).
  repeat split; try assumption.
  - rewrite Hg. discriminate.
  - rewrite Hg, chars_ofChars.
    eapply Forall_impl; [|exact Ft]. intros c Hc.
    now apply not_quote2.
Qed.

End PageScripts.

Lemma page_scripts_are_local_witness :
  startsWith "js/app.js" "http" = false /\ "js/app.js" <> EmptyString.
Proof.
  destruct (page_scripts_are_local "index.html"
              "<html><script src='https://cdn.example/x.js'></script><script src='js/app.js'></script></html>"
              "js/app.js") as (Hh & _ & Hne & _).
  - vm_compute. left. reflexivity.
  - split; assumption.
Defined.

(** ** The syntax-tree extractor records what the tree reports *)

Section AstRecords.
Import Indexer Walker.
Context {ast : AstService}.

Lemma keepsFirst_present c s s' n :
  keepsFirst s s' -> present c s n -> present c s' n.
Proof.
  intros [H _] [e He]. destruct (H c n e He) as [k Hk]. now exists (seenAgain k e).
Qed.

(** A loop whose body only ever adds keeps what one of its passes
    recorded. *)
Lemma fold_records {A} (f : Symbols -> A -> Symbols) c n (P : A -> Prop) :
  (forall s a, keepsFirst s (f s a)) ->
  (forall s a, P a -> present c (f s a) n) ->
  forall l s, (exists a, In a l /\ P a) -> present c (fold_left f l s) n.
Proof.
  intros Hkeep Hadd l. induction l as [|a l IH]; intros s (a0 & Hin & Ha0).
  - contradiction.
  - simpl. destruct Hin as [->|Hin].
    + assert (Hk : keepsFirst (f s a0) (fold_left f l (f s a0))).
      { clear -Hkeep. generalize (f s a0). induction l as [|b l IH];
          intros s0; simpl; [apply keepsFirst_refl|].
        eapply keepsFirst_trans; [apply Hkeep|apply IH]. }
      eapply keepsFirst_present; [exact Hk|]. now apply Hadd.
    + apply IH. eauto.
Qed.

Ltac keeps :=
  first [ apply keepsFirst_addTo | apply keepsFirst_refl ].

Lemma addNameField_keeps c filePath off s node :
  keepsFirst s (addNameField c filePath off s node).
Proof. unfold addNameField. destruct (field node "name"); keeps. Qed.

Lemma lexicalDeclarator_keeps filePath off s decl :
  keepsFirst s (lexicalDeclarator filePath off s decl).
Proof.
  unfold lexicalDeclarator.
  destruct (field decl "name"); [|keeps].
  destruct (field decl "value"); [|keeps].
  destruct (isFunctionValue _); keeps.
Qed.

Lemma varDeclarator_keeps filePath off s decl :
  keepsFirst s (varDeclarator filePath off s decl).
Proof.
  unfold varDeclarator. destruct (field decl "name"); [|keeps].
  match goal with |- context [if ?b then _ else _] => destruct b end; keeps.
Qed.

Lemma methodDefinition_keeps filePath off s node :
  keepsFirst s (methodDefinition filePath off s node).
Proof.
  unfold methodDefinition. destruct (field node "name"); [|keeps].
  destruct (negb _); keeps.
Qed.

Lemma fold_keeps {A} (f : Symbols -> A -> Symbols) :
  (forall s a, keepsFirst s (f s a)) ->
  forall l s, keepsFirst s (fold_left f l s).
Proof.
  intros Hf l. induction l as [|a l IH]; intros s; simpl;
    [apply keepsFirst_refl|].
  eapply keepsFirst_trans; [apply Hf|apply IH].
Qed.

Lemma exportStatement_keeps filePath off s node :
  keepsFirst s (exportStatement filePath off s node).
Proof.
  apply (exportStatement_closure keepsFirst keepsFirst_refl keepsFirst_trans
           filePath).
  intros. apply keepsFirst_addTo.
Qed.

Lemma sourceLines_keeps filePath lines : forall i s,
  keepsFirst s (forLines (sourceLine filePath) i lines s).
Proof.
  intros i s.
  apply (forLines_closure keepsFirst keepsFirst_refl keepsFirst_trans).
  intros s0 i0 ln.
  apply (sourceLine_closure keepsFirst keepsFirst_refl keepsFirst_trans
           filePath).
  - intros. apply keepsFirst_addTo.
  - intros. apply keepsFirst_addRoute.
Qed.

Lemma addNameField_records c filePath off s node name :
  field node "name" = Some name -> inherited (text name) = false ->
  present c (addNameField c filePath off s node) (text name).
Proof.
  intros Hf Hi. unfold addNameField. rewrite Hf. now apply addTo_present_new.
Qed.

Lemma named_records c filePath off nodes s node name :
  In node nodes -> field node "name" = Some name ->
  inherited (text name) = false ->
  present c (fold_left (addNameField c filePath off) nodes s) (text name).
Proof.
  intros Hin Hf Hi.
  apply (fold_records _ c (text name)
           (fun nd => field nd "name" = Some name)).
  - intros. apply addNameField_keeps.
  - intros s0 nd Hnd. now apply addNameField_records.
  - eauto.
Qed.

End AstRecords.

Section AstRecordsTheorem.
Import Indexer Walker.
Context {ast : AstService}.

(** X20. [extractAstSymbols] records every declaration the syntax tree
    reports, if its name is not one [Object.prototype] defines: the name
    of a function declaration and of a method other than the constructor
    is in the function category, the name of a class declaration in the
    class category, the name of a declarator of a [const] or [let]
    declaration that has a value in the function category when the value
    is an arrow function or a function expression and in the variable
    category otherwise, and, for a TypeScript file, the name of an
    interface, a type alias or an enum in the class category. *)
Theorem extractAstSymbols_records_declarations
  (root : SgNode) (filePath : string) (lang : Lang) (s : Symbols)
  (lineOffset : nat) :
  let s' := extractAstSymbols root filePath lang s lineOffset in
  (forall node name,
     In node (findAll root "function_declaration") ->
     field node "name" = Some name -> inherited (text name) = false ->
     present Functions s' (text name)) /\
  (forall node name,
     In node (findAll root "class_declaration") ->
     field node "name" = Some name -> inherited (text name) = false ->
     present Classes s' (text name)) /\
  (forall node name,
     In node (findAll root "method_definition") ->
     field node "name" = Some name -> text name <> "constructor" ->
     inherited (text name) = false ->
     present Functions s' (text name)) /\
  (forall node decl name value,
     In node (findAll root "lexical_declaration") ->
     In decl (findAll node "variable_declarator") ->
     field decl "name" = Some name -> field decl "value" = Some value ->
     inherited (text name) = false ->
     present (if isFunctionValue (kind value) then Functions else Variables)
             s' (text name)) /\
  (forall kd node name,
     isTS lang = true ->
     In kd ["interface_declaration"; "type_alias_declaration";
            "enum_declaration"] ->
     In node (findAll root kd) ->
     field node "name" = Some name -> inherited (text name) = false ->
     present Classes s' (text name)).
Proof.
  unfold extractAstSymbols. cbv zeta beta.
  set (s1 := fold_left (addNameField Functions filePath lineOffset)
               (findAll root "function_declaration") s).
  set (s2 := fold_left
               (fun acc node =>
                  fold_left (lexicalDeclarator filePath lineOffset)
                            (findAll node "variable_declarator") acc)
               (findAll root "lexical_declaration") s1).
  set (s3 := fold_left
               (fun acc node =>
                  fold_left (varDeclarator filePath lineOffset)
                            (findAll node "variable_declarator") acc)
               (findAll root "variable_declaration") s2).
  set (s4 := fold_left (addNameField Classes filePath lineOffset)
               (findAll root "class_declaration") s3).
  set (s5 := fold_left (methodDefinition filePath lineOffset)
               (findAll root "method_definition") s4).
  set (i1 := fold_left (addNameField Classes filePath lineOffset)
               (findAll root "interface_declaration") s5).
  set (i2 := fold_left (addNameField Classes filePath lineOffset)
               (findAll root "type_alias_declaration") i1).
  set (i3 := fold_left (addNameField Classes filePath lineOffset)
               (findAll root "enum_declaration") i2).
  set (s6 := if isTS lang then i3 else s5).
  set (s7 := fold_left (exportStatement filePath lineOffset)
               (findAll root "export_statement") s6).
  set (s8 := forLines (sourceLine filePath) 0 (splitOn "010" (text root)) s7).
  assert (K2 : keepsFirst s1 s2).
  { apply fold_keeps. intros. apply fold_keeps. intros.
    apply lexicalDeclarator_keeps. }
  assert (K3 : keepsFirst s2 s3).
  { apply fold_keeps. intros. apply fold_keeps. intros.
    apply varDeclarator_keeps. }
  assert (K4 : keepsFirst s3 s4)
    by (apply fold_keeps; intros; apply addNameField_keeps).
  assert (K5 : keepsFirst s4 s5)
    by (apply fold_keeps; intros; apply methodDefinition_keeps).
  assert (Ki1 : keepsFirst s5 i1)
    by (apply fold_keeps; intros; apply addNameField_keeps).
  assert (Ki2 : keepsFirst i1 i2)
    by (apply fold_keeps; intros; apply addNameField_keeps).
  assert (Ki3 : keepsFirst i2 i3)
    by (apply fold_keeps; intros; apply addNameField_keeps).
  assert (K6 : keepsFirst s5 s6).
  { subst s6. destruct (isTS lang); [|apply keepsFirst_refl].
    eauto using keepsFirst_trans. }
  assert (K7 : keepsFirst s6 s7)
    by (apply fold_keeps; intros; apply exportStatement_keeps).
  assert (K8 : keepsFirst s7 s8) by apply sourceLines_keeps.
  assert (K68 : keepsFirst s6 s8) by eauto using keepsFirst_trans.
  assert (K58 : keepsFirst s5 s8) by eauto using keepsFirst_trans.
  assert (K48 : keepsFirst s4 s8) by eauto using keepsFirst_trans.
  assert (K28 : keepsFirst s2 s8) by eauto using keepsFirst_trans.
  assert (K18 : keepsFirst s1 s8) by eauto using keepsFirst_trans.
  split; [|split; [|split; [|split]]].
  - intros node name Hin Hf Hi.
    apply (keepsFirst_present _ _ _ _ K18). subst s1.
    now apply named_records with node.
  - intros node name Hin Hf Hi.
    apply (keepsFirst_present _ _ _ _ K48). subst s4.
    now apply named_records with node.
  - intros node name Hin Hf Hc Hi.
    apply (keepsFirst_present _ _ _ _ K58). subst s5.
    apply (fold_records _ Functions (text name)
             (fun nd => field nd "name" = Some name)).
    + intros. apply methodDefinition_keeps.
    + intros s0 nd Hnd. unfold methodDefinition. rewrite Hnd.
      replace (text name =? "constructor")%string with false
        by (symmetry; now apply String.eqb_neq).
      cbn [negb]. now apply addTo_present_new.
    + eauto.
  - intros node decl name value Hin Hd Hf Hv Hi.
    apply (keepsFirst_present _ _ _ _ K28). subst s2.
    apply (fold_records _ _ (text name)
             (fun nd => In decl (findAll nd "variable_declarator"))).
    + intros. apply fold_keeps. intros. apply lexicalDeclarator_keeps.
    + intros s0 nd Hnd.
      apply (fold_records _ _ (text name)
               (fun d => field d "name" = Some name /\
                         field d "value" = Some value)).
      * intros. apply lexicalDeclarator_keeps.
      * intros s00 d [Hn Hval]. unfold lexicalDeclarator. rewrite Hn, Hval.
        destruct (isFunctionValue (kind value)); now apply addTo_present_new.
      * eauto.
    + eauto.
  - intros kd node name Hts Hkd Hin Hf Hi.
    apply (keepsFirst_present _ _ _ _ K68). subst s6. rewrite Hts.
    destruct Hkd as [<-|[<-|[<-|[]]]].
    + apply (keepsFirst_present _ i1 _ _);
        [eauto using keepsFirst_trans|].
      subst i1. now apply named_records with node.
    + apply (keepsFirst_present _ _ _ _ Ki3). subst i2.
      now apply named_records with node.
    + subst i3. now apply named_records with node.
Qed.

End AstRecordsTheorem.

Lemma extractAstSymbols_records_declarations_witness :
  present Functions
    (Indexer.extractAstSymbols (ast := Toy.service)
       (Toy.Node "program" "function hello() {}" 0
          [(None, Toy.Node "function_declaration" "function hello() {}" 0
                    [(Some "name", Toy.Node "identifier" "hello" 0 [])])])
       "src/hello.js" JavaScript emptySymbols 0)
    "hello".
Proof.
  destruct (extractAstSymbols_records_declarations (ast := Toy.service)
              (Toy.Node "program" "function hello() {}" 0
                 [(None, Toy.Node "function_declaration" "function hello() {}" 0
                           [(Some "name", Toy.Node "identifier" "hello" 0 [])])])
              "src/hello.js" JavaScript emptySymbols 0) as (Hfun & _).
  apply (Hfun (Toy.Node "function_declaration" "function hello() {}" 0
                 [(Some "name", Toy.Node "identifier" "hello" 0 [])])
              (Toy.Node "identifier" "hello" 0 [])).
  - left. reflexivity.
  - reflexivity.
  - reflexivity.
Defined.

(** ** Running a pattern over a text of a known shape *)

Section RunShapes.

Lemma walkOver_app x l1 l2 :
  walkOver x (l1 ++ l2) = walkOver (walkOver x l1) l2.
Proof.
  revert x. induction l1 as [|c l1 IH]; intros x; simpl; [reflexivity|].
  apply IH.
Qed.

Lemma step_cons x c rest :
  after x = c :: rest -> step x = Some (c, walkOver x [c]).
Proof.
  intros H. unfold step. rewrite H. simpl. rewrite H. reflexivity.
Qed.

Lemma after_walkOver x l rest :
  after x = l ++ rest -> after (walkOver x l) = rest.
Proof. intros H. now destruct (walkOver_spans l x rest H). Qed.

Lemma run_Seq ci r1 r2 x cs k :
  run ci (Seq r1 r2) x cs k = run ci r1 x cs (fun y cs' => run ci r2 y cs' k).
Proof. reflexivity. Qed.

Lemma run_litChars l : forall x cs k rest,
  after x = l ++ rest ->
  run false (litChars l) x cs k = k (walkOver x l) cs.
Proof.
  induction l as [|c l IH]; intros x cs k rest H; [reflexivity|].
  destruct l as [|c' l].
  - simpl run. simpl in H. rewrite (step_cons x c rest H).
    simpl. now rewrite Ascii.eqb_refl.
  - change (litChars (c :: c' :: l)) with (Seq (Chr c) (litChars (c' :: l))).
    simpl run. simpl in H. rewrite (step_cons x c _ H).
    cbn [sameChar]. rewrite Ascii.eqb_refl.
    rewrite (IH _ cs k rest).
    + reflexivity.
    + simpl. rewrite H. reflexivity.
Qed.

Lemma run_Lit s x cs k rest :
  after x = chars s ++ rest ->
  run false (Lit s) x cs k = k (walkOver x (chars s)) cs.
Proof. apply run_litChars. Qed.

(** A literal fails on a text that starts with another character. *)
Lemma run_Lit_mismatch s x cs k c d t rest :
  chars s = d :: t -> after x = c :: rest -> Ascii.eqb c d = false ->
  run false (Lit s) x cs k = None.
Proof.
  unfold Lit. intros Hs Hx Hne. rewrite Hs.
  assert (Hstep : run false (Chr d) x cs
                    (fun y cs' => match t with
                                  | [] => k y cs'
                                  | _ => run false (litChars t) y cs' k
                                  end) = None).
  { simpl. unfold step. rewrite Hx. simpl. now rewrite Hne. }
  destruct t as [|d' t]; simpl in *; exact Hstep.
Qed.

Lemma run_Chr_mismatch d x cs k c rest :
  after x = c :: rest -> Ascii.eqb c d = false ->
  run false (Chr d) x cs k = None.
Proof.
  intros Hx Hne. simpl. unfold step. rewrite Hx. simpl. now rewrite Hne.
Qed.

Lemma run_Chr x cs k c rest :
  after x = c :: rest ->
  run false (Chr c) x cs k = k (walkOver x [c]) cs.
Proof.
  intros H. simpl run. rewrite (step_cons x c rest H).
  simpl. now rewrite Ascii.eqb_refl.
Qed.

Lemma run_Star_cls ci items k res l rest x cs :
  after x = l ++ rest ->
  Forall (fun c => inClass ci items c = true) l ->
  stopsAt ci items rest ->
  k (walkOver x l) cs = Some res ->
  run ci (Star (Cls items)) x cs k = Some res.
Proof.
  intros Hx Hl Hrest Hk.
  change (greedyLoop (run ci (Cls items)) k (S (List.length (after x))) x cs
          = Some res).
  apply (greedyLoop_cls_max ci items k res rest l); try assumption.
  rewrite Hx, length_app. lia.
Qed.

Lemma run_Plus_cls ci items k res c l rest x cs :
  after x = (c :: l) ++ rest ->
  Forall (fun c => inClass ci items c = true) (c :: l) ->
  stopsAt ci items rest ->
  k (walkOver x (c :: l)) cs = Some res ->
  run ci (Plus (Cls items)) x cs k = Some res.
Proof.
  intros Hx Hl Hrest Hk. inversion Hl as [|c0 l0 Hc Hl']; subst.
  unfold Plus.
  change (run ci (Cls items) x cs
            (fun y cs' => run ci (Star (Cls items)) y cs' k) = Some res).
  simpl run at 1. simpl in Hx. rewrite (step_cons x c _ Hx), Hc.
  apply (run_Star_cls ci items k res l rest); try assumption.
  simpl. rewrite Hx. reflexivity.
Qed.

Lemma run_Cap_Plus_cls ci n items k res c l rest x cs :
  after x = (c :: l) ++ rest ->
  Forall (fun c => inClass ci items c = true) (c :: l) ->
  stopsAt ci items rest ->
  k (walkOver x (c :: l)) ((n, c :: l) :: cs) = Some res ->
  run ci (Cap n (Plus (Cls items))) x cs k = Some res.
Proof.
  intros Hx Hl Hrest Hk.
  change (run ci (Plus (Cls items)) x cs
            (fun y cs' =>
               k y ((n, firstn (index y - index x) (after x)) :: cs'))
          = Some res).
  apply (run_Plus_cls ci items _ res c l rest); try assumption.
  destruct (walkOver_spans (c :: l) x rest Hx) as [_ Hi].
  rewrite Hi, Hx.
  replace (index x + List.length (c :: l) - index x)
    with (List.length (c :: l) + 0) by lia.
  rewrite firstn_app_2. simpl firstn. rewrite app_nil_r. exact Hk.
Qed.

End RunShapes.

(** The same, for a continuation known by what it does with the rest of
    the text. *)
Section Leads.
Variables (k : cursor -> captures -> outcome) (x : cursor)
          (cs caps : captures).

Lemma leads_Lit s rest :
  after x = chars s ++ rest -> leads k rest cs caps ->
  exists z, run false (Lit s) x cs k = Some (z, caps).
Proof.
  intros Hx Hk. rewrite (run_Lit s x cs k rest Hx).
  apply Hk. now apply after_walkOver.
Qed.

Lemma leads_Chr c rest :
  after x = c :: rest -> leads k rest cs caps ->
  exists z, run false (Chr c) x cs k = Some (z, caps).
Proof.
  intros Hx Hk. rewrite (run_Chr x cs k c rest Hx).
  apply Hk. now apply (after_walkOver x [c]).
Qed.

Lemma leads_Star_cls items l rest :
  after x = l ++ rest ->
  Forall (fun c => inClass false items c = true) l ->
  stopsAt false items rest -> leads k rest cs caps ->
  exists z, run false (Star (Cls items)) x cs k = Some (z, caps).
Proof.
  intros Hx Hl Hrest Hk.
  destruct (Hk (walkOver x l) (after_walkOver x l rest Hx)) as [z Hz].
  exists z. now apply (run_Star_cls false items k (z, caps) l rest).
Qed.

Lemma leads_Plus_cls items c l rest :
  after x = (c :: l) ++ rest ->
  Forall (fun c => inClass false items c = true) (c :: l) ->
  stopsAt false items rest -> leads k rest cs caps ->
  exists z, run false (Plus (Cls items)) x cs k = Some (z, caps).
Proof.
  intros Hx Hl Hrest Hk.
  destruct (Hk (walkOver x (c :: l)) (after_walkOver x (c :: l) rest Hx))
    as [z Hz].
  exists z. now apply (run_Plus_cls false items k (z, caps) c l rest).
Qed.

Lemma leads_Cap_Plus_cls n items c l rest :
  after x = (c :: l) ++ rest ->
  Forall (fun c => inClass false items c = true) (c :: l) ->
  stopsAt false items rest -> leads k rest ((n, c :: l) :: cs) caps ->
  exists z, run false (Cap n (Plus (Cls items))) x cs k = Some (z, caps).
Proof.
  intros Hx Hl Hrest Hk.
  destruct (Hk (walkOver x (c :: l)) (after_walkOver x (c :: l) rest Hx))
    as [z Hz].
  exists z. now apply (run_Cap_Plus_cls false n items k (z, caps) c l rest).
Qed.

Lemma leads_Opt_skip r :
  run false r x cs k = None ->
  (exists z, k x cs = Some (z, caps)) ->
  exists z, run false (Opt r) x cs k = Some (z, caps).
Proof.
  intros Hr [z Hz]. exists z. unfold Opt. simpl. now rewrite Hr.
Qed.

Lemma leads_Opt_take r :
  (exists z, run false r x cs k = Some (z, caps)) ->
  exists z, run false (Opt r) x cs k = Some (z, caps).
Proof.
  intros [z Hz]. exists z. unfold Opt. simpl. now rewrite Hz.
Qed.

Lemma leads_Bol :
  index x = 0 -> (exists z, k x cs = Some (z, caps)) ->
  exists z, run false Bol x cs k = Some (z, caps).
Proof. intros Hi H. simpl. now rewrite Hi. Qed.

End Leads.

Lemma leads_done rest cs :
  leads (fun y cs' => Some (y, cs')) rest cs cs.
Proof. intros y _. now exists y. Qed.

Lemma exec_leads r s caps :
  (exists z, run false r {| before := None; after := chars s; index := 0 |}
               [] (fun y cs => Some (y, cs)) = Some (z, caps)) ->
  exists m, exec false r s = Some m /\ f_caps m = caps.
Proof.
  intros [z Hz]. unfold exec.
  destruct (chars s) as [|c t]; simpl; rewrite Hz; eauto.
Qed.

Lemma group_first m n l rest :
  f_caps m = (n, chars l) :: rest -> group m n = l.
Proof.
  intros H. unfold group. rewrite H. simpl. rewrite Nat.eqb_refl.
  apply ofChars_chars.
Qed.

(** What the texts of a line are made of. *)
Section Texts.

Lemma isWordText_chars s :
  isWordText s = true ->
  exists c l, chars s = c :: l /\ isWord c = true /\
              Forall (fun c => inClass false [Word] c = true) (c :: l).
Proof.
  unfold isWordText. intros H. apply andb_true_iff in H. destruct H as [Hn Hw].
  destruct s as [|c s]; [discriminate|].
  exists c, (chars s). split; [reflexivity|].
  rewrite forallb_forall in Hw. split; [apply Hw; now left|].
  apply Forall_forall. intros d Hd. specialize (Hw d Hd).
  unfold inClass. simpl. now rewrite Hw.
Qed.

Lemma isSpaces_chars s :
  isSpaces s = true ->
  Forall (fun c => inClass false [Space] c = true) (chars s).
Proof.
  unfold isSpaces. intros H. apply Forall_forall. intros d Hd.
  rewrite forallb_forall in H. specialize (H d Hd).
  unfold inClass. simpl. now rewrite H.
Qed.

Lemma isGap_chars s :
  isGap s = true ->
  exists c l, chars s = c :: l /\ isSpace c = true /\
              Forall (fun c => inClass false [Space] c = true) (c :: l).
Proof.
  unfold isGap. intros H. apply andb_true_iff in H. destruct H as [Hn Hw].
  pose proof (isSpaces_chars s Hw) as HF.
  destruct s as [|c s]; [discriminate|].
  exists c, (chars s). split; [reflexivity|]. split; [|exact HF].
  unfold isSpaces in Hw. rewrite forallb_forall in Hw. apply Hw. now left.
Qed.

Lemma space_not_word c : isSpace c = true -> isWord c = false.
Proof.
  destruct (isWord c) eqn:E; [|reflexivity].
  apply word_not_space in E. congruence.
Qed.

Lemma stops_space c rest : isSpace c = false -> stopsAt false [Space] (c :: rest).
Proof. intros H. simpl. unfold inClass. simpl. now rewrite H. Qed.

Lemma stops_word c rest : isWord c = false -> stopsAt false [Word] (c :: rest).
Proof. intros H. simpl. unfold inClass. simpl. now rewrite H. Qed.

Lemma stops_word_endsWord rest :
  endsWord rest = true -> stopsAt false [Word] (chars rest).
Proof.
  unfold endsWord. destruct (chars rest) as [|c t]; [easy|].
  intros H. apply stops_word. now apply negb_true_iff.
Qed.

End Texts.

(** ** Declarations the patterns of the extractors find *)

(** The next part of a pattern, at the position the part before it
    reached. *)
Ltac onward := let y := fresh "y" in let Hy := fresh "Hy" in
  intros y Hy; cbv beta; rewrite ?run_Seq.

Section Declarations.

(** [(\w+)\s*\(] on a name, white space and an opening parenthesis. *)
Lemma leads_name_call name gap rest cs :
  isWordText name = true -> isSpaces gap = true ->
  leads (fun y cs' =>
           run false (Seqs [Cap 1 (Plus w); Star sp; Chr "("]) y cs'
               (fun z cs2 => Some (z, cs2)))
        (chars name ++ chars gap ++ "("%char :: rest) cs
        ((1, chars name) :: cs).
Proof.
  intros Hname Hgap.
  destruct (isWordText_chars name Hname) as (c & l & -> & Hc & Hw).
  apply isSpaces_chars in Hgap.
  cbn [Seqs]. onward. unfold w, sp.
  eapply leads_Cap_Plus_cls; [exact Hy|exact Hw| |].
  - destruct (chars gap) as [|d t]; simpl.
    + reflexivity.
    + inversion Hgap as [|? ? Hd _]; subst.
      unfold inClass in *. simpl in *. rewrite orb_false_r in *.
      now apply space_not_word.
  - onward. eapply leads_Star_cls; [exact Hy0|exact Hgap| |].
    + now apply stops_space.
    + onward. eapply leads_Chr; [exact Hy1|]. apply leads_done.
Qed.

(** [(\w+)] on a name that the text does not continue. *)
Lemma leads_name name rest cs :
  isWordText name = true -> endsWord rest = true ->
  leads (fun y cs' =>
           run false (Cap 1 (Plus w)) y cs' (fun z cs2 => Some (z, cs2)))
        (chars name ++ chars rest) cs ((1, chars name) :: cs).
Proof.
  intros Hname Hrest.
  destruct (isWordText_chars name Hname) as (c & l & -> & Hc & Hw).
  onward. unfold w.
  eapply leads_Cap_Plus_cls; [exact Hy|exact Hw| |].
  - now apply stops_word_endsWord.
  - apply leads_done.
Qed.

(** [(?:kw\s+)?] on the keyword with white space, or on a text that
    starts with another character. *)
Lemma leads_keyword_taken kw gap rest k cs caps :
  isGap gap = true -> stopsAt false [Space] rest ->
  leads k rest cs caps ->
  leads (fun y cs' => run false (Opt (Seq (Lit kw) (Plus sp))) y cs' k)
        (chars kw ++ chars gap ++ rest) cs caps.
Proof.
  intros Hgap Hrest Hk.
  destruct (isGap_chars gap Hgap) as (c & l & E & Hc & Hs).
  onward. apply leads_Opt_take. rewrite run_Seq.
  eapply leads_Lit; [exact Hy|]. onward. unfold sp. rewrite E in *.
  eapply leads_Plus_cls; [exact Hy0|exact Hs|exact Hrest|exact Hk].
Qed.

Lemma leads_keyword_skipped kw d t c rest k cs caps :
  chars kw = d :: t -> Ascii.eqb c d = false ->
  leads k (c :: rest) cs caps ->
  leads (fun y cs' => run false (Opt (Seq (Lit kw) (Plus sp))) y cs' k)
        (c :: rest) cs caps.
Proof.
  intros Hkw Hne Hk. onward. apply leads_Opt_skip.
  - rewrite run_Seq. now apply (run_Lit_mismatch kw y cs _ c d t rest).
  - now apply Hk.
Qed.

End Declarations.

Section DeclarationPatterns.

Lemma word_is_not c d : isWord c = true -> isWord d = false ->
  Ascii.eqb c d = false.
Proof.
  intros Hc Hd. destruct (Ascii.eqb c d) eqn:E; [|reflexivity].
  apply Ascii.eqb_eq in E. congruence.
Qed.

Lemma space_is_not c d : isSpace c = false -> isSpace d = true ->
  Ascii.eqb c d = false.
Proof.
  intros Hc Hd. destruct (Ascii.eqb c d) eqn:E; [|reflexivity].
  apply Ascii.eqb_eq in E. congruence.
Qed.

Lemma leads_receiver_taken recv gap star typ tail rest k cs caps :
  isWordText recv = true -> isGap gap = true ->
  star = "" \/ star = "*" -> isWordText typ = true -> isGap tail = true ->
  stopsAt false [Space] rest -> leads k rest cs caps ->
  leads (fun y cs' => run false (Opt receiverPattern) y cs' k)
        ("("%char :: chars recv ++ chars gap ++ chars star ++ chars typ ++
         ")"%char :: chars tail ++ rest) cs caps.
Proof.
  intros Hrecv Hgap Hstar Htyp Htail Hrest Hk.
  destruct (isWordText_chars recv Hrecv) as (c1 & l1 & -> & Hc1 & Hw1).
  destruct (isGap_chars gap Hgap) as (c2 & l2 & -> & Hc2 & Hs2).
  destruct (isWordText_chars typ Htyp) as (c3 & l3 & -> & Hc3 & Hw3).
  destruct (isGap_chars tail Htail) as (c4 & l4 & -> & Hc4 & Hs4).
  onward. apply leads_Opt_take. unfold receiverPattern. cbn [Seqs].
  rewrite ?run_Seq. unfold w, sp.
  eapply leads_Chr; [exact Hy|]. onward.
  eapply leads_Plus_cls; [exact Hy0|exact Hw1| |].
  { apply stops_word. now apply space_not_word. }
  onward.
  eapply leads_Plus_cls; [exact Hy1|exact Hs2| |].
  { destruct Hstar as [->| ->]; simpl app.
    - apply stops_space. now apply word_not_space.
    - now apply stops_space. }
  onward. destruct Hstar as [->| ->]; simpl app in Hy2.
  - apply leads_Opt_skip.
    + apply (run_Chr_mismatch "*" y2 cs _ c3 _ Hy2).
      now apply word_is_not.
    + rewrite ?run_Seq.
      eapply leads_Plus_cls; [exact Hy2|exact Hw3|now apply stops_word|].
      onward. eapply leads_Chr; [exact Hy3|]. onward.
      eapply leads_Plus_cls; [exact Hy4|exact Hs4|exact Hrest|exact Hk].
  - apply leads_Opt_take.
    eapply leads_Chr; [exact Hy2|]. onward.
    eapply leads_Plus_cls; [exact Hy3|exact Hw3|now apply stops_word|].
    onward. eapply leads_Chr; [exact Hy4|]. onward.
    eapply leads_Plus_cls; [exact Hy5|exact Hs4|exact Hrest|exact Hk].
Qed.

Lemma leads_receiver_skipped name rest k cs caps :
  isWordText name = true -> leads k (chars name ++ rest) cs caps ->
  leads (fun y cs' => run false (Opt receiverPattern) y cs' k)
        (chars name ++ rest) cs caps.
Proof.
  intros Hname Hk. onward. apply leads_Opt_skip.
  - destruct (isWordText_chars name Hname) as (c & l & E & Hc & _).
    rewrite E in Hy. simpl app in Hy.
    unfold receiverPattern. cbn [Seqs]. rewrite run_Seq.
    apply (run_Chr_mismatch "(" y cs _ c _ Hy). now apply word_is_not.
  - now apply Hk.
Qed.

Lemma stops_space_at_word name rest :
  isWordText name = true -> stopsAt false [Space] (chars name ++ rest).
Proof.
  intros Hname. destruct (isWordText_chars name Hname) as (c & l & -> & Hc & _).
  simpl app. apply stops_space. now apply word_not_space.
Qed.

Lemma goFuncDecl_parts :
  goFuncDecl =
  Seq Bol (Seq (Lit "func") (Seq (Plus sp) (Seq (Opt receiverPattern)
    (Seqs [Cap 1 (Plus w); Star sp; Chr "("])))).
Proof. reflexivity. Qed.

Lemma pyFuncDef_parts :
  pyFuncDef =
  Seq Bol (Seq (Opt (Seq (Lit "async") (Plus sp)))
    (Seq (Lit "def") (Seq (Plus sp)
       (Seqs [Cap 1 (Plus w); Star sp; Chr "("])))).
Proof. reflexivity. Qed.

(** The pattern of [extractGo] for functions finds the name of a
    function or method declaration that starts its line. *)
Lemma goFuncDecl_finds gap1 receiver name gap2 rest :
  isGap gap1 = true -> optionalReceiver receiver ->
  isWordText name = true -> isSpaces gap2 = true ->
  exists m,
    exec false goFuncDecl
      ("func" ++ gap1 ++ receiver ++ name ++ gap2 ++ "(" ++ rest)%string
    = Some m /\ group m 1 = name.
Proof.
  intros Hgap1 Hrecv Hname Hgap2.
  pose proof (leads_name_call name gap2 (chars rest) [] Hname Hgap2) as Htail.
  destruct (exec_leads goFuncDecl
              ("func" ++ gap1 ++ receiver ++ name ++ gap2 ++ "(" ++ rest)%string
              [(1, chars name)]) as (m & Em & Hm).
  2: { exists m. split; [exact Em|]. now apply (group_first m 1 name []). }
  rewrite !chars_app.
  change (chars "(" ++ chars rest) with ("("%char :: chars rest).
  rewrite goFuncDecl_parts, ?run_Seq.
  apply leads_Bol; [reflexivity|].
  eapply leads_Lit; [reflexivity|]. onward.
  destruct (isGap_chars gap1 Hgap1) as (c1 & l1 & E1 & Hc1 & Hs1).
  rewrite E1 in Hy. unfold sp.
  destruct Hrecv as [->|(recv & gap & star & typ & tail &
                         Hr & Hg & Hstar & Ht & Htl & ->)].
  - simpl app in Hy.
    eapply leads_Plus_cls;
      [exact Hy|exact Hs1|now apply stops_space_at_word|].
    now apply leads_receiver_skipped.
  - rewrite !chars_app in Hy.
    change (chars "(") with ["("%char] in Hy.
    change (chars ")") with [")"%char] in Hy.
    rewrite <- !app_assoc in Hy. simpl app in Hy.
    eapply leads_Plus_cls; [exact Hy|exact Hs1|now apply stops_space|].
    apply leads_receiver_taken; try assumption.
    now apply stops_space_at_word.
Qed.

(** The pattern of [extractRust] for functions. *)
Lemma rustFnDecl_finds pubPart asyncPart gap name rest :
  optionalKeyword "pub" pubPart -> optionalKeyword "async" asyncPart ->
  isGap gap = true -> isWordText name = true -> endsWord rest = true ->
  exists m,
    exec false rustFnDecl
      (pubPart ++ asyncPart ++ "fn" ++ gap ++ name ++ rest)%string
    = Some m /\ group m 1 = name.
Proof.
  intros Hpub Hasync Hgap Hname Hrest.
  destruct (exec_leads rustFnDecl
              (pubPart ++ asyncPart ++ "fn" ++ gap ++ name ++ rest)%string
              [(1, chars name)]) as (m & Em & Hm).
  2: { exists m. split; [exact Em|]. now apply (group_first m 1 name []). }
  rewrite !chars_app. unfold rustFnDecl, pub. cbn [Seqs]. rewrite ?run_Seq.
  apply leads_Bol; [reflexivity|].
  destruct (isGap_chars gap Hgap) as (c1 & l1 & E1 & Hc1 & Hs1).
  assert (Hfn : leads (fun y cs' =>
                  run false (Lit "fn") y cs' (fun y0 cs'0 =>
                    run false (Plus sp) y0 cs'0 (fun y1 cs'1 =>
                      run false (Cap 1 (Plus w)) y1 cs'1
                        (fun z cs2 => Some (z, cs2)))))
                  (chars "fn" ++ chars gap ++ chars name ++ chars rest) []
                  [(1, chars name)]).
  { onward. eapply leads_Lit; [exact Hy|]. onward. unfold sp.
    rewrite E1 in Hy0.
    eapply leads_Plus_cls;
      [exact Hy0|exact Hs1|now apply stops_space_at_word|].
    now apply leads_name. }
  assert (Hasy : leads (fun y cs' =>
                  run false (Opt (Seq (Lit "async") (Plus sp))) y cs'
                    (fun y cs' =>
                  run false (Lit "fn") y cs' (fun y0 cs'0 =>
                    run false (Plus sp) y0 cs'0 (fun y1 cs'1 =>
                      run false (Cap 1 (Plus w)) y1 cs'1
                        (fun z cs2 => Some (z, cs2))))))
                  (chars asyncPart ++ chars "fn" ++ chars gap ++ chars name ++
                   chars rest) [] [(1, chars name)]).
  { destruct Hasync as [->|(g & Hg & ->)].
    - apply (leads_keyword_skipped "async" "a" (chars "sync") "f");
        [reflexivity|reflexivity|exact Hfn].
    - rewrite chars_app, <- app_assoc.
      apply leads_keyword_taken; [exact Hg|now apply stops_space|exact Hfn]. }
  cbv beta. rewrite ?run_Seq.
  destruct Hpub as [->|(g & Hg & ->)].
  - destruct Hasync as [->|(g' & Hg' & ->)].
    + apply (leads_keyword_skipped "pub" "p" (chars "ub") "f"
               (chars "n" ++ chars gap ++ chars name ++ chars rest) _ [] _
               eq_refl eq_refl Hasy).
      reflexivity.
    + rewrite chars_app, <- app_assoc in Hasy.
      apply (leads_keyword_skipped "pub" "p" (chars "ub") "a"
               (chars "sync" ++ chars g' ++ chars "fn" ++ chars gap ++
                chars name ++ chars rest) _ [] _
               eq_refl eq_refl Hasy).
      rewrite chars_app, <- app_assoc. reflexivity.
  - rewrite chars_app, <- app_assoc.
    eapply (leads_keyword_taken "pub" g); [exact Hg| |exact Hasy|reflexivity].
    destruct Hasync as [->|(g' & Hg' & ->)]; now apply stops_space.
Qed.

(** The pattern of [extractPython] for functions of the top level. *)
Lemma pyFuncDef_finds asyncPart gap name gap2 rest :
  optionalKeyword "async" asyncPart -> isGap gap = true ->
  isWordText name = true -> isSpaces gap2 = true ->
  exists m,
    exec false pyFuncDef
      (asyncPart ++ "def" ++ gap ++ name ++ gap2 ++ "(" ++ rest)%string
    = Some m /\ group m 1 = name.
Proof.
  intros Hasync Hgap Hname Hgap2.
  pose proof (leads_name_call name gap2 (chars rest) [] Hname Hgap2) as Htail.
  destruct (exec_leads pyFuncDef
              (asyncPart ++ "def" ++ gap ++ name ++ gap2 ++ "(" ++ rest)%string
              [(1, chars name)]) as (m & Em & Hm).
  2: { exists m. split; [exact Em|]. now apply (group_first m 1 name []). }
  rewrite !chars_app.
  change (chars "(" ++ chars rest) with ("("%char :: chars rest).
  rewrite pyFuncDef_parts, ?run_Seq.
  apply leads_Bol; [reflexivity|].
  destruct (isGap_chars gap Hgap) as (c1 & l1 & E1 & Hc1 & Hs1).
  assert (Hdef : leads (fun y cs' =>
                  run false (Lit "def") y cs' (fun y0 cs'0 =>
                    run false (Plus sp) y0 cs'0 (fun y1 cs'1 =>
                      run false (Seqs [Cap 1 (Plus w); Star sp; Chr "("])
                        y1 cs'1 (fun z cs2 => Some (z, cs2)))))
                  (chars "def" ++ chars gap ++ chars name ++ chars gap2 ++
                   "("%char :: chars rest) [] [(1, chars name)]).
  { onward. eapply leads_Lit; [exact Hy|]. onward. unfold sp.
    rewrite E1 in Hy0.
    eapply leads_Plus_cls;
      [exact Hy0|exact Hs1|now apply stops_space_at_word|exact Htail]. }
  cbv beta. rewrite ?run_Seq.
  destruct Hasync as [->|(g & Hg & ->)].
  - apply (leads_keyword_skipped "async" "a" (chars "sync") "d"
             (chars "ef" ++ chars gap ++ chars name ++ chars gap2 ++
              "("%char :: chars rest) _ [] _ eq_refl eq_refl Hdef).
    reflexivity.
  - rewrite chars_app, <- app_assoc.
    eapply (leads_keyword_taken "async" g);
      [exact Hg| |exact Hdef|reflexivity].
    now apply stops_space.
Qed.

(** A loop over the lines whose body only ever adds keeps what the pass
    over one of the lines recorded. *)
Lemma forLines_records (f : Symbols -> nat -> string -> Symbols) c name ln :
  (forall s i l, keepsFirst s (f s i l)) ->
  (forall s i, present c (f s i ln) name) ->
  forall lines j s, nth_error lines j = Some ln ->
  present c (forLines f 0 lines s) name.
Proof.
  intros Hkeep Hadd lines j s Hj.
  destruct (forLines_split f lines j ln 0 s Hj) as (pre & post & ->).
  eapply keepsFirst_present.
  - apply (forLines_closure keepsFirst keepsFirst_refl keepsFirst_trans f Hkeep).
  - apply Hadd.
Qed.

End DeclarationPatterns.

Section DeclarationsFound.

Lemma line_keeps (f : string -> Symbols -> nat -> string -> Symbols) filePath :
  (forall R : Symbols -> Symbols -> Prop,
     (forall s, R s s) ->
     forall filePath,
     (forall c s name ln, 1 <= ln -> R s (addTo c s name filePath ln)) ->
     forall s i ln, R s (f filePath s i ln)) ->
  forall s i ln, keepsFirst s (f filePath s i ln).
Proof.
  intros H. apply (H keepsFirst keepsFirst_refl filePath).
  intros. apply keepsFirst_addTo.
Qed.

(** X21. [extractGo] records every function and method declared at the
    start of a line: for a line [func name(...], or
    [func (recv T) name(...] or [func (recv *T) name(...] with a
    receiver, the name is in the function category after the call,
    unless it is a name [Object.prototype] defines. *)
Theorem extractGo_records_declared_functions
  (filePath : string) (lines : list string) (s : Symbols) (i : nat)
  (gap1 receiver name gap2 rest : string) :
  nth_error lines i
    = Some ("func" ++ gap1 ++ receiver ++ name ++ gap2 ++ "(" ++ rest)%string ->
  isGap gap1 = true -> optionalReceiver receiver ->
  isWordText name = true -> isSpaces gap2 = true ->
  inherited name = false ->
  present Functions (extractGo filePath lines s) name.
Proof.
  intros Hi Hgap1 Hrecv Hname Hgap2 Hinh. unfold extractGo.
  eapply (forLines_records (goLine filePath) Functions name);
    [apply (line_keeps goLine filePath goLine_closure)| |exact Hi].
  intros s0 i0. unfold goLine. cbv zeta.
  destruct (goFuncDecl_finds gap1 receiver name gap2 rest
              Hgap1 Hrecv Hname Hgap2) as (m & -> & <-).
  now apply addTo_present_new.
Qed.

(** X22. [extractRust] records every function declared at the start of
    a line: for a line [fn name...], with [pub] or [async] or both before
    [fn], the name is in the function category after the call, unless it
    is a name [Object.prototype] defines. *)
Theorem extractRust_records_declared_functions
  (filePath : string) (lines : list string) (s : Symbols) (i : nat)
  (pubPart asyncPart gap name rest : string) :
  nth_error lines i
    = Some (pubPart ++ asyncPart ++ "fn" ++ gap ++ name ++ rest)%string ->
  optionalKeyword "pub" pubPart -> optionalKeyword "async" asyncPart ->
  isGap gap = true -> isWordText name = true -> endsWord rest = true ->
  inherited name = false ->
  present Functions (extractRust filePath lines s) name.
Proof.
  intros Hi Hpub Hasync Hgap Hname Hrest Hinh. unfold extractRust.
  eapply (forLines_records (rustLine filePath) Functions name);
    [apply (line_keeps rustLine filePath rustLine_closure)| |exact Hi].
  intros s0 i0. unfold rustLine. cbv zeta.
  destruct (rustFnDecl_finds pubPart asyncPart gap name rest
              Hpub Hasync Hgap Hname Hrest) as (m & -> & <-).
  now apply addTo_present_new.
Qed.

(** X23. [extractPython] records every function defined in the first
    column: for a line [def name(...] or [async def name(...] the name is
    in the function category after the call, unless it is a name
    [Object.prototype] defines. *)
Theorem extractPython_records_top_level_functions
  (filePath : string) (lines : list string) (s : Symbols) (i : nat)
  (asyncPart gap name gap2 rest : string) :
  nth_error lines i
    = Some (asyncPart ++ "def" ++ gap ++ name ++ gap2 ++ "(" ++ rest)%string ->
  optionalKeyword "async" asyncPart -> isGap gap = true ->
  isWordText name = true -> isSpaces gap2 = true ->
  inherited name = false ->
  present Functions (extractPython filePath lines s) name.
Proof.
  intros Hi Hasync Hgap Hname Hgap2 Hinh. unfold extractPython.
  eapply (forLines_records (pythonLine filePath) Functions name);
    [apply (line_keeps pythonLine filePath pythonLine_closure)| |exact Hi].
  intros s0 i0. unfold pythonLine. cbv zeta.
  destruct (pyFuncDef_finds asyncPart gap name gap2 rest
              Hasync Hgap Hname Hgap2) as (m & -> & <-).
  now apply addTo_present_new.
Qed.

End DeclarationsFound.

Lemma extractGo_records_declared_functions_witness :
  present Functions
    (extractGo "server/main.go"
       ["package main"; "";
        "func (s *Server) Start(port int) error {"] emptySymbols)
    "Start".
Proof.
  apply (extractGo_records_declared_functions "server/main.go" _ emptySymbols
           2 " " "(s *Server) " "Start" "" "port int) error {").
  - reflexivity.
  - reflexivity.
  - right. exists "s", " ", "*", "Server", " ". repeat split; auto.
  - reflexivity.
  - reflexivity.
  - reflexivity.
Defined.

Lemma extractRust_records_declared_functions_witness :
  present Functions
    (extractRust "src/lib.rs"
       ["use std::io;"; "pub async fn fetch_all(urls: &[Url]) {"]
       emptySymbols)
    "fetch_all".
Proof.
  apply (extractRust_records_declared_functions "src/lib.rs" _ emptySymbols
           1 "pub " "async " " " "fetch_all" "(urls: &[Url]) {").
  - reflexivity.
  - right. exists " ". split; reflexivity.
  - right. exists " ". split; reflexivity.
  - reflexivity.
  - reflexivity.
  - reflexivity.
  - reflexivity.
Defined.

Lemma extractPython_records_top_level_functions_witness :
  present Functions
    (extractPython "tools/run.py"
       ["import os"; "def main (argv):"] emptySymbols)
    "main".
Proof.
  apply (extractPython_records_top_level_functions "tools/run.py" _
           emptySymbols 1 "" " " "main" " " "argv):").
  - reflexivity.
  - left. reflexivity.
  - reflexivity.
  - reflexivity.
  - reflexivity.
  - reflexivity.
Defined.

(** ** The scan of the raw source lines *)

Section LineScan.
Import Indexer Walker.
Context {ast : AstService}.

Lemma fold_same {A X} (proj : Symbols -> X) (f : Symbols -> A -> Symbols) :
  (forall s a, proj (f s a) = proj s) ->
  forall l s, proj (fold_left f l s) = proj s.
Proof.
  intros Hf l. induction l as [|a l IH]; intros s; simpl; [reflexivity|].
  now rewrite IH, Hf.
Qed.

Lemma forLines_app (f : Symbols -> nat -> string -> Symbols) l1 : forall l2 i s,
  forLines f i (l1 ++ l2) s =
  forLines f (i + List.length l1) l2 (forLines f i l1 s).
Proof.
  induction l1 as [|l l1 IH]; intros l2 i s; simpl.
  - now rewrite Nat.add_0_r.
  - rewrite IH. now replace (S i + List.length l1)
                        with (i + S (List.length l1)) by lia.
Qed.

Lemma addTo_routes c s name filePath ln :
  apiRoutes (addTo c s name filePath ln) = apiRoutes s.
Proof. destruct c; reflexivity. Qed.

Lemma addRoute_cat c s key e : getCat c (addRoute s key e) = getCat c s.
Proof. unfold addRoute. destruct (truthy _); destruct c; reflexivity. Qed.

(** The passes over the syntax tree leave the routes alone, and the
    passes before the one over the export statements leave the exports
    alone. *)
Ltac tree_cases :=
  repeat match goal with
         | |- context [match ?x with _ => _ end] => destruct x
         end;
  try reflexivity.

Lemma addNameField_routes c filePath off s node :
  apiRoutes (addNameField c filePath off s node) = apiRoutes s.
Proof. unfold addNameField. tree_cases. apply addTo_routes. Qed.

Lemma lexicalDeclarator_routes filePath off s decl :
  apiRoutes (lexicalDeclarator filePath off s decl) = apiRoutes s.
Proof. unfold lexicalDeclarator. tree_cases. Qed.

Lemma varDeclarator_routes filePath off s decl :
  apiRoutes (varDeclarator filePath off s decl) = apiRoutes s.
Proof. unfold varDeclarator. tree_cases. Qed.

Lemma methodDefinition_routes filePath off s node :
  apiRoutes (methodDefinition filePath off s node) = apiRoutes s.
Proof. unfold methodDefinition. tree_cases. Qed.

Lemma exportStatement_routes filePath off s node :
  apiRoutes (exportStatement filePath off s node) = apiRoutes s.
Proof.
  unfold exportStatement.
  repeat match goal with
         | |- context [match ?x with _ => _ end] => destruct x
         end;
  rewrite ?addTo_routes;
  rewrite ?(fold_same apiRoutes _ (addNameField_routes Exports filePath off));
  rewrite ?addTo_routes;
  rewrite ?(fold_same apiRoutes _ (addNameField_routes Exports filePath off));
  reflexivity.
Qed.

Lemma lexicalDeclarator_exports filePath off s decl :
  exports (lexicalDeclarator filePath off s decl) = exports s.
Proof. unfold lexicalDeclarator. tree_cases. Qed.

Lemma varDeclarator_exports filePath off s decl :
  exports (varDeclarator filePath off s decl) = exports s.
Proof. unfold varDeclarator. tree_cases. Qed.

Lemma methodDefinition_exports filePath off s node :
  exports (methodDefinition filePath off s node) = exports s.
Proof. unfold methodDefinition. tree_cases. Qed.

Lemma addNameField_exports c filePath off s node :
  c <> Exports ->
  exports (addNameField c filePath off s node) = exports s.
Proof.
  intros Hc. unfold addNameField. destruct (field node "name"); [|reflexivity].
  destruct c; try reflexivity. contradiction.
Qed.

(** [extractAstSymbols] is the scan of the source lines of the root,
    started from what the passes over the tree recorded. *)
Lemma extractAstSymbols_scan root filePath lang s off :
  exists t,
    extractAstSymbols root filePath lang s off =
    forLines (sourceLine filePath) 0 (splitOn "010" (text root)) t /\
    apiRoutes t = apiRoutes s /\
    (findAll root "export_statement" = [] -> exports t = exports s).
Proof.
  unfold extractAstSymbols. eexists. split; [reflexivity|]. split.
  - rewrite (fold_same apiRoutes _ (exportStatement_routes filePath off)).
    destruct (isTS lang);
      repeat first
        [ rewrite (fold_same apiRoutes _ (addNameField_routes _ filePath off))
        | rewrite (fold_same apiRoutes _ (methodDefinition_routes filePath off))
        | rewrite (fold_same apiRoutes)
            by (intros; apply (fold_same apiRoutes); intros;
                first [apply lexicalDeclarator_routes
                      |apply varDeclarator_routes]) ];
      reflexivity.
  - intros ->. cbn [fold_left].
    assert (Hn : forall c, c <> Exports -> forall l s0,
              exports (fold_left (addNameField c filePath off) l s0)
              = exports s0).
    { intros c Hc. apply (fold_same exports). intros.
      now apply addNameField_exports. }
    destruct (isTS lang);
      repeat first
        [ rewrite Hn by discriminate
        | rewrite (fold_same exports _ (methodDefinition_exports filePath off))
        | rewrite (fold_same exports)
            by (intros; apply (fold_same exports); intros;
                first [apply lexicalDeclarator_exports
                      |apply varDeclarator_exports]) ];
      reflexivity.
Qed.

(** A tree without a node of the kinds asked for: the extraction is the
    scan of the source lines. *)
Lemma extractAstSymbols_no_findings root filePath lang s off :
  (forall kd, In kd queriedKinds -> findAll root kd = []) ->
  extractAstSymbols root filePath lang s off =
  forLines (sourceLine filePath) 0 (splitOn "010" (text root)) s.
Proof.
  intros Hnone. unfold extractAstSymbols.
  rewrite !Hnone by (unfold queriedKinds; simpl; tauto).
  simpl. destruct (isTS lang); reflexivity.
Qed.

(** *** What a line adds *)

(** The same location. *)
Lemma addTo_exports_origin s name filePath ln n e :
  own (exports (addTo Exports s name filePath ln)) n = Some e ->
  (exists e0, own (exports s) n = Some e0 /\ file e0 = file e /\
              line e0 = line e) \/
  (file e = filePath /\ line e = ln).
Proof. apply addSymbol_origin. Qed.

(** A line that is no single-property export: the bulk export, if any,
    first, then the route or the mount. *)
Lemma sourceLine_parts filePath s i ln :
  exec false memberExport ln = None ->
  exists s1,
    apiRoutes s1 = apiRoutes s /\ functions s1 = functions s /\
    classes s1 = classes s /\ variables s1 = variables s /\
    (forall n e, own (exports s1) n = Some e ->
       (exists e0, own (exports s) n = Some e0 /\ file e0 = file e /\
                   line e0 = line e) \/
       (file e = filePath /\ line e = i + 1)) /\
    sourceLine filePath s i ln =
    match exec false routeMatch ln with
    | Some m =>
        addRoute s1 (toUpperCase (group m 1) ++ " " ++ group m 2)
          {| r_file := filePath; r_line := i + 1;
             r_method := toUpperCase (group m 1); r_path := group m 2 |}
    | None =>
        match exec false mountMatch ln with
        | Some m =>
            if startsWith (group m 1) "/api"
            then addRoute s1 ("MOUNT " ++ group m 1)
                   {| r_file := filePath; r_line := i + 1;
                      r_method := "MOUNT"; r_path := group m 1 |}
            else s1
        | None => s1
        end
    end.
Proof.
  intros Hm. unfold sourceLine. rewrite Hm. cbv zeta.
  exists (match exec false bulkExport ln with
          | Some b =>
              fold_left (fun acc name =>
                           if nonEmpty name && test false wordOnly name
                           then addTo Exports acc name filePath (i + 1)
                           else acc)
                        (bulkNames (group b 1)) s
          | None => s
          end).
  repeat split.
  - destruct (exec false bulkExport ln); [|reflexivity].
    apply (fold_same apiRoutes). intros s0 a.
    destruct (_ && _); [apply addTo_routes|reflexivity].
  - destruct (exec false bulkExport ln); [|reflexivity].
    apply (fold_same functions). intros s0 a.
    destruct (_ && _); reflexivity.
  - destruct (exec false bulkExport ln); [|reflexivity].
    apply (fold_same classes). intros s0 a.
    destruct (_ && _); reflexivity.
  - destruct (exec false bulkExport ln); [|reflexivity].
    apply (fold_same variables). intros s0 a.
    destruct (_ && _); reflexivity.
  - destruct (exec false bulkExport ln) as [b|]; [|intros n e H; left; eauto].
    generalize (bulkNames (group b 1)). intros names. revert s.
    induction names as [|a names IH]; intros s n e H; simpl in H.
    + left. eauto.
    + apply IH in H. destruct H as [(e1 & H1 & Hf & Hl)|H]; [|now right].
      destruct (nonEmpty a && test false wordOnly a); [|left; eauto].
      apply addTo_exports_origin in H1.
      destruct H1 as [(e0 & H0 & Hf0 & Hl0)|[Hf0 Hl0]].
      * left. exists e0. repeat split; congruence.
      * right. split; congruence.
Qed.

Lemma sourceLine_route_origin filePath s i ln key r :
  own (apiRoutes (sourceLine filePath s i ln)) key = Some r ->
  own (apiRoutes s) key = Some r \/ (r_file r = filePath /\ r_line r = i + 1).
Proof.
  destruct (exec false memberExport ln) as [m|] eqn:Em.
  - unfold sourceLine. rewrite Em, addTo_routes. auto.
  - destruct (sourceLine_parts filePath s i ln Em)
      as (s1 & Hr & _ & _ & _ & _ & ->).
    rewrite <- Hr.
    destruct (exec false routeMatch ln).
    + intros H. apply own_addRoute in H.
      destruct H as [H|[_ ->]]; [now left|right; split; reflexivity].
    + destruct (exec false mountMatch ln); [|now left].
      destruct (startsWith _ _); [|now left].
      intros H. apply own_addRoute in H.
      destruct H as [H|[_ ->]]; [now left|right; split; reflexivity].
Qed.

Lemma sourceLine_export_origin filePath s i ln n e :
  own (exports (sourceLine filePath s i ln)) n = Some e ->
  (exists e0, own (exports s) n = Some e0 /\ file e0 = file e /\
              line e0 = line e) \/
  (file e = filePath /\ line e = i + 1).
Proof.
  destruct (exec false memberExport ln) as [m|] eqn:Em.
  - unfold sourceLine. rewrite Em. apply addTo_exports_origin.
  - destruct (sourceLine_parts filePath s i ln Em)
      as (s1 & _ & _ & _ & _ & He & ->).
    intros H. apply He.
    destruct (exec false routeMatch ln);
      [|destruct (exec false mountMatch ln);
        [destruct (startsWith _ _)|]];
      try exact H;
      now rewrite (addRoute_cat Exports) in H.
Qed.

(** The scan adds nothing to the functions, the classes and the
    variables. *)
Lemma sourceLine_declarations filePath s i ln :
  functions (sourceLine filePath s i ln) = functions s /\
  classes (sourceLine filePath s i ln) = classes s /\
  variables (sourceLine filePath s i ln) = variables s.
Proof.
  destruct (exec false memberExport ln) as [m|] eqn:Em.
  - unfold sourceLine. rewrite Em. repeat split.
  - destruct (sourceLine_parts filePath s i ln Em)
      as (s1 & _ & Hf & Hc & Hv & _ & ->).
    rewrite <- Hf, <- Hc, <- Hv.
    destruct (exec false routeMatch ln);
      [|destruct (exec false mountMatch ln);
        [destruct (startsWith _ _)|]];
      repeat split;
      first [ apply (addRoute_cat Functions) | apply (addRoute_cat Classes)
            | apply (addRoute_cat Variables) ].
Qed.

Lemma sourceLines_declarations filePath lines : forall i s,
  functions (forLines (sourceLine filePath) i lines s) = functions s /\
  classes (forLines (sourceLine filePath) i lines s) = classes s /\
  variables (forLines (sourceLine filePath) i lines s) = variables s.
Proof.
  induction lines as [|l lines IH]; intros i s; simpl; [repeat split|].
  destruct (IH (S i) (sourceLine filePath s i l)) as (Hf & Hc & Hv).
  destruct (sourceLine_declarations filePath s i l) as (Hf' & Hc' & Hv').
  repeat split; congruence.
Qed.

(** *** What the scan records, and at which line *)

Lemma sourceLines_route_origin filePath lines : forall i0 s key r,
  own (apiRoutes (forLines (sourceLine filePath) i0 lines s)) key = Some r ->
  own (apiRoutes s) key = Some r \/
  (r_file r = filePath /\
   exists j, j < List.length lines /\ r_line r = i0 + j + 1).
Proof.
  induction lines as [|l lines IH]; intros i0 s key r H; simpl in H;
    [now left|].
  apply IH in H. destruct H as [H|(Hf & j & Hj & Hl)].
  - apply sourceLine_route_origin in H. destruct H as [H|[Hf Hl]];
      [now left|].
    right. split; [exact Hf|]. exists 0. simpl. split; lia.
  - right. split; [exact Hf|]. exists (S j). simpl. split; lia.
Qed.

Lemma sourceLines_export_origin filePath lines : forall i0 s n e,
  own (exports (forLines (sourceLine filePath) i0 lines s)) n = Some e ->
  (exists e0, own (exports s) n = Some e0 /\ file e0 = file e /\
              line e0 = line e) \/
  (file e = filePath /\
   exists j, j < List.length lines /\ line e = i0 + j + 1).
Proof.
  induction lines as [|l lines IH]; intros i0 s n e H; simpl in H;
    [left; eauto|].
  apply IH in H. destruct H as [(e1 & H & Hf1 & Hl1)|(Hf & j & Hj & Hl)].
  - apply sourceLine_export_origin in H.
    destruct H as [(e0 & H0 & Hf0 & Hl0)|[Hf Hl]].
    + left. exists e0. repeat split; congruence.
    + right. split; [congruence|]. exists 0. simpl. split; lia.
  - right. split; [exact Hf|]. exists (S j). simpl. split; lia.
Qed.

End LineScan.

Section LineScanFinds.
Import Indexer Walker.
Context {ast : AstService}.

Lemma own_addRoute_new s key e :
  own (apiRoutes s) key = None -> inherited key = false ->
  own (apiRoutes (addRoute s key e)) key = Some e.
Proof.
  intros Hnone Hi. unfold addRoute, read. rewrite Hnone, Hi. simpl.
  apply own_assign_same. now apply inherited_not_proto.
Qed.

(** A route key starts with an upper-cased verb: it is no name of
    [Object.prototype]. *)
Lemma routeKey_ordinary ln m :
  exec false routeMatch ln = Some m ->
  inherited (toUpperCase (group m 1) ++ " " ++ group m 2) = false.
Proof.
  intros H. apply routeMatch_shape in H. destruct H as (Hverb & _).
  simpl in Hverb.
  repeat (destruct Hverb as [<-|Hverb]; [reflexivity|]). contradiction.
Qed.

Lemma sourceLine_route_new filePath s i ln m :
  exec false memberExport ln = None ->
  exec false routeMatch ln = Some m ->
  own (apiRoutes s) (toUpperCase (group m 1) ++ " " ++ group m 2) = None ->
  own (apiRoutes (sourceLine filePath s i ln))
      (toUpperCase (group m 1) ++ " " ++ group m 2)
  = Some {| r_file := filePath; r_line := i + 1;
            r_method := toUpperCase (group m 1); r_path := group m 2 |}.
Proof.
  intros Hme Hm Hnone.
  destruct (sourceLine_parts filePath s i ln Hme)
    as (s1 & Hr & _ & _ & _ & _ & ->).
  rewrite Hm. apply own_addRoute_new.
  - now rewrite Hr.
  - now apply routeKey_ordinary with ln.
Qed.

Lemma sourceLines_keep filePath lines i s :
  keepsFirst s (forLines (sourceLine filePath) i lines s).
Proof. apply sourceLines_keeps. Qed.

(** A route declared on line [i] of the text is recorded with the number
    of a line of the text, [i + 1] at most. *)
Lemma sourceLines_route_found filePath lines i ln m s :
  nth_error lines i = Some ln ->
  exec false memberExport ln = None ->
  exec false routeMatch ln = Some m ->
  own (apiRoutes s) (toUpperCase (group m 1) ++ " " ++ group m 2) = None ->
  exists r j,
    own (apiRoutes (forLines (sourceLine filePath) 0 lines s))
        (toUpperCase (group m 1) ++ " " ++ group m 2) = Some r /\
    r_file r = filePath /\ j <= i /\ r_line r = j + 1.
Proof.
  intros Hi Hme Hm Hnone.
  destruct (nth_error_split lines i Hi) as (pre & post & -> & Hlen).
  rewrite forLines_app. simpl forLines.
  set (sp := forLines (sourceLine filePath) 0 pre s).
  destruct (own (apiRoutes sp)
              (toUpperCase (group m 1) ++ " " ++ group m 2)) as [r|] eqn:E.
  - destruct (sourceLines_route_origin filePath pre 0 s _ r E)
      as [H|(Hf & j & Hj & Hl)]; [congruence|].
    exists r, j. repeat split; try assumption; try lia.
    destruct (sourceLines_keep filePath post (S (0 + List.length pre))
                (sourceLine filePath sp (0 + List.length pre) ln))
      as [_ Hk].
    apply Hk.
    destruct (sourceLines_keep filePath [ln] (0 + List.length pre) sp)
      as [_ Hk1].
    now apply Hk1.
  - eexists. exists i. split; [|split; [|split]].
    + destruct (sourceLines_keep filePath post (S (0 + List.length pre))
                  (sourceLine filePath sp (0 + List.length pre) ln))
        as [_ Hk].
      apply Hk. now apply sourceLine_route_new.
    + reflexivity.
    + lia.
    + simpl. lia.
Qed.

(** The same for a single-property export. *)
Lemma sourceLines_export_found filePath lines i ln m s :
  nth_error lines i = Some ln ->
  exec false memberExport ln = Some m ->
  inherited (group m 1) = false ->
  own (exports s) (group m 1) = None ->
  exists e j,
    own (exports (forLines (sourceLine filePath) 0 lines s)) (group m 1)
    = Some e /\
    file e = filePath /\ j <= i /\ line e = j + 1.
Proof.
  intros Hi Hm Hinh Hnone.
  destruct (nth_error_split lines i Hi) as (pre & post & -> & Hlen).
  rewrite forLines_app. simpl forLines.
  set (sp := forLines (sourceLine filePath) 0 pre s).
  destruct (own (exports sp) (group m 1)) as [e|] eqn:E.
  - destruct (sourceLines_export_origin filePath pre 0 s _ e E)
      as [(e0 & H0 & _)|(Hf & j & Hj & Hl)]; [congruence|].
    destruct (sourceLines_keep filePath (ln :: post) (0 + List.length pre) sp)
      as [Hk _].
    destruct (Hk Exports (group m 1) e E) as [k Hk'].
    exists (seenAgain k e), j. simpl in Hk'.
    repeat split; try assumption; simpl; lia.
  - pose proof (sourceLine_member_export filePath sp (0 + List.length pre)
                  ln m Hm Hinh E) as Hnew.
    destruct (sourceLines_keep filePath post (S (0 + List.length pre))
                (sourceLine filePath sp (0 + List.length pre) ln))
      as [Hk _].
    destruct (Hk Exports (group m 1) _ Hnew) as [k Hk'].
    eexists. exists i. split; [exact Hk'|]. simpl. repeat split; lia.
Qed.

(** *** The scan does not see the offset *)

Lemma addRoute_routes s key e :
  apiRoutes (addRoute s key e) =
  if truthy (read (apiRoutes s) key) then apiRoutes s
  else assign (apiRoutes s) key e.
Proof. unfold addRoute. destruct (truthy _); reflexivity. Qed.

(** What a line does to the routes depends on the routes only, and what
    it does to the exports on the exports only. *)
Lemma sourceLine_routes_agree filePath t1 t2 i ln :
  apiRoutes t1 = apiRoutes t2 ->
  apiRoutes (sourceLine filePath t1 i ln)
  = apiRoutes (sourceLine filePath t2 i ln).
Proof.
  intros Hr.
  destruct (exec false memberExport ln) as [m|] eqn:Em.
  - unfold sourceLine. rewrite Em, !addTo_routes. exact Hr.
  - destruct (sourceLine_parts filePath t1 i ln Em)
      as (u1 & H1 & _ & _ & _ & _ & ->).
    destruct (sourceLine_parts filePath t2 i ln Em)
      as (u2 & H2 & _ & _ & _ & _ & ->).
    assert (H12 : apiRoutes u1 = apiRoutes u2) by congruence.
    destruct (exec false routeMatch ln);
      [|destruct (exec false mountMatch ln);
        [destruct (startsWith _ _)|]];
      rewrite ?addRoute_routes, ?H12; reflexivity || exact H12.
Qed.

Lemma sourceLine_exports_agree filePath t1 t2 i ln :
  exports t1 = exports t2 ->
  exports (sourceLine filePath t1 i ln)
  = exports (sourceLine filePath t2 i ln).
Proof.
  intros He. unfold sourceLine.
  destruct (exec false memberExport ln) as [m|].
  - simpl. now rewrite He.
  - cbv zeta.
    assert (Hbulk : forall names u1 u2,
              exports u1 = exports u2 ->
              exports (fold_left
                         (fun acc name =>
                            if nonEmpty name && test false wordOnly name
                            then addTo Exports acc name filePath (i + 1)
                            else acc) names u1)
              = exports (fold_left
                           (fun acc name =>
                              if nonEmpty name && test false wordOnly name
                              then addTo Exports acc name filePath (i + 1)
                              else acc) names u2)).
    { induction names as [|a names IH]; intros u1 u2 H; simpl;
        [exact H|].
      apply IH. destruct (nonEmpty a && test false wordOnly a);
        [simpl; now rewrite H|exact H]. }
    assert (H12 : exports
                    match exec false bulkExport ln with
                    | Some b =>
                        fold_left
                          (fun acc name =>
                             if nonEmpty name && test false wordOnly name
                             then addTo Exports acc name filePath (i + 1)
                             else acc) (bulkNames (group b 1)) t1
                    | None => t1
                    end
                  = exports
                      match exec false bulkExport ln with
                      | Some b =>
                          fold_left
                            (fun acc name =>
                               if nonEmpty name && test false wordOnly name
                               then addTo Exports acc name filePath (i + 1)
                               else acc) (bulkNames (group b 1)) t2
                      | None => t2
                      end).
    { destruct (exec false bulkExport ln); [now apply Hbulk|exact He]. }
    destruct (exec false routeMatch ln);
      [|destruct (exec false mountMatch ln);
        [destruct (startsWith _ _)|]];
      rewrite ?(addRoute_cat Exports); exact H12.
Qed.

Lemma sourceLines_routes_agree filePath lines : forall i t1 t2,
  apiRoutes t1 = apiRoutes t2 ->
  apiRoutes (forLines (sourceLine filePath) i lines t1)
  = apiRoutes (forLines (sourceLine filePath) i lines t2).
Proof.
  induction lines as [|l lines IH]; intros i t1 t2 H; simpl; [exact H|].
  apply IH. now apply sourceLine_routes_agree.
Qed.

Lemma sourceLines_exports_agree filePath lines : forall i t1 t2,
  exports t1 = exports t2 ->
  exports (forLines (sourceLine filePath) i lines t1)
  = exports (forLines (sourceLine filePath) i lines t2).
Proof.
  induction lines as [|l lines IH]; intros i t1 t2 H; simpl; [exact H|].
  apply IH. now apply sourceLine_exports_agree.
Qed.

(** The routes recorded are those recorded with the offset 0, and so are
    the exports when the tree has no export statement. *)
Lemma extractAstSymbols_offset_free root filePath lang s off :
  apiRoutes (extractAstSymbols root filePath lang s off)
  = apiRoutes (extractAstSymbols root filePath lang s 0) /\
  (findAll root "export_statement" = [] ->
   exports (extractAstSymbols root filePath lang s off)
   = exports (extractAstSymbols root filePath lang s 0)).
Proof.
  destruct (extractAstSymbols_scan root filePath lang s off)
    as (t & -> & Hr & He).
  destruct (extractAstSymbols_scan root filePath lang s 0)
    as (t0 & -> & Hr0 & He0).
  split.
  - apply sourceLines_routes_agree. congruence.
  - intros Hnone. apply sourceLines_exports_agree.
    rewrite He, He0 by assumption. reflexivity.
Qed.

(** *** An inline block *)

Lemma splitOn_not_nil sep s : splitOn sep s <> [].
Proof.
  destruct s as [|c t]; simpl; [discriminate|].
  destruct (Ascii.eqb c sep); [discriminate|].
  destruct (splitOn sep t); discriminate.
Qed.

(** The offset of a block, the number of the line its tag starts on, is
    never 0. *)
Lemma lineOfIndex_positive content n : 1 <= lineOfIndex content n.
Proof.
  unfold lineOfIndex.
  pose proof (splitOn_not_nil "010" (ofChars (firstn n (chars content)))) as H.
  destruct (splitOn _ _); [contradiction|simpl; lia].
Qed.

Lemma inlineBlock_parsed filePath content s m root :
  nonEmpty (trim (group m 1)) = true ->
  parse JavaScript (group m 1) = Some root ->
  inlineBlock filePath content s m =
  extractAstSymbols root filePath JavaScript s
    (lineOfIndex content (f_index m)).
Proof.
  intros Hne Hp. unfold inlineBlock, extractWithAst. now rewrite Hne, Hp.
Qed.

Lemma jsRegexLine_keeps filePath off s i ln :
  keepsFirst s (jsRegexLine filePath off s i ln).
Proof.
  apply (jsRegexLine_closure keepsFirst keepsFirst_refl filePath).
  intros. apply keepsFirst_addTo.
Qed.

End LineScanFinds.

Section InlineBlockTheorems.
Import Indexer Walker.
Context {ast : AstService}.

(** C5 (the code departs from the claim). Let the text of an inline
    script block parse to the tree [root]. The offset of the block is at
    least 1, but the routes recorded for the block are those recorded
    with the line offset 0: every route the block
    adds carries the number of a line of the text of [root], counted from
    1, and a route declared on line [i] of that text (counted from 0) is
    recorded at [i + 1] at most. When the tree has no export statement
    the same holds for the exports of the block, which then all come from
    the scan of the source lines. The offset of the block, which the
    passes over the syntax tree add to every line they record, is not
    added by that scan. *)
Theorem inline_line_scan_drops_offset
  (filePath content : string) (s : Symbols) (m : found) (root : SgNode) :
  nonEmpty (trim (group m 1)) = true ->
  parse JavaScript (group m 1) = Some root ->
  let lines := splitOn "010" (text root) in
  let s' := inlineBlock filePath content s m in
  1 <= lineOfIndex content (f_index m) /\
  apiRoutes s' = apiRoutes (extractAstSymbols root filePath JavaScript s 0) /\
  (forall key r,
     own (apiRoutes s') key = Some r ->
     own (apiRoutes s) key = Some r \/
     (r_file r = filePath /\
      exists i, i < List.length lines /\ r_line r = i + 1)) /\
  (forall i ln rm,
     nth_error lines i = Some ln ->
     exec false memberExport ln = None ->
     exec false routeMatch ln = Some rm ->
     own (apiRoutes s) (toUpperCase (group rm 1) ++ " " ++ group rm 2)
       = None ->
     exists r j,
       own (apiRoutes s') (toUpperCase (group rm 1) ++ " " ++ group rm 2)
         = Some r /\
       r_file r = filePath /\ j <= i /\ r_line r = j + 1) /\
  (findAll root "export_statement" = [] ->
   exports s' = exports (extractAstSymbols root filePath JavaScript s 0) /\
   (forall n e,
      own (exports s') n = Some e ->
      (exists e0, own (exports s) n = Some e0 /\ file e0 = file e /\
                  line e0 = line e) \/
      (file e = filePath /\
       exists i, i < List.length lines /\ line e = i + 1)) /\
   (forall i ln em,
      nth_error lines i = Some ln ->
      exec false memberExport ln = Some em ->
      inherited (group em 1) = false ->
      own (exports s) (group em 1) = None ->
      exists e j,
        own (exports s') (group em 1) = Some e /\
        file e = filePath /\ j <= i /\ line e = j + 1)).
Proof.
  intros Hne Hp lines s'. subst s'.
  split; [apply lineOfIndex_positive|].
  rewrite (inlineBlock_parsed filePath content s m root Hne Hp).
  destruct (extractAstSymbols_offset_free root filePath JavaScript s
              (lineOfIndex content (f_index m))) as [Hfree Hfree'].
  split; [exact Hfree|]. clear Hfree.
  destruct (extractAstSymbols_scan root filePath JavaScript s
              (lineOfIndex content (f_index m))) as (t & Et & Hr & He).
  rewrite Et in *. clear Et.
  fold lines. fold lines in Hfree'. split; [|split].
  - intros key r H.
    apply sourceLines_route_origin in H. rewrite Hr in H.
    destruct H as [H|(Hf & j & Hj & Hl)]; [now left|].
    right. split; [exact Hf|]. exists j. split; [exact Hj|]. simpl in Hl. lia.
  - intros i ln rm Hi Hme Hm Hnone.
    apply sourceLines_route_found with ln; try assumption.
    now rewrite Hr.
  - intros Hnoexp. specialize (He Hnoexp).
    split; [exact (Hfree' Hnoexp)|]. split.
    + intros n e H.
      apply sourceLines_export_origin in H. rewrite He in H.
      destruct H as [H|(Hf & j & Hj & Hl)]; [now left|].
      right. split; [exact Hf|]. exists j. split; [exact Hj|].
      simpl in Hl. lia.
    + intros i ln em Hi Hm Hinh Hnone.
      apply sourceLines_export_found with ln; try assumption.
      now rewrite He.
Qed.

(** C6 (the code departs from the claim). Let the text of an inline
    script block not parse: the parser throws, or it returns a tree
    without any node of the kinds the extractor asks for. Then
    [extractHtml] records no function, class or variable for the block,
    although the heuristic extractor, applied to the lines of the block
    with its offset, records the function of every line its function
    pattern matches: the fallback is not applied. *)
Theorem inline_parse_failure_no_fallback
  (filePath content : string) (s : Symbols) (m : found)
  (i : nat) (ln : string) (fm : found) :
  parse JavaScript (group m 1) = None \/
  (exists root, parse JavaScript (group m 1) = Some root /\
                forall kd, In kd queriedKinds -> findAll root kd = []) ->
  nth_error (splitOn "010" (group m 1)) i = Some ln ->
  exec false jsFuncDecl ln = Some fm ->
  inherited (group fm 1) = false ->
  ~ present Functions s (group fm 1) ->
  functions (inlineBlock filePath content s m) = functions s /\
  classes (inlineBlock filePath content s m) = classes s /\
  variables (inlineBlock filePath content s m) = variables s /\
  ~ present Functions (inlineBlock filePath content s m) (group fm 1) /\
  present Functions
    (extractWithRegex filePath (splitOn "010" (group m 1)) "javascript" s
       (lineOfIndex content (f_index m)))
    (group fm 1).
Proof.
  intros Hfail Hi Hm Hinh Hnew.
  assert (Hsame : functions (inlineBlock filePath content s m) = functions s /\
                  classes (inlineBlock filePath content s m) = classes s /\
                  variables (inlineBlock filePath content s m) = variables s).
  { destruct Hfail as [Hthrow|(root & Hp & Hnone)].
    - rewrite (inlineBlock_parse_failure filePath content s m Hthrow).
      repeat split.
    - unfold inlineBlock, extractWithAst. rewrite Hp.
      destruct (negb _); [repeat split|].
      rewrite (extractAstSymbols_no_findings root filePath JavaScript s _
                 Hnone).
      apply sourceLines_declarations. }
  destruct Hsame as (Hf & Hc & Hv). repeat split; try assumption.
  - unfold present. simpl. rewrite Hf. exact Hnew.
  - unfold extractWithRegex. simpl. unfold extractJsRegex.
    eapply (forLines_records (jsRegexLine filePath _) Functions (group fm 1));
      [intros; apply jsRegexLine_keeps| |exact Hi].
    intros s0 i0. unfold jsRegexLine. cbv zeta. rewrite Hm.
    now apply addTo_present_new.
Qed.

End InlineBlockTheorems.

Lemma inline_line_scan_drops_offset_witness :
  let s' := Indexer.extractHtml (ast := Toy.service) "web/admin.html"
              adminPage emptySymbols in
  (exists r j,
     own (apiRoutes s') "GET /api/ping" = Some r /\
     r_file r = "web/admin.html" /\ j <= 2 /\ r_line r = j + 1) /\
  (exists e j,
     own (exports s') "greet" = Some e /\
     file e = "web/admin.html" /\ j <= 1 /\ line e = j + 1).
Proof.
  cbv zeta. unfold Indexer.extractHtml.
  destruct (execAll true Indexer.inlineScriptRegex adminPage)
    as [|m [|m' rest]] eqn:E; try (vm_compute in E; discriminate).
  assert (Hg : group m 1 =
               textOf [""; "function hello() {}"; "exports.greet = hello;";
                       "app.get('/api/ping', hello);"; ""]).
  { vm_compute in E. injection E as E. subst m. reflexivity. }
  clear E. cbn [fold_left].
  destruct (parse (AstService := Toy.service) JavaScript (group m 1))
    as [root|] eqn:Ep; [|discriminate].
  assert (Hroot : splitOn "010" (text root) =
                  ["function hello() {}"; "exports.greet = hello;";
                   "app.get('/api/ping', hello);"; ""] /\
                  findAll root "export_statement" = []).
  { rewrite Hg in Ep. vm_compute in Ep. injection Ep as Ep. subst root.
    split; reflexivity. }
  destruct Hroot as [Hlines Hnoexp].
  assert (Hne : nonEmpty (trim (group m 1)) = true)
    by (rewrite Hg; reflexivity).
  destruct (inline_line_scan_drops_offset (ast := Toy.service)
              "web/admin.html" adminPage emptySymbols m root Hne Ep)
    as (_ & _ & _ & Hroute & Hexp).
  destruct (Hexp Hnoexp) as (_ & _ & Hexport). clear Hexp.
  rewrite Hlines in Hroute, Hexport. split.
  - destruct (exec false Indexer.routeMatch "app.get('/api/ping', hello);")
      as [rm|] eqn:Er; [|vm_compute in Er; discriminate].
    assert (Hk : (toUpperCase (group rm 1) ++ " " ++ group rm 2)%string
                 = "GET /api/ping").
    { vm_compute in Er. injection Er as Er. subst rm. reflexivity. }
    destruct (Hroute 2 "app.get('/api/ping', hello);" rm eq_refl eq_refl Er)
      as (r & j & H); [rewrite Hk; reflexivity|].
    rewrite Hk in H. exists r, j. exact H.
  - destruct (exec false Indexer.memberExport "exports.greet = hello;")
      as [em|] eqn:Ee; [|vm_compute in Ee; discriminate].
    assert (Hk : group em 1 = "greet").
    { vm_compute in Ee. injection Ee as Ee. subst em. reflexivity. }
    destruct (Hexport 1 "exports.greet = hello;" em eq_refl Ee)
      as (e & j & H); [rewrite Hk; reflexivity..|].
    rewrite Hk in H. exists e, j. exact H.
Defined.

(** The lines recorded for [adminPage], whose inline script block starts
    on line 3: the function [hello], on line 2 of the block, is found in
    the syntax tree and recorded at 2 + 3; the export [greet] and the
    route [GET /api/ping], on lines 3 and 4 of the block, are found by the
    scan of the source lines and recorded at 2 and 3, their lines in the
    text of the root, where the claim asks for 3 + 3 and 4 + 3. *)
Example inline_lines_recorded :
  let s := Indexer.extractHtml (ast := Toy.service) "web/admin.html"
             adminPage emptySymbols in
  map (fun m => lineOfIndex adminPage (f_index m))
      (execAll true Indexer.inlineScriptRegex adminPage) = [3] /\
  own (functions s) "hello" =
    Some {| file := "web/admin.html"; line := 2 + 3; usages := 1 |} /\
  own (exports s) "greet" =
    Some {| file := "web/admin.html"; line := 2; usages := 1 |} /\
  own (apiRoutes s) "GET /api/ping" =
    Some {| r_file := "web/admin.html"; r_line := 3; r_method := "GET";
            r_path := "/api/ping" |}.
Proof. vm_compute. repeat split. Qed.

Lemma inline_parse_failure_no_fallback_witness :
  let block :=
    textOf [""; "window.render = function render(items) { return <%= items %>; };";
            ""] in
  functions (Indexer.extractHtml (ast := Toy.service) "views/list.html"
               templatePage emptySymbols) = [] /\
  present Functions
    (extractWithRegex "views/list.html" (splitOn "010" block) "javascript"
       emptySymbols 2)
    "render".
Proof.
  cbv zeta. unfold Indexer.extractHtml.
  destruct (execAll true Indexer.inlineScriptRegex templatePage)
    as [|m [|m' rest]] eqn:E; try (vm_compute in E; discriminate).
  assert (Hg : group m 1 =
               textOf [""; "window.render = function render(items) { return <%= items %>; };";
                       ""] /\
               lineOfIndex templatePage (f_index m) = 2).
  { vm_compute in E. injection E as E. subst m. split; reflexivity. }
  destruct Hg as [Hg Hoff]. clear E. cbn [fold_left].
  destruct (exec false jsFuncDecl
              "window.render = function render(items) { return <%= items %>; };")
    as [fm|] eqn:Ef; [|vm_compute in Ef; discriminate].
  assert (Hk : group fm 1 = "render").
  { vm_compute in Ef. injection Ef as Ef. subst fm. reflexivity. }
  destruct (inline_parse_failure_no_fallback (ast := Toy.service)
              "views/list.html" templatePage emptySymbols m 1
              "window.render = function render(items) { return <%= items %>; };"
              fm) as (Hf & _ & _ & _ & Hfall).
  - right. rewrite Hg. eexists. split; [reflexivity|].
    intros kd Hin. unfold queriedKinds in Hin. simpl in Hin.
    repeat (destruct Hin as [<-|Hin]; [reflexivity|]). contradiction.
  - rewrite Hg. reflexivity.
  - exact Ef.
  - rewrite Hk. reflexivity.
  - rewrite Hk. intros [e He]. discriminate.
  - split.
    + exact Hf.
    + rewrite Hg, Hoff, Hk in Hfall. exact Hfall.
Defined.

(** ** The naming rules of the Python extractor *)

Section PythonNaming.

(** C7, as amended. For every Python source file: a name beginning with
    an underscore enters the function category only through a definition
    that starts in the first column of its line; the indented, method
    pattern never adds such a name. A definition in the first column,
    [def NAME(] or [async def NAME(], puts its name in the function
    category whether or not the name begins with an underscore, if the
    name is not one [Object.prototype] defines. And a line matched by the
    top-level assignment pattern whose captured name equals its own
    upper-casing puts that name in the variable category. *)
Theorem extractPython_naming
  (filePath : string) (lines : list string) (s : Symbols) :
  (forall name,
     startsWith name "_" = true ->
     own (functions s) name = None ->
     own (functions (extractPython filePath lines s)) name <> None ->
     exists j ln m c rest,
       nth_error lines j = Some ln /\
       exec false pyFuncDef ln = Some m /\ group m 1 = name /\
       ln = String c rest /\ isSpace c = false) /\
  (forall j asyncPart gap name gap2 rest,
     nth_error lines j
       = Some (asyncPart ++ "def" ++ gap ++ name ++ gap2 ++ "(" ++ rest)%string ->
     optionalKeyword "async" asyncPart -> isGap gap = true ->
     isWordText name = true -> isSpaces gap2 = true ->
     inherited name = false ->
     present Functions (extractPython filePath lines s) name) /\
  (forall j ln v,
     nth_error lines j = Some ln ->
     exec false pyVarAssign ln = Some v ->
     group v 1 = toUpperCase (group v 1) ->
     exists e,
       own (variables (extractPython filePath lines s)) (group v 1) = Some e).
Proof.
  split; [|split].
  - intros name Hu Hnone H.
    destruct (forLines_functions filePath name lines 0 s Hnone H)
      as (j & ln & Hj & [(m & Hm & Hname)|(m & _ & _ & Hno)]);
      [|congruence].
    destruct ln as [|c rest]; [vm_compute in Hm; discriminate|].
    exists j, (String c rest), m, c, rest. repeat split; try assumption.
    destruct (Ascii.eqb c "a") eqn:Ea.
    + apply Ascii.eqb_eq in Ea. now subst c.
    + destruct (Ascii.eqb c "d") eqn:Ed.
      * apply Ascii.eqb_eq in Ed. now subst c.
      * rewrite pyFuncDef_first in Hm by assumption. discriminate.
  - intros j asyncPart gap name gap2 rest Hj Hasync Hgap Hname Hgap2 Hinh.
    unfold extractPython.
    eapply (forLines_records (pythonLine filePath) Functions name);
      [| |exact Hj].
    + apply (pythonLine_closure keepsFirst keepsFirst_refl filePath).
      intros. apply keepsFirst_addTo.
    + intros s0 i0. unfold pythonLine. cbv zeta.
      destruct (pyFuncDef_finds asyncPart gap name gap2 rest
                  Hasync Hgap Hname Hgap2) as (m & -> & <-).
      now apply addTo_present_new.
  - intros j ln v Hj Hv Hup.
    destruct (pyVarAssign_shape ln v Hv) as (c & rest & tail & -> & Hw & Hg).
    assert (Hc : c = upperChar c).
    { rewrite Hg in Hup. simpl in Hup. now injection Hup. }
    apply upper_fixed_not_lower in Hc.
    assert (Hf : exec false pyFuncDef (String c rest) = None).
    { apply pyFuncDef_first.
      - destruct (Ascii.eqb c "a") eqn:E; [|reflexivity].
        apply Ascii.eqb_eq in E. subst c. discriminate.
      - destruct (Ascii.eqb c "d") eqn:E; [|reflexivity].
        apply Ascii.eqb_eq in E. subst c. discriminate. }
    assert (Hcl : exec false pyClassDef (String c rest) = None).
    { apply pyClassDef_first.
      destruct (Ascii.eqb c "c") eqn:E; [|reflexivity].
      apply Ascii.eqb_eq in E. subst c. discriminate. }
    assert (Hm : exec false pyMethodDef (String c rest) = None).
    { apply pyMethodDef_first. now apply word_not_space. }
    destruct (forLines_split (pythonLine filePath) lines j (String c rest) 0 s
                Hj) as (pre & post & E).
    unfold extractPython. rewrite E.
    apply (forLines_present (pythonLine filePath) Variables (group v 1)).
    + intros. now apply pythonLine_present.
    + unfold pythonLine, pythonAssign. rewrite Hf, Hcl, Hm, Hv.
      rewrite (proj2 (String.eqb_eq _ _) Hup).
      apply addTo_present_new.
      destruct (inherited (group v 1)) eqn:Hi; [|reflexivity].
      now apply inherited_has_lower in Hi.
Qed.

End PythonNaming.

Lemma extractPython_naming_witness :
  (exists e,
     own (variables (extractPython "config.py"
                       ["import os"; "MAX_RETRIES = 3"; "def _reset(x):"]
                       emptySymbols)) "MAX_RETRIES" = Some e) /\
  present Functions
    (extractPython "config.py"
       ["import os"; "MAX_RETRIES = 3"; "def _reset(x):"] emptySymbols)
    "_reset".
Proof.
  pose (lines := ["import os"; "MAX_RETRIES = 3"; "def _reset(x):"]).
  destruct (exec false pyVarAssign "MAX_RETRIES = 3") as [v|] eqn:Ev;
    [|vm_compute in Ev; discriminate].
  assert (Hg : group v 1 = "MAX_RETRIES").
  { vm_compute in Ev. injection Ev as Ev. subst v. reflexivity. }
  destruct (extractPython_naming "config.py" lines emptySymbols)
    as (_ & Hdef & Hvar).
  split.
  - rewrite <- Hg. apply (Hvar 1 "MAX_RETRIES = 3" v).
    + reflexivity.
    + exact Ev.
    + rewrite Hg. reflexivity.
  - apply (Hdef 2 "" " " "_reset" "" "x):").
    + reflexivity.
    + left. reflexivity.
    + reflexivity.
    + reflexivity.
    + reflexivity.
    + reflexivity.
Defined.
